(** * Columnar kernels of cudf: scan, drop_nulls, string/integer conversion

    A shallow embedding of three device-side kernels of the repository and
    the properties the specification states about them:

    - [Scan]      the prefix scans, [cudf::detail::scan] and its dispatcher
                  (src/unnamed/part_000)
    - [DropNulls] the null-aware row filter, [cudf::drop_nulls]
                  (src/unnamed/part_001, first file)
    - [Convert]   [cudf::strings::to_integers] and [from_integers]
                  (src/unnamed/part_001, second file)

    Device buffers are lists, bitmasks are lists of validity bits (true =
    valid), machine integers are [Z] with the two's-complement wrap written
    out, and a thrown [cudf::logic_error] is the left injection of the
    result type. *)

From Stdlib Require Import String Ascii ZArith Arith Bool Lia List Permutation.
Import ListNotations.

Set Implicit Arguments.

(** ** Errors and device work *)

(** [CUDF_EXPECTS] and [CUDF_FAIL] both throw [cudf::logic_error] with the
    message given at the call site. *)
Inductive cudf_error : Type :=
| logic_error (what : string).

(** The device operations a host function issues on its stream, in issue
    order.  The log makes "no device work was scheduled" a statement about
    the empty list. *)
Inductive device_event : Type :=
| ev_allocate (elements : nat)
| ev_copy_bitmask
| ev_create_null_mask (bits : nat)
| ev_column_device_view
| ev_find_if_not
| ev_set_null_mask (begin_bit end_bit : nat) (valid : bool)
| ev_exclusive_scan
| ev_inclusive_scan
| ev_make_strings_column.

(** A host computation: the device work issued so far and either the
    exception that ended it or its value. *)
Definition host (A : Type) : Type := (list device_event * (cudf_error + A))%type.

Definition ret {A} (a : A) : host A := ([], inr a).

Definition throw {A} (e : cudf_error) : host A := ([], inl e).

Definition launch (ev : device_event) : host unit := ([ev], inr tt).

Definition bind {A B} (m : host A) (f : A -> host B) : host B :=
  match m with
  | (log, inl e) => (log, inl e)
  | (log, inr a) => let (log', r) := f a in (log ++ log', r)
  end.

Declare Scope host_scope.
Delimit Scope host_scope with host.
Notation "x <- c ;; k" := (bind c (fun x => k))
  (at level 61, c at next level, right associativity) : host_scope.
Notation "c ;;; k" := (bind c (fun _ => k))
  (at level 61, right associativity) : host_scope.

Definition CUDF_EXPECTS (cond : bool) (reason : string) : host unit :=
  if cond then ret tt else throw (logic_error reason).

Definition CUDF_FAIL {A} (reason : string) : host A :=
  throw (logic_error reason).

Definition device_work {A} (m : host A) : list device_event := fst m.
Definition outcome {A} (m : host A) : cudf_error + A := snd m.

(** ** Bitmasks *)

(** Number of unset (null) bits among the first [n] bits of a mask. *)
Definition count_unset_bits (n : nat) (mask : list bool) : nat :=
  length (filter negb (firstn n mask)).

(** Modelled from the spec: [cudf::set_null_mask(mask, begin, end, valid)]
    is the null-bitmask utility's range "bit-set": it sets the bits in
    [[begin, end)] to [valid] and leaves the others; its source is missing
    from src/. *)
Fixpoint set_null_mask (mask : list bool) (begin_bit end_bit : nat) (valid : bool)
  : list bool :=
  match mask with
  | [] => []
  | b :: rest =>
      match begin_bit, end_bit with
      | _, O => b :: rest
      | O, S e => valid :: set_null_mask rest O e valid
      | S s, S e => b :: set_null_mask rest s e valid
      end
  end.

(** * Prefix scans (src/unnamed/part_000) *)

Module Scan.

Local Open Scope host_scope.
Local Open Scope string_scope.

(** Modelled from the spec: the runtime type tags of a column, the closed
    enumeration of section 4.1 (integers of widths 8 to 64, floating point,
    fixed-point decimal, boolean, string), with one timestamp and one nested
    type standing for the tags the guards of [scan] turn away.  The
    declaration (cudf/types.hpp) is missing from src/. *)
Inductive type_id : Type :=
| INT8 | INT16 | INT32 | INT64
| UINT8 | UINT16 | UINT32 | UINT64
| FLOAT32 | FLOAT64
| BOOL8
| TIMESTAMP_DAYS
| STRING
| LIST
| DECIMAL32 | DECIMAL64.

(** The C++ element types [T] the dispatcher is instantiated with. *)
Inductive cpp_type : Type :=
| int8_t | int16_t | int32_t | int64_t
| uint8_t | uint16_t | uint32_t | uint64_t
| float_t | double_t
| bool_t
| timestamp_D
| string_view
| list_view.

(** Modelled from the spec: the type traits used by [scan]
    (cudf/utilities/traits.hpp, missing from src/). *)
Definition is_numeric (t : type_id) : bool :=
  match t with
  | INT8 | INT16 | INT32 | INT64 | UINT8 | UINT16 | UINT32 | UINT64
  | FLOAT32 | FLOAT64 | BOOL8 => true
  | _ => false
  end.

Definition is_compound (t : type_id) : bool :=
  match t with
  | STRING | LIST => true
  | _ => false
  end.

Definition is_fixed_point (t : type_id) : bool :=
  match t with
  | DECIMAL32 | DECIMAL64 => true
  | _ => false
  end.

(** Modelled from the spec: [type_dispatcher<dispatch_storage_type>] invokes
    the functor at the type that stores the column's elements; a decimal
    column is stored as the integer of its width. *)
Definition dispatch_storage_type (t : type_id) : cpp_type :=
  match t with
  | INT8 => int8_t | INT16 => int16_t | INT32 => int32_t | INT64 => int64_t
  | UINT8 => uint8_t | UINT16 => uint16_t | UINT32 => uint32_t | UINT64 => uint64_t
  | FLOAT32 => float_t | FLOAT64 => double_t
  | BOOL8 => bool_t
  | TIMESTAMP_DAYS => timestamp_D
  | STRING => string_view
  | LIST => list_view
  | DECIMAL32 => int32_t | DECIMAL64 => int64_t
  end.

(** [std::is_arithmetic<T>] *)
Definition is_arithmetic (T : cpp_type) : bool :=
  match T with
  | timestamp_D | string_view | list_view => false
  | _ => true
  end.

(** The device binary operators [Op] the dispatcher is instantiated with. *)
Inductive device_operator : Type :=
| DeviceSum | DeviceMin | DeviceMax | DeviceProduct.

(** Aggregation kinds; the last three stand for the kinds [scan] does not
    support. *)
Inductive aggregation_kind : Type :=
| SUM | PRODUCT | MIN | MAX | COUNT_VALID | MEAN | MEDIAN.

Inductive scan_type : Type := INCLUSIVE | EXCLUSIVE.
Inductive null_policy : Type := EXCLUDE | INCLUDE.
Inductive mask_allocation_policy : Type := NEVER | RETAIN | ALWAYS.

Definition UNKNOWN_NULL_COUNT : Z := (-1)%Z.

(** A column view: a type tag, the element buffer and the optional
    validity bits of its rows ([None] is the absent mask). *)
Record column_view (V : Type) : Type := {
  cv_type : type_id;
  cv_data : list V;
  cv_null_mask : option (list bool)
}.

(** An owning column; [c_null_count] is the stored count, which may be
    [UNKNOWN_NULL_COUNT]. *)
Record column (V : Type) : Type := {
  c_type : type_id;
  c_data : list V;
  c_null_mask : option (list bool);
  c_null_count : Z
}.

Section Views.
Variable V : Type.

Definition cv_size (v : column_view V) : nat := length (cv_data v).

Definition cv_nullable (v : column_view V) : bool :=
  match cv_null_mask v with Some _ => true | None => false end.

(** [column_device_view::is_valid_nocheck]: bit [i] of the mask. *)
Definition cv_is_valid_nocheck (v : column_view V) (i : nat) : bool :=
  match cv_null_mask v with
  | Some m => nth i m false
  | None => true
  end.

Definition cv_is_valid (v : column_view V) (i : nat) : bool :=
  negb (cv_nullable v) || cv_is_valid_nocheck v i.

Definition cv_null_count (v : column_view V) : Z :=
  match cv_null_mask v with
  | Some m => Z.of_nat (count_unset_bits (cv_size v) m)
  | None => 0%Z
  end.

Definition cv_has_nulls (v : column_view V) : bool := (0 <? cv_null_count v)%Z.

Definition c_size (c : column V) : nat := length (c_data c).

(** [column::null_count()]: an unknown stored count is computed from the
    mask. *)
Definition column_null_count (c : column V) : Z :=
  if (c_null_count c <=? UNKNOWN_NULL_COUNT)%Z
  then match c_null_mask c with
       | Some m => Z.of_nat (count_unset_bits (c_size c) m)
       | None => 0%Z
       end
  else c_null_count c.

Definition column_is_valid (c : column V) (i : nat) : bool :=
  match c_null_mask c with
  | Some m => nth i m false
  | None => true
  end.

(** [column::set_null_mask(mask, null_count)] *)
Definition column_set_null_mask (c : column V) (mask : option (list bool))
           (new_null_count : Z) : column V :=
  {| c_type := c_type c; c_data := c_data c;
     c_null_mask := mask; c_null_count := new_null_count |}.

(** Writing a kernel's results through [mutable_view().data<T>()]. *)
Definition column_write_data (c : column V) (values : list V) : column V :=
  {| c_type := c_type c; c_data := values;
     c_null_mask := c_null_mask c; c_null_count := c_null_count c |}.

(** Modelled from the spec: [null_replaced_value_accessor], the iterator
    behind [make_null_replacement_iterator]: without nulls the element,
    with nulls the element where valid and the replacement elsewhere. *)
Definition make_null_replacement_iterator (v : column_view V) (null_replacement : V)
           (has_nulls : bool) : list V :=
  map (fun '(i, x) =>
         if has_nulls
         then if cv_is_valid_nocheck v i then x else null_replacement
         else x)
      (combine (seq 0 (cv_size v)) (cv_data v)).

(** [make_validity_iterator]: the validity bit of every row. *)
Definition make_validity_iterator (v : column_view V) : list bool :=
  map (cv_is_valid_nocheck v) (seq 0 (cv_size v)).

(** The thrust algorithms, by their sequential reference semantics. *)
Fixpoint thrust_exclusive_scan (op : V -> V -> V) (init : V) (l : list V) : list V :=
  match l with
  | [] => []
  | x :: rest => init :: thrust_exclusive_scan op (op init x) rest
  end.

Fixpoint inclusive_scan_from (op : V -> V -> V) (acc : V) (l : list V) : list V :=
  match l with
  | [] => []
  | x :: rest => op acc x :: inclusive_scan_from op (op acc x) rest
  end.

Definition thrust_inclusive_scan (op : V -> V -> V) (l : list V) : list V :=
  match l with
  | [] => []
  | x :: rest => x :: inclusive_scan_from op x rest
  end.
End Views.

(** [thrust::find_if_not(first, last, pred) - first] *)
Fixpoint thrust_find_if_not {A} (pred : A -> bool) (l : list A) : nat :=
  match l with
  | [] => O
  | x :: rest => if pred x then S (thrust_find_if_not pred rest) else O
  end.

(** ** scan_dispatcher<Op> *)

Section Dispatcher.
Variable V : Type.

(** The operators of cudf/detail/utilities/device_operators.cuh, which is
    missing from src/: [Op::identity<T>()] and [Op{}(a, b)] at
    element type [T]. *)
Variable identity : device_operator -> cpp_type -> V.
Variable apply : device_operator -> cpp_type -> V -> V -> V.

(** Contents of device memory that was allocated and not yet written. *)
Variable fresh_value : nat -> V.
Variable fresh_bit : nat -> bool.

(** The strings column factory (cudf/column/column_factories.hpp). *)
Variable make_strings_column : list V -> V -> column V.

Definition is_string_supported (Op : device_operator) (T : cpp_type) : bool :=
  match T, Op with
  | string_view, DeviceMin | string_view, DeviceMax => true
  | _, _ => false
  end.

(** [is_fixed_point<T>()] holds of no storage type. *)
Definition is_supported (Op : device_operator) (T : cpp_type) : bool :=
  is_arithmetic T || is_string_supported Op T.

(** Modelled from the spec: [detail::allocate_like] with
    [mask_allocation_policy::NEVER] allocates the data buffer and no
    mask. *)
Definition allocate_like (input_view : column_view V) (size : nat)
           (policy : mask_allocation_policy) : host (column V) :=
  launch (ev_allocate size) ;;;
  ret {| c_type := cv_type input_view;
         c_data := map fresh_value (seq 0 size);
         c_null_mask :=
           match policy with
           | NEVER => None
           | RETAIN =>
               if cv_nullable input_view
               then Some (map fresh_bit (seq 0 size)) else None
           | ALWAYS => Some (map fresh_bit (seq 0 size))
           end;
         c_null_count := 0%Z |}.

(** Modelled from the spec: [detail::copy_bitmask(view)] copies the mask
    of a nullable view and returns the empty buffer otherwise. *)
Definition copy_bitmask (input_view : column_view V) : host (option (list bool)) :=
  match cv_null_mask input_view with
  | Some m => launch ev_copy_bitmask ;;; ret (Some m)
  | None => ret None
  end.

(** [detail::create_null_mask(size, mask_state::UNINITIALIZED)] *)
Definition create_null_mask_uninitialized (size : nat) : host (list bool) :=
  launch (ev_create_null_mask size) ;;;
  ret (map fresh_bit (seq 0 size)).

(** The member scans, when the device executes what was issued:
    [CHECK_CUDA(stream.value())] passes, and the failures of the device
    (allocation, execution queue) are not modelled. *)
Definition exclusive_scan_arithmetic (Op : device_operator) (T : cpp_type)
           (input_view : column_view V) (null_handling : null_policy)
  : host (column V) :=
  let size := cv_size input_view in
  output_column <- allocate_like input_view size NEVER ;;
  output_column <-
    match null_handling with
    | EXCLUDE =>
        mask <- copy_bitmask input_view ;;
        ret (column_set_null_mask output_column mask (cv_null_count input_view))
    | INCLUDE => ret output_column
    end ;;
  launch ev_column_device_view ;;;
  let input :=
    make_null_replacement_iterator input_view (identity Op T)
                                   (cv_has_nulls input_view) in
  launch ev_exclusive_scan ;;;
  ret (column_write_data output_column
         (thrust_exclusive_scan (apply Op T) (identity Op T) input)).

Definition exclusive_scan_string (Op : device_operator) (T : cpp_type)
           (input_view : column_view V) (null_handling : null_policy)
  : host (column V) :=
  CUDF_FAIL "String types supports only inclusive min/max for `cudf::scan`".

Definition mask_inclusive_scan (input_view : column_view V) : host (list bool) :=
  mask <- create_null_mask_uninitialized (cv_size input_view) ;;
  launch ev_column_device_view ;;;
  let v := make_validity_iterator input_view in
  launch ev_find_if_not ;;;
  let first_null_position := thrust_find_if_not (fun b : bool => b) v in
  launch (ev_set_null_mask 0 first_null_position true) ;;;
  let mask := set_null_mask mask 0 first_null_position true in
  launch (ev_set_null_mask first_null_position (cv_size input_view) false) ;;;
  let mask := set_null_mask mask first_null_position (cv_size input_view) false in
  ret mask.

(** The null mask both inclusive scans give their output. *)
Definition inclusive_scan_mask (output_column : column V)
           (input_view : column_view V) (null_handling : null_policy)
  : host (column V) :=
  match null_handling with
  | EXCLUDE =>
      mask <- copy_bitmask input_view ;;
      ret (column_set_null_mask output_column mask (cv_null_count input_view))
  | INCLUDE =>
      if cv_nullable input_view
      then mask <- mask_inclusive_scan input_view ;;
           ret (column_set_null_mask output_column (Some mask) UNKNOWN_NULL_COUNT)
      else ret output_column
  end.

Definition inclusive_scan_arithmetic (Op : device_operator) (T : cpp_type)
           (input_view : column_view V) (null_handling : null_policy)
  : host (column V) :=
  let size := cv_size input_view in
  output_column <- allocate_like input_view size NEVER ;;
  output_column <- inclusive_scan_mask output_column input_view null_handling ;;
  launch ev_column_device_view ;;;
  let input :=
    make_null_replacement_iterator input_view (identity Op T)
                                   (cv_has_nulls input_view) in
  launch ev_inclusive_scan ;;;
  ret (column_write_data output_column (thrust_inclusive_scan (apply Op T) input)).

Definition inclusive_scan_string (Op : device_operator) (T : cpp_type)
           (input_view : column_view V) (null_handling : null_policy)
  : host (column V) :=
  let size := cv_size input_view in
  launch (ev_allocate size) ;;;
  launch ev_column_device_view ;;;
  let input :=
    make_null_replacement_iterator input_view (identity Op T)
                                   (cv_has_nulls input_view) in
  launch ev_inclusive_scan ;;;
  let result := thrust_inclusive_scan (apply Op T) input in
  launch ev_make_strings_column ;;;
  let output_column := make_strings_column result (identity Op string_view) in
  inclusive_scan_mask output_column input_view null_handling.

(** Overload resolution on [T]: the arithmetic overload, else the string
    one. *)
Definition inclusive_scan (Op : device_operator) (T : cpp_type)
  : column_view V -> null_policy -> host (column V) :=
  if is_arithmetic T then inclusive_scan_arithmetic Op T
  else inclusive_scan_string Op T.

Definition exclusive_scan (Op : device_operator) (T : cpp_type)
  : column_view V -> null_policy -> host (column V) :=
  if is_arithmetic T then exclusive_scan_arithmetic Op T
  else exclusive_scan_string Op T.

(** The check that ends [operator()]. *)
Definition null_count_postcondition (input : column_view V)
           (null_handling : null_policy) (output : column V) : host (column V) :=
  match null_handling with
  | EXCLUDE =>
      CUDF_EXPECTS (cv_null_count input =? column_null_count output)%Z
                   "Input / output column null count mismatch" ;;;
      ret output
  | INCLUDE => ret output
  end.

(** [scan_dispatcher<Op>::operator()<T>] *)
Definition scan_dispatcher (Op : device_operator) (T : cpp_type)
           (input : column_view V) (inclusive : scan_type)
           (null_handling : null_policy) : host (column V) :=
  if is_supported Op T then
    output <- match inclusive with
              | INCLUSIVE => inclusive_scan Op T input null_handling
              | EXCLUSIVE => exclusive_scan Op T input null_handling
              end ;;
    null_count_postcondition input null_handling output
  else
    CUDF_FAIL "Non-arithmetic types not supported for `cudf::scan`".

(** [cudf::detail::scan] *)
Definition scan (input : column_view V) (agg : aggregation_kind)
           (inclusive : scan_type) (null_handling : null_policy)
  : host (column V) :=
  CUDF_EXPECTS (is_numeric (cv_type input) || is_compound (cv_type input)
                || is_fixed_point (cv_type input))
               "Unexpected non-numeric or non-string type." ;;;
  let T := dispatch_storage_type (cv_type input) in
  match agg with
  | SUM => scan_dispatcher DeviceSum T input inclusive null_handling
  | MIN => scan_dispatcher DeviceMin T input inclusive null_handling
  | MAX => scan_dispatcher DeviceMax T input inclusive null_handling
  | PRODUCT =>
      if is_fixed_point (cv_type input)
      then CUDF_FAIL "decimal32/64 cannot support product scan"
      else scan_dispatcher DeviceProduct T input inclusive null_handling
  | _ => CUDF_FAIL "Unsupported aggregation operator for scan"
  end.
(** [scan_dispatcher<Op>::operator()<T>] and [cudf::detail::scan] once
    more, with the member scans [inclusive_scan<T>] and [exclusive_scan<T>]
    the dispatcher calls as arguments: what the check that follows the
    member scan does can then be stated for whatever column a member scan
    returns.  At the member scans above they are [scan_dispatcher] and
    [scan]. *)
Definition dispatcher_operator
           (inclusive_scan exclusive_scan :
              device_operator -> cpp_type -> column_view V -> null_policy
              -> host (column V))
           (Op : device_operator) (T : cpp_type)
           (input : column_view V) (inclusive : scan_type)
           (null_handling : null_policy) : host (column V) :=
  if is_supported Op T then
    output <- match inclusive with
              | INCLUSIVE => inclusive_scan Op T input null_handling
              | EXCLUSIVE => exclusive_scan Op T input null_handling
              end ;;
    null_count_postcondition input null_handling output
  else
    CUDF_FAIL "Non-arithmetic types not supported for `cudf::scan`".

Definition scan_with
           (inclusive_scan exclusive_scan :
              device_operator -> cpp_type -> column_view V -> null_policy
              -> host (column V))
           (input : column_view V) (agg : aggregation_kind)
           (inclusive : scan_type) (null_handling : null_policy)
  : host (column V) :=
  CUDF_EXPECTS (is_numeric (cv_type input) || is_compound (cv_type input)
                || is_fixed_point (cv_type input))
               "Unexpected non-numeric or non-string type." ;;;
  let T := dispatch_storage_type (cv_type input) in
  match agg with
  | SUM => dispatcher_operator inclusive_scan exclusive_scan DeviceSum T
                               input inclusive null_handling
  | MIN => dispatcher_operator inclusive_scan exclusive_scan DeviceMin T
                               input inclusive null_handling
  | MAX => dispatcher_operator inclusive_scan exclusive_scan DeviceMax T
                               input inclusive null_handling
  | PRODUCT =>
      if is_fixed_point (cv_type input)
      then CUDF_FAIL "decimal32/64 cannot support product scan"
      else dispatcher_operator inclusive_scan exclusive_scan DeviceProduct T
                               input inclusive null_handling
  | _ => CUDF_FAIL "Unsupported aggregation operator for scan"
  end.
End Dispatcher.

(** ** The operators at the integer element types *)

(** The value range [[lo, hi]] of an integer element type; [None] for the
    other element types. *)
Definition integer_limits (T : cpp_type) : option (Z * Z) :=
  match T with
  | int8_t => Some (- 2 ^ 7, 2 ^ 7 - 1)
  | int16_t => Some (- 2 ^ 15, 2 ^ 15 - 1)
  | int32_t => Some (- 2 ^ 31, 2 ^ 31 - 1)
  | int64_t => Some (- 2 ^ 63, 2 ^ 63 - 1)
  | uint8_t => Some (0, 2 ^ 8 - 1)
  | uint16_t => Some (0, 2 ^ 16 - 1)
  | uint32_t => Some (0, 2 ^ 32 - 1)
  | uint64_t => Some (0, 2 ^ 64 - 1)
  | _ => None
  end%Z.

(** Reduction of an integer into [[lo, hi]] modulo the size of the range:
    what storing a result into the element type keeps of it. *)
Definition wrap_into (limits : Z * Z) (z : Z) : Z :=
  let (lo, hi) := limits in (lo + (z - lo) mod (hi - lo + 1))%Z.

(** Modelled from the spec: the identity of each operator ("Sum->0,
    Min->max-of-type, Max->min-of-type, Product->1") and the operators
    themselves at an integer element type.  The entries at the other
    element types are placeholders: booleans, floating point and strings
    are outside this instance. *)
Definition integer_identity (Op : device_operator) (T : cpp_type) : Z :=
  match integer_limits T with
  | Some (lo, hi) =>
      match Op with
      | DeviceSum => 0
      | DeviceMin => hi
      | DeviceMax => lo
      | DeviceProduct => 1
      end
  | None => 0
  end%Z.

Definition integer_apply (Op : device_operator) (T : cpp_type) (a b : Z) : Z :=
  match integer_limits T with
  | Some limits =>
      match Op with
      | DeviceSum => wrap_into limits (a + b)
      | DeviceMin => Z.min a b
      | DeviceMax => Z.max a b
      | DeviceProduct => wrap_into limits (a * b)
      end
  | None => a
  end%Z.

(** ** Notions the properties are stated with *)

(** The rows of a view paired with their row index. *)
Definition indexed_rows {V} (input : column_view V) : list (nat * V) :=
  combine (seq 0 (cv_size input)) (cv_data input).

(** The elements of a view with every null row replaced by [r]. *)
Definition nulls_replaced {V} (input : column_view V) (r : V) : list V :=
  map (fun '(i, x) => if cv_is_valid input i then x else r) (indexed_rows input).

(** The valid elements among the first [n] rows of a view. *)
Definition valid_prefix {V} (input : column_view V) (n : nat) : list V :=
  map snd (filter (fun p => cv_is_valid input (fst p)) (firstn n (indexed_rows input))).

(** A nullable view has one validity bit per row. *)
Definition column_view_wf {V} (input : column_view V) : Prop :=
  match cv_null_mask input with
  | Some m => length m = cv_size input
  | None => True
  end.

(** The mask [mask_inclusive_scan] builds, given the content [fresh_bit] of
    the mask it allocates. *)
Definition first_null_mask {V} (fresh_bit : nat -> bool) (input : column_view V)
  : list bool :=
  let k := thrust_find_if_not (fun b : bool => b) (make_validity_iterator input) in
  set_null_mask (set_null_mask (map fresh_bit (seq 0 (cv_size input))) 0 k true)
                k (cv_size input) false.

(** What an operator's running total satisfies at an integer type of
    range [[lo, hi]]. *)
Definition total_invariant (Op : device_operator) (lo hi acc : Z) : Prop :=
  match Op with
  | DeviceSum | DeviceProduct => (lo <= acc <= hi)%Z
  | DeviceMin => (acc <= hi)%Z
  | DeviceMax => (lo <= acc)%Z
  end.

(** ** Example columns *)

(** A 32-bit column of five rows, null at row 2. *)
Definition example_input : column_view Z :=
  {| cv_type := INT32;
     cv_data := [3; 1; 4; 1; 5]%Z;
     cv_null_mask := Some [true; true; false; true; true] |}.

(** A decimal column of two rows. *)
Definition example_decimal_input : column_view Z :=
  {| cv_type := DECIMAL32; cv_data := [150; 275]%Z; cv_null_mask := None |}.

(** Device memory that reads as zero where it was not written. *)
Definition zero_value : nat -> Z := fun _ => 0%Z.
Definition unset_bit : nat -> bool := fun _ => false.

(** A strings column factory for the examples: the views as elements, no
    nulls. *)
Definition example_make_strings_column (views : list Z) (null_placeholder : Z)
  : column Z :=
  {| c_type := STRING; c_data := views; c_null_mask := None; c_null_count := 0%Z |}.

(** The operator an aggregation kind selects in [scan]. *)
Definition scan_operator (agg : aggregation_kind) : option device_operator :=
  match agg with
  | SUM => Some DeviceSum
  | MIN => Some DeviceMin
  | MAX => Some DeviceMax
  | PRODUCT => Some DeviceProduct
  | _ => None
  end.

(** ** Further notions *)

(** The guard that opens [scan]. *)
Definition type_accepted (t : type_id) : bool :=
  is_numeric t || is_compound t || is_fixed_point t.

(** The reduction of a non-empty list by [op], from its first element. *)
Definition reduce_from_first {V} (op : V -> V -> V) (l : list V) : option V :=
  match l with
  | [] => None
  | x :: rest => Some (fold_left op rest x)
  end.

(** A strings column of three rows, null at row 1; the elements stand
    for the string views. *)
Definition example_strings_input : column_view Z :=
  {| cv_type := STRING;
     cv_data := [7; 2; 9]%Z;
     cv_null_mask := Some [true; false; true] |}.

(** A timestamp column. *)
Definition example_timestamp_input : column_view Z :=
  {| cv_type := TIMESTAMP_DAYS; cv_data := [18000; 18001]%Z; cv_null_mask := None |}.

(** Another content of unwritten device memory. *)
Definition other_value : nat -> Z := fun n => Z.of_nat n.
Definition set_bit : nat -> bool := fun _ => true.

(** A member scan that returns the rows unscanned in a column without
    null mask: on an input with nulls its output fails the null count
    check. *)
Definition maskless_member_scan (Op : device_operator) (T : cpp_type)
           (input_view : column_view Z) (null_handling : null_policy)
  : host (column Z) :=
  launch (ev_allocate (cv_size input_view)) ;;;
  ret {| c_type := cv_type input_view; c_data := cv_data input_view;
         c_null_mask := None; c_null_count := 0%Z |}.

End Scan.

(** * Null-aware row filter (src/unnamed/part_001, first file) *)

Module DropNulls.

Local Open Scope string_scope.

(** [cudf::any_or_all] *)
Inductive any_or_all : Type := ANY | ALL.

(** A legacy [gdf_column]: the data buffer, the [valid] pointer ([None] is
    [nullptr], otherwise the validity bit of every row), the row count and
    the stored null count. *)
Record gdf_column (V : Type) : Type := {
  data : list V;
  valid : option (list bool);
  size : nat;
  null_count : nat
}.

(** A [cudf::table] is the ordered collection of its columns. *)
Definition table (V : Type) : Type := list (gdf_column V).

Section Tables.
Variable V : Type.

Definition num_columns (t : table V) : nat := length t.

(** [cudf::table::num_rows()]: the size of the first column, [0] for a
    table without columns. *)
Definition num_rows (t : table V) : nat :=
  match t with
  | [] => O
  | c :: _ => size c
  end.

(** Modelled from the spec: [cudf::has_nulls(table)] tells whether the
    table has any null at all, by the columns' null counts.  Its source
    (cudf/legacy/table.hpp) is missing from src/. *)
Definition column_has_nulls (c : gdf_column V) : bool :=
  match valid c with
  | Some _ => (0 <? null_count c)%nat
  | None => false
  end.

Definition has_nulls (t : table V) : bool := existsb column_has_nulls t.

(** [cudf::copy(table)]: a deep copy, the same value. *)
Definition copy (t : table V) : table V := t.
End Tables.

(** Modelled from the spec: [bit_mask::is_valid(mask, i)] is the null-bitmask
    utility's "bit-test" of bit [i]. *)
Definition is_valid (mask : list bool) (i : nat) : bool := nth i mask false.

(** ** valid_table_filter *)

Record valid_table_filter : Type := {
  drop_if : any_or_all;
  filter_num_columns : nat;
  d_masks : list (option (list bool))
}.

(** The lambda [valid] of [operator()], at row [i]. *)
Definition mask_valid (i : nat) (mask : option (list bool)) : bool :=
  match mask with
  | None => true
  | Some m => is_valid m i
  end.

(** [valid_table_filter::operator()(i)]: [thrust::any_of] and
    [thrust::all_of] over [d_masks, d_masks + num_columns). *)
Definition filter_call (f : valid_table_filter) (i : nat) : bool :=
  match drop_if f with
  | ALL => existsb (mask_valid i) (firstn (filter_num_columns f) (d_masks f))
  | ANY => forallb (mask_valid i) (firstn (filter_num_columns f) (d_masks f))
  end.

Section Filter.
Variable V : Type.

(** [valid_table_filter::get_bitmasks]: the [valid] pointer of every
    column, in column order. *)
Definition get_bitmasks (t : table V) : list (option (list bool)) :=
  map (@valid V) t.

(** [valid_table_filter::create], when the device allocation and the copy
    of the mask pointers succeed: the failures of [RMM_TRY], [CUDA_TRY] and
    [CHECK_STREAM] are not modelled. *)
Definition create (t : table V) (drop : any_or_all) : valid_table_filter :=
  {| drop_if := drop;
     filter_num_columns := num_columns t;
     d_masks := get_bitmasks t |}.

(** Stream compaction of a buffer whose first element is row [i]: the
    elements whose row passes the filter, in their order. *)
Fixpoint compact {A} (keep : nat -> bool) (i : nat) (l : list A) : list A :=
  match l with
  | [] => []
  | x :: rest =>
      if keep i then x :: compact keep (S i) rest
      else compact keep (S i) rest
  end.

(** Modelled from the spec: [detail::copy_if(input, filter)] compacts "the
    target table's rows where the predicate holds, preserving original row
    order (stable compaction, not reordering)"; it evaluates the filter at
    the row indices of the input.  Its source (copy_if.cuh) is missing
    from src/. *)
Definition copy_if_column (keep : nat -> bool) (rows : nat) (c : gdf_column V)
  : gdf_column V :=
  let out_data := compact keep 0 (firstn rows (data c)) in
  let out_valid := option_map (fun m => compact keep 0 (firstn rows m)) (valid c) in
  {| data := out_data;
     valid := out_valid;
     size := length (filter keep (seq 0 rows));
     null_count :=
       match out_valid with
       | Some m => count_unset_bits (length m) m
       | None => O
       end |}.

Definition copy_if (input : table V) (keep : nat -> bool) : table V :=
  map (copy_if_column keep (num_rows input)) input.

(** [cudf::drop_nulls] *)
Definition drop_nulls (input keys : table V) (drop : any_or_all)
  : cudf_error + table V :=
  if (num_columns keys =? 0)%nat || (num_rows keys =? 0)%nat
     || negb (has_nulls keys)
  then inr (copy input)
  else if (num_rows keys <=? num_rows input)%nat
       then inr (copy_if input (filter_call (create keys drop)))
       else inl (logic_error "Column size mismatch").

(** ** Notions the properties are stated with *)

(** The elements of a column, [None] at a null row. *)
Definition column_elements (c : gdf_column V) : list (option V) :=
  match valid c with
  | None => map Some (data c)
  | Some m => map (fun '(x, b) => if b : bool then Some x else None)
                  (combine (data c) m)
  end.

(** Row [i] of a table: the element of every column at that row. *)
Definition table_row (t : table V) (i : nat) : list (option V) :=
  map (fun c => nth i (column_elements c) None) t.

Definition table_rows (t : table V) : list (list (option V)) :=
  map (table_row t) (seq 0 (num_rows t)).

(** A key column is null at row [i]: it has a mask and the bit is unset. *)
Definition null_at (i : nat) (c : gdf_column V) : bool :=
  match valid c with
  | Some m => negb (nth i m false)
  | None => false
  end.

(** The rows the specification's sentence drops: under ALL those where
    every key column is null, under ANY those where some key column is. *)
Definition dropped_by_policy (drop : any_or_all) (keys : table V) (i : nat) : bool :=
  match drop with
  | ALL => forallb (null_at i) keys
  | ANY => existsb (null_at i) keys
  end.

(** The rows [drop_nulls] drops. *)
Definition dropped (drop : any_or_all) (keys : table V) (i : nat) : bool :=
  match drop with
  | ALL => negb (num_columns keys =? 0)%nat && forallb (null_at i) keys
  | ANY => existsb (null_at i) keys
  end.

(** The key columns that have a mask. *)
Definition has_mask (c : gdf_column V) : bool :=
  match valid c with Some _ => true | None => false end.

(** A well-formed column: buffers of [size] elements, a null count that
    counts the unset bits. *)
Definition column_wf (c : gdf_column V) : Prop :=
  length (data c) = size c /\
  match valid c with
  | Some m => length m = size c /\ null_count c = count_unset_bits (size c) m
  | None => True
  end.

(** A well-formed table: well-formed columns of one size. *)
Definition table_wf (t : table V) : Prop :=
  Forall (fun c => column_wf c /\ size c = num_rows t) t.
End Filter.

(** ** Example tables *)

(** A target of two columns and three rows. *)
Definition example_target : table Z :=
  [ {| data := [10; 20; 30]%Z; valid := None; size := 3; null_count := 0 |};
    {| data := [1; 2; 3]%Z; valid := Some [true; false; true];
       size := 3; null_count := 1 |} ].

(** Three key columns; row 1 is null in the first, the second has no mask,
    the third has no null. *)
Definition example_maskless_key : gdf_column Z :=
  {| data := [7; 8; 9]%Z; valid := None; size := 3; null_count := 0 |}.

Definition example_keys : table Z :=
  [ {| data := [0; 0; 0]%Z; valid := Some [true; false; true];
       size := 3; null_count := 1 |};
    example_maskless_key;
    {| data := [5; 5; 5]%Z; valid := Some [true; true; true];
       size := 3; null_count := 0 |} ].

(** A target of one column and one row. *)
Definition example_single_row : table Z :=
  [ {| data := [7]%Z; valid := None; size := 1; null_count := 0 |} ].

(** The key table without columns. *)
Definition example_no_keys : table Z := [].

(** A key table of two rows without nulls. *)
Definition example_two_key_rows : table Z :=
  [ {| data := [1; 2]%Z; valid := None; size := 2; null_count := 0 |} ].

End DropNulls.

(** * String to integer and integer to string (src/unnamed/part_001, second file) *)

Module Convert.

Local Open Scope string_scope.
Local Open Scope Z_scope.

(** Modelled from the spec: the type tags of a column at the time of this
    file (cudf/types.hpp, missing from src/): signed integers, floating
    point, boolean, one timestamp and strings. *)
Inductive type_id : Type :=
| INT8 | INT16 | INT32 | INT64
| FLOAT32 | FLOAT64
| BOOL8
| TIMESTAMP_DAYS
| STRING.

(** The width of the C++ type the dispatcher maps a tag to when
    [std::is_integral] holds of it; the boolean and timestamp tags map to
    wrapper classes, which are not integral. *)
Definition integral_bits (t : type_id) : option Z :=
  match t with
  | INT8 => Some 8
  | INT16 => Some 16
  | INT32 => Some 32
  | INT64 => Some 64
  | _ => None
  end.

(** The value a signed integer type of [bits] bits keeps of [z]: the two's
    complement reduction.  Where C++ leaves a signed overflow undefined (the
    negation of the minimum of [int32_t] and [int64_t] in the two functors of
    [from_integers], the overflow of [int64_t] in [string_to_integer]), the
    reduction is one of the results a build may give, and not the only
    one. *)
Definition wrap (bits : Z) (z : Z) : Z :=
  (z + 2 ^ (bits - 1)) mod 2 ^ bits - 2 ^ (bits - 1).

Definition int_min (bits : Z) : Z := - 2 ^ (bits - 1).
Definition int_max (bits : Z) : Z := 2 ^ (bits - 1) - 1.

(** A fixed-width column: its type tag, elements, optional validity bits
    and stored null count. *)
Record column : Type := {
  type : type_id;
  data : list Z;
  null_mask : option (list bool);
  null_count : nat
}.

Definition size (c : column) : nat := length (data c).

Definition nullable (c : column) : bool :=
  match null_mask c with Some _ => true | None => false end.

(** [column_device_view::is_null] *)
Definition is_null (mask : option (list bool)) (idx : nat) : bool :=
  match mask with
  | Some m => negb (nth idx m false)
  | None => false
  end.

Definition element (c : column) (idx : nat) : Z := nth idx (data c) 0.

(** A strings column: the offsets child ([strings_count + 1] byte
    boundaries), the chars child (the shared byte buffer), the validity bits
    and the null count.  The empty strings column has no children. *)
Record strings_column : Type := {
  strings_count : nat;
  offsets : list nat;
  chars : list ascii;
  strings_null_mask : option (list bool);
  strings_null_count : nat
}.

(** ** string_to_integer *)

(** A [string_view]: the address [data()] of its first byte and
    [size_bytes()]. *)
Record string_view : Type := {
  sv_data : nat;
  sv_size_bytes : nat
}.

(** The value of a [char] ([char] is signed on the targets of the
    library). *)
Definition char_value (chr : ascii) : Z :=
  let c := Z.of_nat (nat_of_ascii chr) in
  if 128 <=? c then c - 256 else c.

Definition char_eqb (a b : ascii) : bool := Ascii.eqb a b.

Section Memory.
(** Device memory: the byte at every address. *)
Variable mem : nat -> ascii.

(** The [for] loop of [string_to_integer] with [fuel] iterations left:
    the final [value] and the addresses it dereferenced. *)
Fixpoint parse_digits (fuel : nat) (ptr : nat) (value : Z) : Z * list nat :=
  match fuel with
  | O => (value, [])
  | S fuel' =>
      let chr := mem ptr in
      if (char_value chr <? char_value "0") || (char_value chr >? char_value "9")
      then (value, [ptr])
      else
        let value := wrap 64 (value * 10 + (char_value chr - char_value "0")) in
        let (result, reads) := parse_digits fuel' (S ptr) value in
        (result, ptr :: reads)
  end.

(** [string_to_integer]: the [int64_t] it returns and the addresses it
    dereferenced, in order.  The loop runs while [idx < bytes]. *)
Definition string_to_integer_reads (d_str : string_view) : Z * list nat :=
  let bytes := Z.of_nat (sv_size_bytes d_str) in
  let ptr := sv_data d_str in
  let first := mem ptr in
  if char_eqb first "-" || char_eqb first "+" then
    let sign := if char_eqb first "-" then -1 else 1 in
    let (value, reads) := parse_digits (Z.to_nat (bytes - 1)) (S ptr) 0 in
    (wrap 64 (value * sign), ptr :: reads)
  else
    let (value, reads) := parse_digits (Z.to_nat bytes) ptr 0 in
    (wrap 64 (value * 1), ptr :: reads).

Definition string_to_integer (d_str : string_view) : Z :=
  fst (string_to_integer_reads d_str).
End Memory.

(** ** to_integers *)

Section ToIntegers.
(** The bytes of device memory that follow the chars buffer. *)
Variable beyond : nat -> ascii.

Definition chars_memory (d_chars : list ascii) (p : nat) : ascii :=
  match nth_error d_chars p with
  | Some chr => chr
  | None => beyond p
  end.

(** Modelled from the spec: [column_device_view::element<string_view>]:
    "element i occupies byte_buffer[offsets[i]:offsets[i+1]]". *)
Definition string_element (strings : strings_column) (idx : nat) : string_view :=
  let offset := nth idx (offsets strings) O in
  {| sv_data := offset;
     sv_size_bytes := (nth (S idx) (offsets strings) O - offset)%nat |}.

Definition to_integers (strings : strings_column) : column :=
  let strings_count := strings_count strings in
  if (strings_count =? 0)%nat then
    {| type := INT32; data := []; null_mask := None; null_count := 0 |}
  else
    {| type := INT32;
       data :=
         map (fun idx =>
                if is_null (strings_null_mask strings) idx then 0
                else wrap 32 (string_to_integer (chars_memory (chars strings))
                                                (string_element strings idx)))
             (seq 0 strings_count);
       null_mask := strings_null_mask strings;
       null_count := strings_null_count strings |}.
End ToIntegers.

(** ** from_integers *)

Definition base : Z := 10.

(** The digits a 64-bit value can have bound the iterations of the digit
    loops. *)
Definition digit_fuel : nat := 20.

Section FromIntegers.
(** [IntegerType], by its width. *)
Variable bits : Z.

(** The [while (value > 0)] loop of [integer_to_string_size_fn]. *)
Fixpoint count_digits (fuel : nat) (value : Z) (digits : nat) : nat :=
  match fuel with
  | O => digits
  | S fuel' =>
      if value >? 0
      then count_digits fuel' (wrap bits (Z.quot value base)) (S digits)
      else digits
  end.

(** [integer_to_string_size_fn<IntegerType>::operator()].  [value = -value]
    is the reduction of the negated value; it differs from the negated value
    at the minimum of the type only. *)
Definition integer_to_string_size_fn (d_column : column) (idx : nat) : nat :=
  if is_null (null_mask d_column) idx then O
  else
    let value := element d_column idx in
    if value =? 0 then 1%nat
    else
      let sign := value <? 0 in
      let value := if sign then wrap bits (- value) else value in
      let digits := if sign then 1%nat else O in
      count_digits digit_fuel value digits.

(** [*p = c]; a write past the buffer is not modelled. *)
Fixpoint store (buffer : list ascii) (p : nat) (c : ascii) : list ascii :=
  match buffer, p with
  | [], _ => []
  | _ :: rest, O => c :: rest
  | x :: rest, S p' => x :: store rest p' c
  end.

(** ['0' + d] *)
Definition digit_char (d : Z) : ascii := ascii_of_nat (48 + Z.to_nat d).

(** The [while (value > 0)] loop of [integer_to_string_fn]: the buffer
    and [ptr] after it. *)
Fixpoint write_digits (fuel : nat) (d_chars : list ascii) (ptr : nat) (value : Z)
  : list ascii * nat :=
  match fuel with
  | O => (d_chars, ptr)
  | S fuel' =>
      if value >? 0
      then write_digits fuel' (store d_chars ptr (digit_char (Z.rem value base)))
                        (S ptr) (wrap bits (Z.quot value base))
      else (d_chars, ptr)
  end.

(** One iteration of the reversal loop: the bytes at [i] and [j] change
    places. *)
Definition swap (d_chars : list ascii) (i j : nat) : list ascii :=
  let ch1 := nth i d_chars zero in
  let ch2 := nth j d_chars zero in
  store (store d_chars i ch2) j ch1.

(** [integer_to_string_fn<IntegerType>::operator()]: the chars buffer
    after the call at [idx]. *)
Definition integer_to_string_fn (d_column : column) (d_offsets : list nat)
           (d_chars : list ascii) (idx : nat) : list ascii :=
  if is_null (null_mask d_column) idx then d_chars
  else
    let value := element d_column idx in
    let d_buffer := nth idx d_offsets O in
    if value =? 0 then store d_chars d_buffer "0"%char
    else
      let sign := value <? 0 in
      let value := if sign then wrap bits (- value) else value in
      let (d_chars, ptr) := write_digits digit_fuel d_chars d_buffer value in
      let (d_chars, ptr) :=
        if sign then (store d_chars ptr "-"%char, S ptr) else (d_chars, ptr) in
      let length := (ptr - d_buffer)%nat in
      fold_left (fun d_chars j =>
                   swap d_chars (d_buffer + j) (d_buffer + (length - j - 1)))%nat
                (seq 0 (length / 2)) d_chars.

(** Modelled from the spec: [detail::make_offsets_child_column] turns the
    per-element sizes into the offsets array, "N+1 monotonically
    non-decreasing integers" with [offsets[0] == 0], by a prefix sum. *)
Fixpoint offsets_from (start : nat) (sizes : list nat) : list nat :=
  match sizes with
  | [] => [start]
  | s :: rest => start :: offsets_from (start + s) rest
  end.

Definition make_offsets_child_column (sizes : list nat) : list nat :=
  offsets_from 0 sizes.

(** Content of the chars buffer when [create_chars_child_column] returns
    it. *)
Variable fresh_char : nat -> ascii.

(** [dispatch_from_integers_fn::operator()] at an integral type. *)
Definition dispatch_from_integers_fn (integers : column) : strings_column :=
  let strings_count := size integers in
  let d_new_offsets :=
    make_offsets_child_column
      (map (integer_to_string_size_fn integers) (seq 0 strings_count)) in
  let bytes := nth strings_count d_new_offsets O in
  let d_chars := map fresh_char (seq 0 bytes) in
  let d_chars :=
    fold_left (integer_to_string_fn integers d_new_offsets)
              (seq 0 strings_count) d_chars in
  {| strings_count := strings_count;
     offsets := d_new_offsets;
     chars := d_chars;
     strings_null_mask := null_mask integers;
     strings_null_count := null_count integers |}.
End FromIntegers.

(** [detail::make_empty_strings_column] *)
Definition make_empty_strings_column : strings_column :=
  {| strings_count := 0; offsets := []; chars := [];
     strings_null_mask := None; strings_null_count := 0 |}.

(** [cudf::strings::from_integers] *)
Definition from_integers (fresh_char : nat -> ascii) (integers : column)
  : cudf_error + strings_column :=
  if (size integers =? 0)%nat then inr make_empty_strings_column
  else
    match integral_bits (type integers) with
    | Some bits => inr (dispatch_from_integers_fn bits fresh_char integers)
    | None =>
        inl (logic_error "Values for from_integers function must be integral type.")
    end.

(** ** Notions the properties are stated with *)

(** The elements of a fixed-width column, [None] at a null row. *)
Definition column_elements (c : column) : list (option Z) :=
  map (fun idx => if is_null (null_mask c) idx then None else Some (element c idx))
      (seq 0 (size c)).

(** The bytes of element [idx] of a strings column:
    [chars[offsets[idx] : offsets[idx + 1]]]. *)
Definition element_bytes (strings : strings_column) (idx : nat) : list ascii :=
  let offset := nth idx (offsets strings) O in
  firstn (nth (S idx) (offsets strings) O - offset) (skipn offset (chars strings)).

(** The elements of a strings column, [None] at a null row. *)
Definition strings_elements (strings : strings_column) : list (option (list ascii)) :=
  map (fun idx => if is_null (strings_null_mask strings) idx then None
                  else Some (element_bytes strings idx))
      (seq 0 (strings_count strings)).

(** Every element of a strings column lies inside the chars buffer. *)
Definition strings_wf (strings : strings_column) : Prop :=
  forall idx, (idx < strings_count strings)%nat ->
    (nth idx (offsets strings) O <= nth (S idx) (offsets strings) O)%nat /\
    (nth (S idx) (offsets strings) O <= length (chars strings))%nat.

(** Address [a] lies in the byte range of the string. *)
Definition in_byte_range (d_str : string_view) (a : nat) : bool :=
  (sv_data d_str <=? a)%nat && (a <? sv_data d_str + sv_size_bytes d_str)%nat.

Definition is_digit (chr : ascii) : bool :=
  let c := Z.of_nat (nat_of_ascii chr) in (48 <=? c) && (c <=? 57).

(** The decimal value of the digits at the head of [s], continuing the
    value [acc]; the first byte that is not a digit, or the end, stops it. *)
Fixpoint digits_value (s : list ascii) (acc : Z) : Z :=
  match s with
  | [] => acc
  | chr :: rest =>
      if is_digit chr
      then digits_value rest (acc * 10 + (Z.of_nat (nat_of_ascii chr) - 48))
      else acc
  end.

(** The integer the specification reads in a string: "an optional leading
    +/- sign, then ... decimal digits until a non-digit or end-of-string is
    reached"; no digits give 0.  Unbounded. *)
Definition parse_decimal (s : list ascii) : Z :=
  match s with
  | chr :: rest =>
      if char_eqb chr "-" then - digits_value rest 0
      else if char_eqb chr "+" then digits_value rest 0
      else digits_value s 0
  | [] => 0
  end.

(** The digits of [value], least significant first, as the digit loops
    produce them. *)
Fixpoint digits_lsd (bits : Z) (fuel : nat) (value : Z) : list ascii :=
  match fuel with
  | O => []
  | S fuel' =>
      if value >? 0
      then digit_char (Z.rem value base)
           :: digits_lsd bits fuel' (wrap bits (Z.quot value base))
      else []
  end.

(** The bytes [integer_to_string_fn] leaves for [value] at an integer type
    of [bits] bits. *)
Definition decimal_bytes (bits : Z) (value : Z) : list ascii :=
  if value =? 0 then ["0"%char]
  else
    let sign := value <? 0 in
    let magnitude := if sign then wrap bits (- value) else value in
    rev (digits_lsd bits digit_fuel magnitude ++ (if sign then ["-"%char] else [])).

(** The bytes of row [idx] of the strings column made from [integers]:
    none for a null row. *)
Definition rendered (bits : Z) (integers : column) (idx : nat) : list ascii :=
  if is_null (null_mask integers) idx then []
  else decimal_bytes bits (element integers idx).

(** The rows of the strings column made from [integers], as byte lists. *)
Definition rendered_rows (bits : Z) (integers : column) : list (list ascii) :=
  map (rendered bits integers) (seq 0 (size integers)).

(** The strings of the example of the specification. *)
Definition example_strings : strings_column :=
  {| strings_count := 5;
     offsets := [0; 2; 5; 8; 13; 16]%nat;
     chars := list_ascii_of_string "42-42+4242abcabc";
     strings_null_mask := None;
     strings_null_count := 0 |}.

(** A 64-bit column whose only element is [2^31]. *)
Definition example_wide : column :=
  {| type := INT64; data := [2 ^ 31]; null_mask := None; null_count := 0 |}.

(** The column of section 8 of the specification, null at row 3. *)
Definition example_integers : column :=
  {| type := INT32;
     data := [0; -7; 123; 55; -100000];
     null_mask := Some [true; true; true; false; true];
     null_count := 1 |}.

(** Memory that holds the byte 0 everywhere. *)
Definition zero_memory : nat -> ascii := fun _ => zero.

(** ** Further notions *)

(** The byte range of row [idx] of a strings column holds address [p]. *)
Definition in_row (strings : strings_column) (idx p : nat) : bool :=
  (nth idx (offsets strings) O <=? p)%nat && (p <? nth (S idx) (offsets strings) O)%nat.

(** A floating-point column of two rows. *)
Definition example_floats : column :=
  {| type := FLOAT64; data := [1; 2]; null_mask := None; null_count := 0 |}.

(** A floating-point column without rows. *)
Definition example_no_floats : column :=
  {| type := FLOAT64; data := []; null_mask := None; null_count := 0 |}.

(** Memory that holds the bytes of "-17" from address 4 on. *)
Definition example_memory : nat -> ascii :=
  fun p => nth p (list_ascii_of_string "....-17.") zero.

Definition example_view : string_view := {| sv_data := 4; sv_size_bytes := 3 |}.

End Convert.

(** * Parquet writer options (src/java/.../ParquetWriterOptions.java) *)

Module ParquetWriterOptions.

(** [ParquetWriterOptions.StatisticsFrequency] *)
Inductive StatisticsFrequency : Type := NONE | ROWGROUP | PAGE.

Definition nativeId (s : StatisticsFrequency) : Z :=
  match s with
  | NONE => 0
  | ROWGROUP => 1
  | PAGE => 2
  end%Z.

Section Options.
(** The state of the inherited builder [CMWriterBuilder] and of the
    inherited options [CompressedMetadataWriterOptions]; the classes are
    missing from src/. *)
Variable Inherited : Type.

(** [ParquetWriterOptions.Builder]; [None] is a [null] array. *)
Record Builder : Type := {
  b_inherited : Inherited;
  b_statsGranularity : StatisticsFrequency;
  b_isTimestampTypeInt96 : bool;
  b_precisionValues : option (list Z)
}.

(** [ParquetWriterOptions] *)
Record Options : Type := {
  o_inherited : Inherited;
  statsGranularity : StatisticsFrequency;
  isTimestampTypeInt96 : bool;
  precisions : option (list Z)
}.

(** [ParquetWriterOptions.builder()], on the initial state of the inherited
    builder: the field initialisers of [Builder]. *)
Definition builder (inherited : Inherited) : Builder :=
  {| b_inherited := inherited;
     b_statsGranularity := ROWGROUP;
     b_isTimestampTypeInt96 := false;
     b_precisionValues := None |}.

Definition withStatisticsFrequency (b : Builder) (s : StatisticsFrequency) : Builder :=
  {| b_inherited := b_inherited b;
     b_statsGranularity := s;
     b_isTimestampTypeInt96 := b_isTimestampTypeInt96 b;
     b_precisionValues := b_precisionValues b |}.

Definition withTimestampInt96 (b : Builder) (int96 : bool) : Builder :=
  {| b_inherited := b_inherited b;
     b_statsGranularity := b_statsGranularity b;
     b_isTimestampTypeInt96 := int96;
     b_precisionValues := b_precisionValues b |}.

Definition withDecimalPrecisions (b : Builder) (precisionValues : option (list Z))
  : Builder :=
  {| b_inherited := b_inherited b;
     b_statsGranularity := b_statsGranularity b;
     b_isTimestampTypeInt96 := b_isTimestampTypeInt96 b;
     b_precisionValues := precisionValues |}.

(** A method of the inherited builder: it changes the inherited state
    only. *)
Definition inherited_call (b : Builder) (method : Inherited -> Inherited) : Builder :=
  {| b_inherited := method (b_inherited b);
     b_statsGranularity := b_statsGranularity b;
     b_isTimestampTypeInt96 := b_isTimestampTypeInt96 b;
     b_precisionValues := b_precisionValues b |}.

(** [Builder.build()], the private constructor of [ParquetWriterOptions]. *)
Definition build (b : Builder) : Options :=
  {| o_inherited := b_inherited b;
     statsGranularity := b_statsGranularity b;
     isTimestampTypeInt96 := b_isTimestampTypeInt96 b;
     precisions := b_precisionValues b |}.

Definition getStatisticsFrequency (o : Options) : StatisticsFrequency := statsGranularity o.
Definition getPrecisions (o : Options) : option (list Z) := precisions o.

(** A call in a chain of builder calls. *)
Inductive builder_call : Type :=
| call_withStatisticsFrequency (s : StatisticsFrequency)
| call_withTimestampInt96 (int96 : bool)
| call_withDecimalPrecisions (precisionValues : option (list Z))
| call_inherited (method : Inherited -> Inherited).

Definition call (b : Builder) (c : builder_call) : Builder :=
  match c with
  | call_withStatisticsFrequency s => withStatisticsFrequency b s
  | call_withTimestampInt96 int96 => withTimestampInt96 b int96
  | call_withDecimalPrecisions p => withDecimalPrecisions b p
  | call_inherited method => inherited_call b method
  end.

(** [builder().c1().c2()...build()] *)
Definition chain (inherited : Inherited) (calls : list builder_call) : Options :=
  build (fold_left call calls (builder inherited)).

Definition sets_statistics (c : builder_call) : bool :=
  match c with call_withStatisticsFrequency _ => true | _ => false end.
Definition sets_int96 (c : builder_call) : bool :=
  match c with call_withTimestampInt96 _ => true | _ => false end.
Definition sets_precisions (c : builder_call) : bool :=
  match c with call_withDecimalPrecisions _ => true | _ => false end.
End Options.

End ParquetWriterOptions.
(** * Properties *)

Unset Implicit Arguments.

(** ** Host computations and bitmasks *)

Lemma set_null_mask_length mask s e v :
  length (set_null_mask mask s e v) = length mask.
Proof.
  revert s e; induction mask as [|b rest IH]; intros s e; simpl; auto.
  destruct s, e; simpl; auto.
Qed.

(** Case analysis on the boolean comparisons of a goal, closed by [lia]. *)
Ltac cases_lia :=
  repeat match goal with
         | |- context [(?a <=? ?b)%nat] => destruct (Nat.leb_spec a b)
         | |- context [(?a <? ?b)%nat] => destruct (Nat.ltb_spec a b)
         | |- context [(?a =? ?b)%nat] => destruct (Nat.eqb_spec a b)
         end; simpl; try reflexivity; try lia.

Lemma set_null_mask_nth mask : forall s e v i d,
  nth i (set_null_mask mask s e v) d =
  if (s <=? i)%nat && (i <? e)%nat && (i <? length mask)%nat
  then v else nth i mask d.
Proof.
  induction mask as [|b rest IH]; intros s e v i d.
  - simpl. destruct i; rewrite andb_false_r; reflexivity.
  - destruct s, e, i; simpl set_null_mask; simpl nth; simpl length;
      try rewrite IH; cases_lia.
Qed.


Lemma bind_ret_l {A B} (a : A) (f : A -> host B) : bind (ret a) f = f a.
Proof. unfold bind, ret. destruct (f a) as [log r]. reflexivity. Qed.

Lemma outcome_bind {A B} (m : host A) (f : A -> host B) :
  outcome (bind m f) =
  match outcome m with
  | inl e => inl e
  | inr a => outcome (f a)
  end.
Proof.
  destruct m as [log [e|a]]; simpl; auto.
  destruct (f a) as [log' r]; reflexivity.
Qed.

Lemma device_work_bind {A B} (m : host A) (f : A -> host B) :
  device_work (bind m f) =
  match outcome m with
  | inl e => device_work m
  | inr a => device_work m ++ device_work (f a)
  end.
Proof.
  destruct m as [log [e|a]]; simpl; auto.
  destruct (f a) as [log' r]; reflexivity.
Qed.

Lemma outcome_launch_bind {B} ev (f : unit -> host B) :
  outcome (bind (launch ev) f) = outcome (f tt).
Proof. rewrite outcome_bind. reflexivity. Qed.

Lemma outcome_ret {A} (a : A) : outcome (ret a) = inr a.
Proof. reflexivity. Qed.

Lemma thrust_find_if_not_le {A} (pred : A -> bool) l :
  (Scan.thrust_find_if_not pred l <= length l)%nat.
Proof. induction l as [|x r IH]; simpl; [lia|]. destruct (pred x); simpl; lia. Qed.

(** What [find_if_not] returns: every element before the position passes
    the predicate, and the element at the position, when there is one,
    does not. *)
Lemma thrust_find_if_not_spec {A} (pred : A -> bool) l d :
  (forall j, (j < Scan.thrust_find_if_not pred l)%nat -> pred (nth j l d) = true) /\
  ((Scan.thrust_find_if_not pred l < length l)%nat ->
   pred (nth (Scan.thrust_find_if_not pred l) l d) = false).
Proof.
  induction l as [|x r [IH1 IH2]]; simpl.
  - split; intros; lia.
  - destruct (pred x) eqn:Hx.
    + split.
      * intros [|j] Hj; auto. apply IH1. lia.
      * intros Hlt. apply IH2. lia.
    + split; [intros; lia | auto].
Qed.

(** The position is the only one with that property. *)
Lemma thrust_find_if_not_unique {A} (pred : A -> bool) l d k :
  (k <= length l)%nat ->
  (forall j, (j < k)%nat -> pred (nth j l d) = true) ->
  ((k < length l)%nat -> pred (nth k l d) = false) ->
  Scan.thrust_find_if_not pred l = k.
Proof.
  intros Hk Hbefore Hat.
  destruct (thrust_find_if_not_spec pred l d) as [F1 F2].
  pose proof (thrust_find_if_not_le pred l) as Hle.
  destruct (Nat.lt_trichotomy (Scan.thrust_find_if_not pred l) k) as [Hlt|[Heq|Hgt]]; auto.
  - specialize (Hbefore _ Hlt). rewrite F2 in Hbefore by lia. discriminate.
  - specialize (F1 _ Hgt). rewrite Hat in F1 by lia. discriminate.
Qed.

Lemma nth_map_seq {A} (f : nat -> A) s n j d :
  (j < n)%nat -> nth j (map f (seq s n)) d = f (s + j)%nat.
Proof.
  intros Hj. rewrite (nth_indep _ d (f 0%nat)) by (rewrite length_map, length_seq; lia).
  rewrite map_nth. rewrite seq_nth by lia. reflexivity.
Qed.

Lemma count_unset_bits_none n mask :
  (forall i, (i < n)%nat -> (i < length mask)%nat -> nth i mask false = true) ->
  count_unset_bits n mask = 0%nat.
Proof.
  unfold count_unset_bits. revert n.
  induction mask as [|b rest IH]; intros n Hall.
  - destruct n; reflexivity.
  - destruct n as [|n]; [reflexivity|].
    pose proof (Hall 0%nat ltac:(lia) ltac:(simpl; lia)) as Hb. simpl in Hb.
    subst b. simpl.
    apply IH. intros i Hi Hlen. apply (Hall (S i)); simpl; lia.
Qed.

Lemma count_unset_bits_zero_valid n mask :
  count_unset_bits n mask = 0%nat ->
  forall i, (i < n)%nat -> (i < length mask)%nat -> nth i mask false = true.
Proof.
  unfold count_unset_bits. revert n.
  induction mask as [|b rest IH]; intros n Hz i Hi Hlen; simpl in Hlen; [lia|].
  destruct n as [|n]; [lia|]. simpl in Hz.
  destruct b; simpl in Hz; [|discriminate].
  destruct i as [|i]; [reflexivity|]. simpl. apply (IH n); auto; lia.
Qed.

(** A list is the gathering of its elements at the indices of its range. *)
Lemma map_nth_seq {A} (l : list A) d :
  map (fun j => nth j l d) (seq 0 (length l)) = l.
Proof.
  apply (nth_ext _ _ d d).
  - rewrite length_map, length_seq. reflexivity.
  - intros j Hj. rewrite length_map, length_seq in Hj.
    rewrite nth_map_seq by lia. reflexivity.
Qed.

(** ** Prefix scans *)

Module ScanProperties.
Import Scan.

Local Open Scope host_scope.
Local Open Scope string_scope.

Section IntegerOperators.
Local Open Scope Z_scope.

Lemma integer_limits_ordered T lo hi :
  integer_limits T = Some (lo, hi) -> lo <= 0 /\ 1 <= hi.
Proof. destruct T; simpl; intros H; inversion H; subst; lia. Qed.

Lemma wrap_into_range lo hi z : lo <= hi -> lo <= wrap_into (lo, hi) z <= hi.
Proof.
  intros H. unfold wrap_into.
  pose proof (Z.mod_pos_bound (z - lo) (hi - lo + 1) ltac:(lia)). lia.
Qed.

Lemma wrap_into_small lo hi z : lo <= z <= hi -> wrap_into (lo, hi) z = z.
Proof. intros H. unfold wrap_into. rewrite Z.mod_small by lia. lia. Qed.

Lemma total_invariant_identity Op T lo hi :
  integer_limits T = Some (lo, hi) ->
  total_invariant Op lo hi (integer_identity Op T).
Proof.
  intros HT. pose proof (integer_limits_ordered _ _ _ HT).
  unfold integer_identity. rewrite HT. destruct Op; simpl; lia.
Qed.

Lemma total_invariant_apply Op T lo hi acc x :
  integer_limits T = Some (lo, hi) ->
  total_invariant Op lo hi acc ->
  total_invariant Op lo hi (integer_apply Op T acc x).
Proof.
  intros HT Hacc. pose proof (integer_limits_ordered _ _ _ HT).
  unfold integer_apply. rewrite HT.
  destruct Op; simpl in *; try apply wrap_into_range; lia.
Qed.

(** The identity is a no-op on a running total. *)
Lemma integer_apply_identity Op T lo hi acc :
  integer_limits T = Some (lo, hi) ->
  total_invariant Op lo hi acc ->
  integer_apply Op T acc (integer_identity Op T) = acc.
Proof.
  intros HT Hacc. unfold integer_apply, integer_identity. rewrite HT.
  destruct Op; simpl in *.
  - rewrite Z.add_0_r. apply wrap_into_small; lia.
  - lia.
  - lia.
  - rewrite Z.mul_1_r. apply wrap_into_small; lia.
Qed.

Lemma fold_skips_replaced_nulls Op T lo hi (valid : nat -> bool) rows :
  integer_limits T = Some (lo, hi) ->
  forall acc,
    total_invariant Op lo hi acc ->
    fold_left (integer_apply Op T)
              (map (fun '(i, x) => if valid i then x else integer_identity Op T) rows)
              acc =
    fold_left (integer_apply Op T)
              (map snd (filter (fun p : nat * Z => valid (fst p)) rows)) acc.
Proof.
  intros HT. induction rows as [|[i x] rows IH]; intros acc Hacc; simpl; [reflexivity|].
  destruct (valid i); simpl.
  - apply IH. eapply total_invariant_apply; eauto.
  - rewrite (@integer_apply_identity Op T lo hi acc HT Hacc). apply IH; assumption.
Qed.
End IntegerOperators.

Section Generic.
Variable V : Type.
Variable identity : device_operator -> cpp_type -> V.
Variable apply : device_operator -> cpp_type -> V -> V -> V.
Variable fresh_value : nat -> V.
Variable fresh_bit : nat -> bool.
Variable make_strings_column : list V -> V -> column V.

Abbreviation scan := (scan identity apply fresh_value fresh_bit make_strings_column).
Abbreviation scan_dispatcher :=
  (scan_dispatcher identity apply fresh_value fresh_bit make_strings_column).
Abbreviation inclusive_scan_arithmetic :=
  (inclusive_scan_arithmetic identity apply fresh_value fresh_bit).
Abbreviation exclusive_scan_arithmetic :=
  (exclusive_scan_arithmetic identity apply fresh_value fresh_bit).

Lemma numeric_is_arithmetic t :
  is_numeric t = true -> is_arithmetic (dispatch_storage_type t) = true.
Proof. destruct t; simpl; congruence. Qed.

Lemma numeric_not_fixed_point t :
  is_numeric t = true -> is_fixed_point t = false.
Proof. destruct t; simpl; congruence. Qed.

(** On a numeric column a supported aggregation runs the arithmetic
    overloads of its operator, followed by the null count check. *)
Lemma scan_numeric input agg Op inclusive null_handling :
  is_numeric (cv_type input) = true ->
  scan_operator agg = Some Op ->
  scan input agg inclusive null_handling =
  (output <- match inclusive with
             | INCLUSIVE =>
                 inclusive_scan_arithmetic Op (dispatch_storage_type (cv_type input))
                                           input null_handling
             | EXCLUSIVE =>
                 exclusive_scan_arithmetic Op (dispatch_storage_type (cv_type input))
                                           input null_handling
             end ;;
   null_count_postcondition input null_handling output).
Proof.
  intros Hnum Hop. unfold scan.
  rewrite Hnum. simpl orb. unfold CUDF_EXPECTS. rewrite bind_ret_l.
  rewrite (numeric_not_fixed_point _ Hnum).
  pose proof (numeric_is_arithmetic _ Hnum) as Har.
  assert (Hd : forall O, Scan.scan_dispatcher identity apply fresh_value fresh_bit
                    make_strings_column O (dispatch_storage_type (cv_type input))
                    input inclusive null_handling =
               (output <- match inclusive with
                          | INCLUSIVE =>
                              inclusive_scan_arithmetic O (dispatch_storage_type (cv_type input))
                                                        input null_handling
                          | EXCLUSIVE =>
                              exclusive_scan_arithmetic O (dispatch_storage_type (cv_type input))
                                                        input null_handling
                          end ;;
                null_count_postcondition input null_handling output)).
  { intros O. unfold Scan.scan_dispatcher, is_supported, inclusive_scan, exclusive_scan.
    rewrite Har. reflexivity. }
  destruct agg; simpl in Hop; inversion Hop; subst; apply Hd.
Qed.

Lemma outcome_exclusive_scan_arithmetic Op T input null_handling :
  outcome (exclusive_scan_arithmetic Op T input null_handling) =
  inr {| c_type := cv_type input;
         c_data := thrust_exclusive_scan (apply Op T) (identity Op T)
                     (make_null_replacement_iterator input (identity Op T)
                                                     (cv_has_nulls input));
         c_null_mask := match null_handling with
                        | EXCLUDE => cv_null_mask input
                        | INCLUDE => None
                        end;
         c_null_count := match null_handling with
                         | EXCLUDE => cv_null_count input
                         | INCLUDE => 0%Z
                         end |}.
Proof.
  unfold Scan.exclusive_scan_arithmetic, allocate_like, copy_bitmask.
  destruct null_handling; [destruct (cv_null_mask input) eqn:Hm|];
    repeat (rewrite ?outcome_bind, ?outcome_launch_bind, ?outcome_ret; simpl);
    unfold column_write_data, column_set_null_mask; simpl; rewrite ?Hm; reflexivity.
Qed.

Lemma outcome_mask_inclusive_scan (input : column_view V) :
  outcome (mask_inclusive_scan fresh_bit input) = inr (first_null_mask fresh_bit input).
Proof.
  unfold mask_inclusive_scan, create_null_mask_uninitialized.
  repeat (rewrite ?outcome_bind, ?outcome_launch_bind, ?outcome_ret; simpl).
  reflexivity.
Qed.

Lemma outcome_inclusive_scan_arithmetic Op T input null_handling :
  outcome (inclusive_scan_arithmetic Op T input null_handling) =
  inr {| c_type := cv_type input;
         c_data := thrust_inclusive_scan (apply Op T)
                     (make_null_replacement_iterator input (identity Op T)
                                                     (cv_has_nulls input));
         c_null_mask := match null_handling with
                        | EXCLUDE => cv_null_mask input
                        | INCLUDE => if cv_nullable input
                                     then Some (first_null_mask fresh_bit input) else None
                        end;
         c_null_count := match null_handling with
                         | EXCLUDE => cv_null_count input
                         | INCLUDE => if cv_nullable input
                                      then UNKNOWN_NULL_COUNT else 0%Z
                         end |}.
Proof.
  unfold Scan.inclusive_scan_arithmetic, inclusive_scan_mask, allocate_like, copy_bitmask.
  unfold cv_nullable.
  destruct null_handling; destruct (cv_null_mask input) eqn:Hm;
    repeat (rewrite ?outcome_bind, ?outcome_launch_bind, ?outcome_ret,
              ?outcome_mask_inclusive_scan; simpl);
    unfold column_write_data, column_set_null_mask; simpl; rewrite ?Hm; reflexivity.
Qed.

Lemma length_make_null_replacement_iterator (input : column_view V) r h :
  length (make_null_replacement_iterator input r h) = cv_size input.
Proof.
  unfold make_null_replacement_iterator, cv_size.
  rewrite length_map, length_combine, length_seq. lia.
Qed.

Lemma length_inclusive_scan_from (op : V -> V -> V) l : forall acc,
  length (inclusive_scan_from op acc l) = length l.
Proof. induction l as [|x r IH]; intros acc; simpl; auto. Qed.

Lemma length_thrust_inclusive_scan (op : V -> V -> V) l :
  length (thrust_inclusive_scan op l) = length l.
Proof. destruct l; simpl; auto using length_inclusive_scan_from. Qed.

Lemma length_thrust_exclusive_scan (op : V -> V -> V) l : forall init,
  length (thrust_exclusive_scan op init l) = length l.
Proof. induction l as [|x r IH]; intros init; simpl; auto. Qed.

Lemma first_null_mask_length (input : column_view V) :
  length (first_null_mask fresh_bit input) = cv_size input.
Proof.
  unfold first_null_mask.
  rewrite !set_null_mask_length, length_map, length_seq. reflexivity.
Qed.

(** The bits of the mask built from the first null position [k]: valid
    below [k], null from [k] on. *)
Lemma first_null_mask_nth (input : column_view V) k i :
  (k <= cv_size input)%nat ->
  (forall j, (j < k)%nat -> cv_is_valid_nocheck input j = true) ->
  ((k < cv_size input)%nat -> cv_is_valid_nocheck input k = false) ->
  (i < cv_size input)%nat ->
  nth i (first_null_mask fresh_bit input) false = (i <? k)%nat.
Proof.
  intros Hk Hbefore Hat Hi. unfold first_null_mask.
  assert (Hfind : thrust_find_if_not (fun b : bool => b)
                    (make_validity_iterator input) = k).
  { unfold make_validity_iterator.
    apply thrust_find_if_not_unique with (d := false).
    - rewrite length_map, length_seq. exact Hk.
    - intros j Hj. rewrite nth_map_seq by lia. apply Hbefore; lia.
    - rewrite length_map, length_seq. intros Hlt.
      rewrite nth_map_seq by lia. apply Hat; lia. }
  rewrite Hfind. rewrite !set_null_mask_nth.
  rewrite !set_null_mask_length, length_map, length_seq.
  cases_lia.
Qed.

Lemma cv_null_count_nonneg (input : column_view V) : (0 <= cv_null_count input)%Z.
Proof. unfold cv_null_count. destruct (cv_null_mask input); lia. Qed.

(** The exclusive scan of a numeric column returns its output column:
    the null count check passes under both policies. *)
Lemma outcome_scan_exclusive input agg Op null_handling :
  is_numeric (cv_type input) = true ->
  scan_operator agg = Some Op ->
  outcome (scan input agg EXCLUSIVE null_handling) =
  outcome (exclusive_scan_arithmetic Op (dispatch_storage_type (cv_type input))
                                     input null_handling).
Proof.
  intros Hnum Hop.
  rewrite (@scan_numeric _ _ _ _ _ Hnum Hop), outcome_bind,
    outcome_exclusive_scan_arithmetic.
  unfold null_count_postcondition, column_null_count, UNKNOWN_NULL_COUNT.
  destruct null_handling; simpl; [|reflexivity].
  pose proof (cv_null_count_nonneg input).
  destruct (Z.leb_spec (cv_null_count input) (-1)); [lia|].
  rewrite Z.eqb_refl. reflexivity.
Qed.

(** The iterator the scans read is the input with its nulls replaced. *)
Lemma make_null_replacement_iterator_nulls_replaced (input : column_view V) r :
  column_view_wf input ->
  make_null_replacement_iterator input r (cv_has_nulls input) =
  nulls_replaced input r.
Proof.
  intros Hwf. unfold make_null_replacement_iterator, nulls_replaced, indexed_rows.
  apply map_ext_in. intros [i x] Hin.
  apply in_combine_l in Hin. apply in_seq in Hin.
  unfold cv_is_valid, cv_nullable, cv_is_valid_nocheck.
  unfold cv_has_nulls, cv_null_count, column_view_wf in *.
  destruct (cv_null_mask input) as [m|]; simpl.
  - destruct (Z.ltb_spec 0 (Z.of_nat (count_unset_bits (cv_size input) m)));
      [reflexivity|].
    rewrite (@count_unset_bits_zero_valid (cv_size input) m) by lia.
    reflexivity.
  - destruct (0 <? 0)%Z; reflexivity.
Qed.

(** C2: an inclusive scan of a numeric column under the INCLUDE policy
    marks as valid exactly the output rows before the first null [k] of
    the input ([k] is the row count when the input has no null): rows
    [[0, k)] are valid, rows [[k, N)] are null, and with [k = N] the
    output has no nulls. *)
Theorem inclusive_scan_include_nulls_from_first_null
        (input : column_view V) agg Op (k : nat) :
  is_numeric (cv_type input) = true ->
  scan_operator agg = Some Op ->
  (k <= cv_size input)%nat ->
  (forall j, (j < k)%nat -> cv_is_valid input j = true) ->
  ((k < cv_size input)%nat -> cv_is_valid input k = false) ->
  exists out,
    outcome (scan input agg INCLUSIVE INCLUDE) = inr out /\
    c_size out = cv_size input /\
    (forall i, (i < k)%nat -> column_is_valid out i = true) /\
    (forall i, (k <= i < cv_size input)%nat -> column_is_valid out i = false) /\
    (k = cv_size input -> column_null_count out = 0%Z).
Proof.
  intros Hnum Hop Hk Hbefore Hat.
  rewrite (@scan_numeric _ _ _ _ _ Hnum Hop), outcome_bind,
    outcome_inclusive_scan_arithmetic.
  eexists. split; [reflexivity|].
  unfold c_size, column_is_valid, column_null_count. simpl.
  rewrite length_thrust_inclusive_scan, length_make_null_replacement_iterator.
  split; [reflexivity|].
  unfold cv_is_valid, cv_nullable in *.
  destruct (cv_null_mask input) as [m|] eqn:Hm; simpl in *.
  - assert (Hbit : forall i, (i < cv_size input)%nat ->
                     nth i (first_null_mask fresh_bit input) false = (i <? k)%nat).
    { intros i Hi. apply first_null_mask_nth; auto. }
    repeat split.
    + intros i Hi. rewrite Hbit by lia. apply Nat.ltb_lt; lia.
    + intros i Hi. rewrite Hbit by lia. apply Nat.ltb_ge; lia.
    + intros ->. rewrite count_unset_bits_none; [reflexivity|].
      intros i Hi _. unfold c_size in Hi. simpl in Hi.
      rewrite length_thrust_inclusive_scan,
        length_make_null_replacement_iterator in Hi.
      rewrite Hbit by lia. apply Nat.ltb_lt; lia.
  - repeat split; auto.
    intros i Hi. assert (k < cv_size input)%nat as Hlt by lia.
    specialize (Hat Hlt). discriminate.
Qed.

(** The strings overload of the inclusive scan returns the column the
    factory made, with the mask of the policy. *)
Lemma outcome_inclusive_scan_string Op T (input : column_view V) null_handling :
  outcome (inclusive_scan_string identity apply fresh_bit make_strings_column
                                 Op T input null_handling) =
  inr (let made :=
         make_strings_column
           (thrust_inclusive_scan (apply Op T)
              (make_null_replacement_iterator input (identity Op T)
                                              (cv_has_nulls input)))
           (identity Op string_view) in
       match null_handling with
       | EXCLUDE =>
           column_set_null_mask made (cv_null_mask input) (cv_null_count input)
       | INCLUDE =>
           if cv_nullable input
           then column_set_null_mask made (Some (first_null_mask fresh_bit input))
                                     UNKNOWN_NULL_COUNT
           else made
       end).
Proof.
  unfold inclusive_scan_string, inclusive_scan_mask, copy_bitmask, cv_nullable.
  destruct null_handling; destruct (cv_null_mask input) eqn:Hm;
    repeat (rewrite ?outcome_bind, ?outcome_launch_bind, ?outcome_ret,
              ?outcome_mask_inclusive_scan; simpl);
    rewrite ?Hm; reflexivity.
Qed.

Lemma null_count_postcondition_passes (input : column_view V) nh (out : column V) :
  (nh = EXCLUDE -> c_null_count out = cv_null_count input) ->
  null_count_postcondition input nh out = ret out.
Proof.
  intros Hc. unfold null_count_postcondition. destruct nh; [|reflexivity].
  unfold column_null_count, UNKNOWN_NULL_COUNT. rewrite (Hc eq_refl).
  pose proof (cv_null_count_nonneg input).
  destruct (Z.leb_spec (cv_null_count input) (-1)); [lia|].
  rewrite Z.eqb_refl. reflexivity.
Qed.






(** C8: a PRODUCT scan requested on a fixed-point column throws the
    [logic_error] "decimal32/64 cannot support product scan"; no device
    work was issued before the throw and no column is returned. *)
Theorem product_scan_on_fixed_point_fails
        (input : column_view V) inclusive null_handling :
  is_fixed_point (cv_type input) = true ->
  scan input PRODUCT inclusive null_handling =
  ([], inl (logic_error "decimal32/64 cannot support product scan")).
Proof.
  intros Hfp. unfold Scan.scan. rewrite Hfp, !orb_true_r. reflexivity.
Qed.
Lemma thrust_exclusive_scan_nth_error (op : V -> V -> V) l : forall init i,
  (i < length l)%nat ->
  nth_error (thrust_exclusive_scan op init l) i = Some (fold_left op (firstn i l) init).
Proof.
  induction l as [|x r IH]; intros init i Hi; simpl in Hi; [lia|].
  destruct i as [|i]; simpl; [reflexivity|]. apply IH. lia.
Qed.

(** C7: the exclusive scan of a numeric column returns, at row 0, the
    identity of the operator and, at row [i], the reduction by the operator
    of rows [0] to [i-1] of the input in which every null row was replaced
    by the identity.  At the integer element types the identities are Sum 0,
    Min the type's maximum, Max the type's minimum, Product 1, and the
    replaced rows are no-ops: the reduction is that of the valid rows
    alone. *)
Theorem exclusive_scan_running_reduction
        (input : column_view V) agg Op null_handling :
  column_view_wf input ->
  is_numeric (cv_type input) = true ->
  scan_operator agg = Some Op ->
  let T := dispatch_storage_type (cv_type input) in
  let e := identity Op T in
  (exists out,
     outcome (scan input agg EXCLUSIVE null_handling) = inr out /\
     c_size out = cv_size input /\
     ((0 < cv_size input)%nat -> nth_error (c_data out) 0 = Some e) /\
     (forall i, (i < cv_size input)%nat ->
        nth_error (c_data out) i =
        Some (fold_left (apply Op T) (firstn i (nulls_replaced input e)) e))) /\
  (forall (O : device_operator) (T' : cpp_type) (lo hi : Z),
     integer_limits T' = Some (lo, hi) ->
     integer_identity O T' =
       match O with
       | DeviceSum => 0 | DeviceMin => hi | DeviceMax => lo | DeviceProduct => 1
       end%Z /\
     forall (integers : column_view Z) i,
       fold_left (integer_apply O T')
                 (firstn i (nulls_replaced integers (integer_identity O T')))
                 (integer_identity O T') =
       fold_left (integer_apply O T') (valid_prefix integers i)
                 (integer_identity O T')).
Proof.
  intros Hwf Hnum Hop T e. subst T e. split.
  - rewrite (outcome_scan_exclusive input agg Op null_handling Hnum Hop),
      outcome_exclusive_scan_arithmetic.
    rewrite (make_null_replacement_iterator_nulls_replaced input _ Hwf).
    eexists. split; [reflexivity|].
    assert (Hlen : length (nulls_replaced input
                     (identity Op (dispatch_storage_type (cv_type input)))) =
                   cv_size input).
    { unfold nulls_replaced, indexed_rows, cv_size.
      rewrite length_map, length_combine, length_seq. lia. }
    unfold c_size. simpl c_data.
    rewrite length_thrust_exclusive_scan.
    split; [exact Hlen|]. split.
    + intros Hpos. rewrite thrust_exclusive_scan_nth_error by lia. reflexivity.
    + intros i Hi. apply thrust_exclusive_scan_nth_error. lia.
  - intros O T' lo hi HT. split.
    + unfold integer_identity. rewrite HT. reflexivity.
    + intros integers i. unfold nulls_replaced, valid_prefix.
      rewrite firstn_map.
      apply (fold_skips_replaced_nulls O T' lo hi (cv_is_valid integers) _ HT).
      apply total_invariant_identity; assumption.
Qed.
End Generic.


(** *** Instances *)

Abbreviation example_scan :=
  (Scan.scan integer_identity integer_apply zero_value unset_bit
             example_make_strings_column).

(** C2 at the example column, whose first null is at row 2. *)
Lemma inclusive_scan_include_nulls_from_first_null_witness :
  is_numeric (cv_type example_input) = true /\
  scan_operator SUM = Some DeviceSum /\
  (2 <= cv_size example_input)%nat /\
  exists out,
    outcome (example_scan example_input SUM INCLUSIVE INCLUDE) = inr out /\
    c_size out = cv_size example_input /\
    (forall i, (i < 2)%nat -> column_is_valid out i = true) /\
    (forall i, (2 <= i < cv_size example_input)%nat -> column_is_valid out i = false) /\
    (2%nat = cv_size example_input -> column_null_count out = 0%Z).
Proof.
  assert (Hk : (2 <= cv_size example_input)%nat) by (vm_compute; lia).
  assert (Hbefore : forall j, (j < 2)%nat -> cv_is_valid example_input j = true).
  { intros j Hj. destruct j as [|[|j]]; [reflexivity|reflexivity|lia]. }
  split; [reflexivity|]. split; [reflexivity|]. split; [exact Hk|].
  exact (inclusive_scan_include_nulls_from_first_null Z integer_identity integer_apply
           zero_value unset_bit example_make_strings_column example_input SUM DeviceSum 2
           eq_refl eq_refl Hk Hbefore (fun _ => eq_refl)).
Defined.


(** A member scan that loses the mask is reported: on the example column,
    which has a null, [scan_with] throws the mismatch after the device
    work of the member scan. *)
Lemma maskless_member_scan_is_reported :
  scan_with maskless_member_scan maskless_member_scan example_input MIN EXCLUSIVE
            EXCLUDE =
  ([ev_allocate 5],
   inl (logic_error "Input / output column null count mismatch")).
Proof. reflexivity. Qed.

(** C8 at the example decimal column. *)
Lemma product_scan_on_fixed_point_fails_witness :
  is_fixed_point (cv_type example_decimal_input) = true /\
  example_scan example_decimal_input PRODUCT INCLUSIVE EXCLUDE =
  ([], inl (logic_error "decimal32/64 cannot support product scan")).
Proof.
  split; [reflexivity|].
  exact (product_scan_on_fixed_point_fails Z integer_identity integer_apply
           zero_value unset_bit example_make_strings_column example_decimal_input
           INCLUSIVE EXCLUDE eq_refl).
Defined.

(** C7 at the exclusive SUM scan of the example column, with the integer
    operators. *)
Lemma exclusive_scan_running_reduction_witness :
  column_view_wf example_input /\
  is_numeric (cv_type example_input) = true /\
  scan_operator SUM = Some DeviceSum /\
  (exists out,
     outcome (example_scan example_input SUM EXCLUSIVE INCLUDE) = inr out /\
     c_size out = cv_size example_input /\
     ((0 < cv_size example_input)%nat ->
      nth_error (c_data out) 0 = Some (integer_identity DeviceSum int32_t)) /\
     (forall i, (i < cv_size example_input)%nat ->
        nth_error (c_data out) i =
        Some (fold_left (integer_apply DeviceSum int32_t)
                (firstn i (nulls_replaced example_input
                             (integer_identity DeviceSum int32_t)))
                (integer_identity DeviceSum int32_t)))) /\
  (forall (O : device_operator) (T' : cpp_type) (lo hi : Z),
     integer_limits T' = Some (lo, hi) ->
     integer_identity O T' =
       match O with
       | DeviceSum => 0 | DeviceMin => hi | DeviceMax => lo | DeviceProduct => 1
       end%Z /\
     forall (integers : column_view Z) i,
       fold_left (integer_apply O T')
                 (firstn i (nulls_replaced integers (integer_identity O T')))
                 (integer_identity O T') =
       fold_left (integer_apply O T') (valid_prefix integers i)
                 (integer_identity O T')).
Proof.
  split; [reflexivity|]. split; [reflexivity|]. split; [reflexivity|].
  exact (exclusive_scan_running_reduction Z integer_identity integer_apply
           zero_value unset_bit example_make_strings_column example_input SUM
           DeviceSum INCLUDE eq_refl eq_refl eq_refl).
Defined.

End ScanProperties.

(** ** Prefix scans: guards, values and masks *)

Module ScanExtras.
Import Scan ScanProperties.

Local Open Scope host_scope.
Local Open Scope string_scope.

Section Generic.
Variable V : Type.
Variable identity : device_operator -> cpp_type -> V.
Variable apply : device_operator -> cpp_type -> V -> V -> V.
Variable fresh_value : nat -> V.
Variable fresh_bit : nat -> bool.
Variable make_strings_column : list V -> V -> column V.

Abbreviation scan := (Scan.scan identity apply fresh_value fresh_bit make_strings_column).

Lemma scan_dispatcher_arithmetic_returns Op T (input : column_view V) inclusive nh :
  is_arithmetic T = true ->
  exists out,
    outcome (scan_dispatcher identity apply fresh_value fresh_bit make_strings_column
                             Op T input inclusive nh) = inr out.
Proof.
  intros Har. unfold scan_dispatcher, is_supported, inclusive_scan, exclusive_scan.
  rewrite Har. cbn [orb].
  destruct inclusive; rewrite outcome_bind.
  - rewrite outcome_inclusive_scan_arithmetic.
    rewrite null_count_postcondition_passes; [eexists; reflexivity|].
    intros ->. reflexivity.
  - rewrite outcome_exclusive_scan_arithmetic.
    rewrite null_count_postcondition_passes; [eexists; reflexivity|].
    intros ->. reflexivity.
Qed.

Lemma scan_dispatcher_string_returns Op (input : column_view V) nh :
  is_string_supported Op string_view = true ->
  exists out,
    outcome (scan_dispatcher identity apply fresh_value fresh_bit make_strings_column
                             Op string_view input INCLUSIVE nh) = inr out.
Proof.
  intros Hs. unfold scan_dispatcher, is_supported, inclusive_scan.
  rewrite Hs. change (is_arithmetic string_view) with false. cbn [orb].
  rewrite outcome_bind, outcome_inclusive_scan_string. cbv zeta.
  rewrite null_count_postcondition_passes; [eexists; reflexivity|].
  intros ->. reflexivity.
Qed.

(** The calls [scan] runs: a numeric column with one of the four
    aggregations, a decimal column with SUM, MIN or MAX, a strings column
    with an inclusive MIN or MAX. *)
Abbreviation runs input agg inclusive :=
  ((is_numeric (cv_type input) = true /\
    (agg = SUM \/ agg = MIN \/ agg = MAX \/ agg = PRODUCT)) \/
   (is_fixed_point (cv_type input) = true /\ (agg = SUM \/ agg = MIN \/ agg = MAX)) \/
   (cv_type input = STRING /\ inclusive = INCLUSIVE /\ (agg = MIN \/ agg = MAX))).

(** The messages of the exceptions [scan] throws. *)
Abbreviation scan_messages :=
  ["Unexpected non-numeric or non-string type.";
   "Unsupported aggregation operator for scan";
   "decimal32/64 cannot support product scan";
   "Non-arithmetic types not supported for `cudf::scan`";
   "String types supports only inclusive min/max for `cudf::scan`"].

Ltac scan_returns :=
  left; split;
  [ first [ apply scan_dispatcher_arithmetic_returns; reflexivity
          | apply scan_dispatcher_string_returns; reflexivity ]
  | intuition congruence ].

Ltac scan_throws :=
  right; split;
  [ eexists; split; [reflexivity | cbn [In]; intuition congruence]
  | intuition congruence ].

(** Every call of [scan] either returns a column, and is one of the calls
    that run, or throws one of the five messages with an empty device
    log. *)
Lemma scan_cases (input : column_view V) agg inclusive nh :
  ((exists out, outcome (scan input agg inclusive nh) = inr out) /\
   runs input agg inclusive) \/
  ((exists msg, scan input agg inclusive nh = ([], inl (logic_error msg)) /\
                In msg scan_messages) /\
   ~ runs input agg inclusive).
Proof.
  unfold Scan.scan.
  destruct (cv_type input) eqn:Ht;
    cbn [is_numeric is_compound is_fixed_point orb dispatch_storage_type];
    unfold CUDF_EXPECTS; rewrite ?bind_ret_l;
    destruct agg; destruct inclusive;
    first [ scan_returns | scan_throws ].
Qed.

(** X1: [scan] returns a column exactly on a numeric column with SUM, MIN,
    MAX or PRODUCT, on a decimal column with SUM, MIN or MAX, and on a
    strings column with an inclusive MIN or MAX, under either null
    policy. *)
Theorem scan_returns_iff (input : column_view V) agg inclusive null_handling :
  (exists out, outcome (scan input agg inclusive null_handling) = inr out) <->
  (is_numeric (cv_type input) = true /\
   (agg = SUM \/ agg = MIN \/ agg = MAX \/ agg = PRODUCT)) \/
  (is_fixed_point (cv_type input) = true /\ (agg = SUM \/ agg = MIN \/ agg = MAX)) \/
  (cv_type input = STRING /\ inclusive = INCLUSIVE /\ (agg = MIN \/ agg = MAX)).
Proof.
  destruct (scan_cases input agg inclusive null_handling)
    as [[Hret Hruns]|[[msg [Hthrow _]] Hnot]].
  - split; intros _; assumption.
  - split; [|intros Hruns; contradiction].
    intros [out Hout]. rewrite Hthrow in Hout. discriminate.
Qed.

(** X2: a call of [scan] that is not one of the supported combinations is
    turned away before any device work: it throws, with an empty device
    log, one of the five messages raised ahead of the allocations and
    kernels. *)
Theorem scan_precondition_failures_precede_device_work
        (input : column_view V) agg inclusive null_handling :
  ~ ((is_numeric (cv_type input) = true /\
      (agg = SUM \/ agg = MIN \/ agg = MAX \/ agg = PRODUCT)) \/
     (is_fixed_point (cv_type input) = true /\
      (agg = SUM \/ agg = MIN \/ agg = MAX)) \/
     (cv_type input = STRING /\ inclusive = INCLUSIVE /\
      (agg = MIN \/ agg = MAX))) ->
  exists msg,
    scan input agg inclusive null_handling = ([], inl (logic_error msg)) /\
    In msg ["Unexpected non-numeric or non-string type.";
            "Unsupported aggregation operator for scan";
            "decimal32/64 cannot support product scan";
            "Non-arithmetic types not supported for `cudf::scan`";
            "String types supports only inclusive min/max for `cudf::scan`"].
Proof.
  intros Hnot.
  destruct (scan_cases input agg inclusive null_handling)
    as [[_ Hruns]|[Hthrow _]].
  - contradiction.
  - exact Hthrow.
Qed.

Abbreviation inclusive_scan_arithmetic :=
  (inclusive_scan_arithmetic identity apply fresh_value fresh_bit).

(** The inclusive scan of a numeric column returns its output column. *)
Lemma outcome_scan_inclusive (input : column_view V) agg Op null_handling :
  is_numeric (cv_type input) = true ->
  scan_operator agg = Some Op ->
  outcome (scan input agg INCLUSIVE null_handling) =
  outcome (inclusive_scan_arithmetic Op (dispatch_storage_type (cv_type input))
                                     input null_handling).
Proof.
  intros Hnum Hop.
  rewrite (scan_numeric V identity apply fresh_value fresh_bit make_strings_column
             input agg Op INCLUSIVE null_handling Hnum Hop).
  rewrite outcome_bind, outcome_inclusive_scan_arithmetic.
  rewrite null_count_postcondition_passes; [reflexivity|].
  intros ->. reflexivity.
Qed.

Lemma inclusive_scan_from_nth_error (op : V -> V -> V) l : forall acc i,
  (i < length l)%nat ->
  nth_error (inclusive_scan_from op acc l) i = Some (fold_left op (firstn (S i) l) acc).
Proof.
  induction l as [|x r IH]; intros acc i Hi; simpl in Hi; [lia|].
  destruct i as [|i]; [reflexivity|].
  change (nth_error (inclusive_scan_from op (op acc x) r) i =
          Some (fold_left op (firstn (S i) r) (op acc x))).
  apply IH. lia.
Qed.

Lemma thrust_inclusive_scan_nth_error (op : V -> V -> V) l i :
  (i < length l)%nat ->
  nth_error (thrust_inclusive_scan op l) i = reduce_from_first op (firstn (S i) l).
Proof.
  destruct l as [|x r]; simpl length; intros Hi; [lia|].
  destruct i as [|i]; [reflexivity|].
  change (nth_error (inclusive_scan_from op x r) i =
          Some (fold_left op (firstn (S i) r) x)).
  apply inclusive_scan_from_nth_error. lia.
Qed.

Lemma length_nulls_replaced (input : column_view V) r :
  length (nulls_replaced input r) = cv_size input.
Proof.
  unfold nulls_replaced, indexed_rows, cv_size.
  rewrite length_map, length_combine, length_seq. lia.
Qed.

(** X3: the inclusive scan of a numeric column holds, at row [i], the
    reduction by the operator of rows [0] to [i] of the input in which
    every null row was replaced by the identity of the operator. *)
Theorem inclusive_scan_running_reduction
        (input : column_view V) agg Op null_handling :
  column_view_wf input ->
  is_numeric (cv_type input) = true ->
  scan_operator agg = Some Op ->
  let T := dispatch_storage_type (cv_type input) in
  exists out,
    outcome (scan input agg INCLUSIVE null_handling) = inr out /\
    c_size out = cv_size input /\
    forall i, (i < cv_size input)%nat ->
      nth_error (c_data out) i =
      reduce_from_first (apply Op T)
                        (firstn (S i) (nulls_replaced input (identity Op T))).
Proof.
  intros Hwf Hnum Hop T. subst T.
  rewrite (outcome_scan_inclusive input agg Op null_handling Hnum Hop),
    outcome_inclusive_scan_arithmetic.
  rewrite (make_null_replacement_iterator_nulls_replaced V input _ Hwf).
  eexists. split; [reflexivity|]. unfold c_size. simpl c_data.
  rewrite length_thrust_inclusive_scan, length_nulls_replaced.
  split; [reflexivity|].
  intros i Hi. apply thrust_inclusive_scan_nth_error.
  rewrite length_nulls_replaced. exact Hi.
Qed.

Lemma fold_left_snoc (op : V -> V -> V) l : forall acc i d,
  (i < length l)%nat ->
  fold_left op (firstn (S i) l) acc = op (fold_left op (firstn i l) acc) (nth i l d).
Proof.
  induction l as [|x r IH]; intros acc i d Hi; simpl in Hi; [lia|].
  destruct i as [|i]; [reflexivity|].
  change (fold_left op (firstn (S i) r) (op acc x) =
          op (fold_left op (firstn i r) (op acc x)) (nth i r d)).
  apply IH. lia.
Qed.

(** X4: when the identity of the operator is neutral on the left of the
    first row, every row of the inclusive scan is the row of the exclusive
    scan combined with the input row (nulls replaced by the identity):
    [inclusive[i] = op (exclusive[i], input[i])], under either policy. *)
Theorem inclusive_scan_extends_exclusive_scan
        (input : column_view V) agg Op null_handling :
  column_view_wf input ->
  is_numeric (cv_type input) = true ->
  scan_operator agg = Some Op ->
  let T := dispatch_storage_type (cv_type input) in
  (forall x, nth_error (nulls_replaced input (identity Op T)) 0 = Some x ->
             apply Op T (identity Op T) x = x) ->
  exists inclusive exclusive,
    outcome (scan input agg INCLUSIVE null_handling) = inr inclusive /\
    outcome (scan input agg EXCLUSIVE null_handling) = inr exclusive /\
    forall i, (i < cv_size input)%nat ->
      exists a b x,
        nth_error (c_data inclusive) i = Some a /\
        nth_error (c_data exclusive) i = Some b /\
        nth_error (nulls_replaced input (identity Op T)) i = Some x /\
        a = apply Op T b x.
Proof.
  intros Hwf Hnum Hop T Hneutral. subst T.
  rewrite (outcome_scan_inclusive input agg Op null_handling Hnum Hop),
    outcome_inclusive_scan_arithmetic.
  rewrite (outcome_scan_exclusive V identity apply fresh_value fresh_bit
             make_strings_column input agg Op null_handling Hnum Hop),
    outcome_exclusive_scan_arithmetic.
  rewrite (make_null_replacement_iterator_nulls_replaced V input _ Hwf).
  set (T := dispatch_storage_type (cv_type input)) in *.
  set (e := identity Op T) in *.
  set (l := nulls_replaced input e) in *.
  assert (Hlen : length l = cv_size input) by apply length_nulls_replaced.
  eexists. eexists. split; [reflexivity|]. split; [reflexivity|].
  intros i Hi. simpl c_data.
  destruct (nth_error l i) as [x|] eqn:Hx;
    [|apply nth_error_None in Hx; lia].
  exists (apply Op T (fold_left (apply Op T) (firstn i l) e) x),
         (fold_left (apply Op T) (firstn i l) e), x.
  split; [|split; [|split; reflexivity]].
  - rewrite thrust_inclusive_scan_nth_error by lia.
    destruct l as [|x0 r] eqn:Hl; [simpl in Hlen; lia|].
    change (reduce_from_first (apply Op T) (firstn (S i) (x0 :: r)))
      with (Some (fold_left (apply Op T) (firstn i r) x0)).
    f_equal.
    rewrite <- (Hneutral x0 eq_refl) at 1.
    change (fold_left (apply Op T) (firstn i r) (apply Op T e x0))
      with (fold_left (apply Op T) (firstn (S i) (x0 :: r)) e).
    rewrite (fold_left_snoc (apply Op T) (x0 :: r) e i x) by (simpl; simpl in Hlen; lia).
    f_equal. apply nth_error_nth. exact Hx.
  - apply thrust_exclusive_scan_nth_error. lia.
Qed.

(** X5: a numeric column scanned with one of the four aggregations is never
    turned away: under both scan types and both policies the call returns a
    column of the input's type and row count. *)
Theorem scan_preserves_type_and_size
        (input : column_view V) agg Op inclusive null_handling :
  is_numeric (cv_type input) = true ->
  scan_operator agg = Some Op ->
  exists out,
    outcome (scan input agg inclusive null_handling) = inr out /\
    c_type out = cv_type input /\
    c_size out = cv_size input.
Proof.
  intros Hnum Hop. destruct inclusive.
  - rewrite (outcome_scan_inclusive input agg Op null_handling Hnum Hop),
      outcome_inclusive_scan_arithmetic.
    eexists. split; [reflexivity|]. split; [reflexivity|].
    unfold c_size. simpl c_data.
    rewrite length_thrust_inclusive_scan.
    apply length_make_null_replacement_iterator.
  - rewrite (outcome_scan_exclusive V identity apply fresh_value fresh_bit
               make_strings_column input agg Op null_handling Hnum Hop),
      outcome_exclusive_scan_arithmetic.
    eexists. split; [reflexivity|]. split; [reflexivity|].
    unfold c_size. simpl c_data.
    rewrite length_thrust_exclusive_scan.
    apply length_make_null_replacement_iterator.
Qed.

(** X6: under the INCLUDE policy an exclusive scan returns a column
    without null mask, whatever nulls the input has: every output row is
    valid and the null count is 0. *)
Theorem exclusive_scan_include_has_no_nulls (input : column_view V) agg Op :
  is_numeric (cv_type input) = true ->
  scan_operator agg = Some Op ->
  exists out,
    outcome (scan input agg EXCLUSIVE INCLUDE) = inr out /\
    c_null_mask out = None /\
    column_null_count out = 0%Z /\
    forall i, column_is_valid out i = true.
Proof.
  intros Hnum Hop.
  rewrite (outcome_scan_exclusive V identity apply fresh_value fresh_bit
             make_strings_column input agg Op INCLUDE Hnum Hop),
    outcome_exclusive_scan_arithmetic.
  eexists. split; [reflexivity|]. repeat split.
Qed.
(** The bits of the mask of [mask_inclusive_scan]: valid below the
    position [find_if_not] returns, null from it on, whatever the mask
    held when it was allocated. *)
Lemma first_null_mask_bits (input : column_view V) i d :
  (i < cv_size input)%nat ->
  nth i (first_null_mask fresh_bit input) d =
  (i <? thrust_find_if_not (fun b : bool => b) (make_validity_iterator input))%nat.
Proof.
  intros Hi. unfold first_null_mask.
  pose proof (thrust_find_if_not_le (fun b : bool => b) (make_validity_iterator input))
    as Hle.
  unfold make_validity_iterator in Hle at 2. rewrite length_map, length_seq in Hle.
  rewrite !set_null_mask_nth, !set_null_mask_length, length_map, length_seq.
  cases_lia.
Qed.
End Generic.

Section UninitialisedMemory.
Variable V : Type.
Variable identity : device_operator -> cpp_type -> V.
Variable apply : device_operator -> cpp_type -> V -> V -> V.
Variable make_strings_column : list V -> V -> column V.
Variables fresh_value fresh_value' : nat -> V.
Variables fresh_bit fresh_bit' : nat -> bool.

Lemma first_null_mask_independent (input : column_view V) :
  first_null_mask fresh_bit input = first_null_mask fresh_bit' input.
Proof.
  apply (nth_ext _ _ false false).
  - rewrite !first_null_mask_length. reflexivity.
  - intros i Hi. rewrite first_null_mask_length in Hi.
    rewrite !first_null_mask_bits by exact Hi. reflexivity.
Qed.

(** X7: the column a numeric scan returns does not depend on what the
    freshly allocated data buffer and null mask held: every element and
    every mask bit of the output is written by the scan. *)
Theorem scan_ignores_uninitialised_memory
        (input : column_view V) agg Op inclusive null_handling :
  is_numeric (cv_type input) = true ->
  scan_operator agg = Some Op ->
  outcome (Scan.scan identity apply fresh_value fresh_bit make_strings_column
                     input agg inclusive null_handling) =
  outcome (Scan.scan identity apply fresh_value' fresh_bit' make_strings_column
                     input agg inclusive null_handling).
Proof.
  intros Hnum Hop. destruct inclusive.
  - rewrite !(outcome_scan_inclusive _ _ _ _ _ _ input agg Op null_handling Hnum Hop),
      !outcome_inclusive_scan_arithmetic.
    rewrite first_null_mask_independent. reflexivity.
  - rewrite !(outcome_scan_exclusive _ _ _ _ _ _ input agg Op null_handling Hnum Hop),
      !outcome_exclusive_scan_arithmetic.
    reflexivity.
Qed.
End UninitialisedMemory.


Lemma count_unset_bits_prefix_valid (mask : list bool) : forall n k,
  length mask = n -> (k <= n)%nat ->
  (forall i, (i < n)%nat -> nth i mask false = (i <? k)%nat) ->
  count_unset_bits n mask = (n - k)%nat.
Proof.
  unfold count_unset_bits.
  induction mask as [|b rest IH]; intros n k Hlen Hk Hbits; simpl in Hlen.
  - subst n. reflexivity.
  - destruct n as [|n]; [discriminate|].
    pose proof (Hbits 0%nat ltac:(lia)) as H0. simpl in H0. subst b.
    destruct k as [|k]; cbn [firstn Nat.ltb Nat.leb filter negb length].
    + rewrite (IH n 0%nat);
        [lia|lia|lia|intros i Hi; apply (Hbits (S i)); lia].
    + rewrite (IH n k); try lia.
      intros i Hi. apply (Hbits (S i)). lia.
Qed.

Section Masks.
Variable V : Type.
Variable identity : device_operator -> cpp_type -> V.
Variable apply : device_operator -> cpp_type -> V -> V -> V.
Variable fresh_value : nat -> V.
Variable fresh_bit : nat -> bool.
Variable make_strings_column : list V -> V -> column V.

Abbreviation scan' := (Scan.scan identity apply fresh_value fresh_bit make_strings_column).

Lemma find_if_not_first_null (input : column_view V) k :
  (k <= cv_size input)%nat ->
  (forall j, (j < k)%nat -> cv_is_valid_nocheck input j = true) ->
  ((k < cv_size input)%nat -> cv_is_valid_nocheck input k = false) ->
  thrust_find_if_not (fun b : bool => b) (make_validity_iterator input) = k.
Proof.
  intros Hk Hbefore Hat. unfold make_validity_iterator.
  apply thrust_find_if_not_unique with (d := false).
  - rewrite length_map, length_seq. exact Hk.
  - intros j Hj. rewrite nth_map_seq by lia. apply Hbefore; lia.
  - rewrite length_map, length_seq. intros Hlt.
    rewrite nth_map_seq by lia. apply Hat; lia.
Qed.

(** X8: under the INCLUDE policy the inclusive scan of a numeric column
    whose first null is at row [k] ([k] is the row count when there is no
    null) returns a column whose null count, left unknown by the scan and
    computed on demand, is the number of rows from [k] on. *)
Theorem inclusive_scan_include_null_count (input : column_view V) agg Op k :
  is_numeric (cv_type input) = true ->
  scan_operator agg = Some Op ->
  (k <= cv_size input)%nat ->
  (forall j, (j < k)%nat -> cv_is_valid input j = true) ->
  ((k < cv_size input)%nat -> cv_is_valid input k = false) ->
  exists out,
    outcome (scan' input agg INCLUSIVE INCLUDE) = inr out /\
    c_null_count out = (if cv_nullable input then UNKNOWN_NULL_COUNT else 0%Z) /\
    column_null_count out = Z.of_nat (cv_size input - k).
Proof.
  intros Hnum Hop Hk Hbefore Hat.
  rewrite (outcome_scan_inclusive V identity apply fresh_value fresh_bit
             make_strings_column input agg Op INCLUDE Hnum Hop),
    outcome_inclusive_scan_arithmetic.
  eexists. split; [reflexivity|]. split; [reflexivity|].
  unfold column_null_count, c_size. simpl.
  rewrite length_thrust_inclusive_scan, length_make_null_replacement_iterator.
  unfold cv_is_valid, cv_nullable in *.
  destruct (cv_null_mask input) as [m|] eqn:Hm; simpl in *.
  - rewrite (count_unset_bits_prefix_valid _ (cv_size input) k); [reflexivity| |exact Hk|].
    + apply first_null_mask_length.
    + intros i Hi. rewrite first_null_mask_bits by exact Hi.
      rewrite (find_if_not_first_null input k Hk); [reflexivity| |].
      * intros j Hj. unfold cv_is_valid_nocheck. rewrite Hm.
        specialize (Hbefore j Hj). unfold cv_is_valid_nocheck in Hbefore.
        rewrite Hm in Hbefore. exact Hbefore.
      * intros Hlt. specialize (Hat Hlt). unfold cv_is_valid_nocheck in *.
        rewrite Hm in *. exact Hat.
  - destruct (Nat.lt_ge_cases k (cv_size input)) as [Hlt|Hge].
    + specialize (Hat Hlt). discriminate.
    + replace (cv_size input - k)%nat with 0%nat by lia. reflexivity.
Qed.

(** X9: an inclusive MIN or MAX scan of a strings column returns the
    column the strings factory makes of the scanned views, with the null
    mask of the policy: under EXCLUDE the input's mask and null count,
    under INCLUDE, for a nullable input, the rows from the first null on
    are null. *)
Theorem inclusive_scan_strings_null_mask (input : column_view V) agg Op k :
  cv_type input = STRING ->
  scan_operator agg = Some Op ->
  Op = DeviceMin \/ Op = DeviceMax ->
  cv_nullable input = true ->
  (k <= cv_size input)%nat ->
  (forall j, (j < k)%nat -> cv_is_valid input j = true) ->
  ((k < cv_size input)%nat -> cv_is_valid input k = false) ->
  let made :=
    make_strings_column
      (thrust_inclusive_scan (apply Op string_view)
         (make_null_replacement_iterator input (identity Op string_view)
                                         (cv_has_nulls input)))
      (identity Op string_view) in
  (exists out,
     outcome (scan' input agg INCLUSIVE EXCLUDE) = inr out /\
     c_data out = c_data made /\
     c_null_mask out = cv_null_mask input /\
     column_null_count out = cv_null_count input) /\
  (exists out,
     outcome (scan' input agg INCLUSIVE INCLUDE) = inr out /\
     c_data out = c_data made /\
     forall i, (i < cv_size input)%nat -> column_is_valid out i = (i <? k)%nat).
Proof.
  intros Ht Hop HOp Hnullable Hk Hbefore Hat made.
  assert (Hscan : forall nh,
             outcome (scan' input agg INCLUSIVE nh) =
             outcome (inclusive_scan_string identity apply fresh_bit make_strings_column
                        Op string_view input nh)).
  { intros nh. unfold Scan.scan. rewrite Ht.
    change (is_numeric STRING || is_compound STRING || is_fixed_point STRING) with true.
    unfold CUDF_EXPECTS. rewrite bind_ret_l.
    change (is_fixed_point STRING) with false.
    change (dispatch_storage_type STRING) with string_view.
    assert (Hd : forall O, O = DeviceMin \/ O = DeviceMax ->
                   outcome (scan_dispatcher identity apply fresh_value fresh_bit
                              make_strings_column O string_view input INCLUSIVE nh) =
                   outcome (inclusive_scan_string identity apply fresh_bit
                              make_strings_column O string_view input nh)).
    { intros O HO. unfold scan_dispatcher, inclusive_scan.
      change (is_arithmetic string_view) with false.
      assert (Hs : is_supported O string_view = true)
        by (destruct HO; subst O; reflexivity).
      rewrite Hs. cbv iota.
      rewrite outcome_bind, outcome_inclusive_scan_string. cbv zeta.
      rewrite null_count_postcondition_passes; [reflexivity|].
      intros ->. reflexivity. }
    destruct agg; simpl in Hop; inversion Hop; subst Op;
      destruct HOp as [HO|HO]; try discriminate HO; apply Hd; auto. }
  split.
  - rewrite Hscan, outcome_inclusive_scan_string. cbv zeta.
    eexists. split; [reflexivity|]. split; [reflexivity|]. split; [reflexivity|].
    unfold column_null_count, column_set_null_mask, UNKNOWN_NULL_COUNT. simpl.
    pose proof (cv_null_count_nonneg V input).
    destruct (Z.leb_spec (cv_null_count input) (-1)); [lia|]. reflexivity.
  - rewrite Hscan, outcome_inclusive_scan_string. cbv zeta.
    rewrite Hnullable.
    eexists. split; [reflexivity|]. split; [reflexivity|].
    intros i Hi. unfold column_is_valid, column_set_null_mask. simpl.
    rewrite first_null_mask_bits by exact Hi.
    unfold cv_is_valid in *. rewrite Hnullable in *. simpl in Hbefore, Hat.
    rewrite (find_if_not_first_null input k Hk Hbefore Hat). reflexivity.
Qed.
End Masks.

Section IntegerScans.
Variable fresh_value : nat -> Z.
Variable fresh_bit : nat -> bool.
Variable make_strings_column : list Z -> Z -> column Z.

Local Open Scope Z_scope.

(** The identity is neutral on the left of a value of the type. *)
Lemma integer_identity_apply Op T lo hi x :
  integer_limits T = Some (lo, hi) ->
  lo <= x <= hi ->
  integer_apply Op T (integer_identity Op T) x = x.
Proof.
  intros HT Hx. unfold integer_apply, integer_identity. rewrite HT.
  destruct Op; cbv beta iota.
  - rewrite Z.add_0_l. apply wrap_into_small; lia.
  - lia.
  - lia.
  - rewrite Z.mul_1_l. apply wrap_into_small; lia.
Qed.

Lemma integer_identity_in_range Op T lo hi :
  integer_limits T = Some (lo, hi) -> lo <= integer_identity Op T <= hi.
Proof.
  intros HT. pose proof (integer_limits_ordered _ _ _ HT).
  unfold integer_identity. rewrite HT. destruct Op; lia.
Qed.

(** X10: at an integer element type an inclusive scan skips the nulls: row
    [i] holds the reduction, from the identity of the operator, of the
    valid rows among rows [0] to [i], under either policy, provided the
    first row holds a value of the type. *)
Theorem inclusive_scan_skips_nulls
        (input : column_view Z) agg Op null_handling lo hi :
  column_view_wf input ->
  is_numeric (cv_type input) = true ->
  scan_operator agg = Some Op ->
  integer_limits (dispatch_storage_type (cv_type input)) = Some (lo, hi) ->
  (forall x, nth_error (cv_data input) 0 = Some x -> lo <= x <= hi) ->
  exists out,
    outcome (Scan.scan integer_identity integer_apply fresh_value fresh_bit
                       make_strings_column input agg INCLUSIVE null_handling)
      = inr out /\
    forall i, (i < cv_size input)%nat ->
      nth_error (c_data out) i =
      Some (fold_left (integer_apply Op (dispatch_storage_type (cv_type input)))
                      (valid_prefix input (S i))
                      (integer_identity Op (dispatch_storage_type (cv_type input)))).
Proof.
  intros Hwf Hnum Hop HT Hfirst.
  set (T := dispatch_storage_type (cv_type input)) in *.
  rewrite (outcome_scan_inclusive Z integer_identity integer_apply fresh_value
             fresh_bit make_strings_column input agg Op null_handling Hnum Hop),
    outcome_inclusive_scan_arithmetic.
  rewrite (make_null_replacement_iterator_nulls_replaced Z input _ Hwf).
  fold T. eexists. split; [reflexivity|]. intros i Hi. cbn [c_data].
  rewrite thrust_inclusive_scan_nth_error
    by (rewrite length_nulls_replaced; exact Hi).
  assert (Hskip : fold_left (integer_apply Op T)
                    (firstn (S i) (nulls_replaced input (integer_identity Op T)))
                    (integer_identity Op T) =
                  fold_left (integer_apply Op T) (valid_prefix input (S i))
                    (integer_identity Op T)).
  { unfold nulls_replaced, valid_prefix. rewrite firstn_map.
    apply (fold_skips_replaced_nulls Op T lo hi (cv_is_valid input) _ HT).
    apply total_invariant_identity; exact HT. }
  rewrite <- Hskip.
  assert (Hhead : forall x rest,
             nulls_replaced input (integer_identity Op T) = x :: rest ->
             lo <= x <= hi).
  { unfold nulls_replaced, indexed_rows, cv_size. intros x rest Hl.
    destruct (cv_data input) as [|d r] eqn:Hd; [discriminate|].
    cbn [length seq combine map] in Hl. inversion Hl.
    destruct (cv_is_valid input 0).
    - apply Hfirst. reflexivity.
    - apply integer_identity_in_range; exact HT. }
  destruct (nulls_replaced input (integer_identity Op T)) as [|x rest] eqn:Hl.
  - pose proof (length_nulls_replaced Z input (integer_identity Op T)) as Hlen.
    rewrite Hl in Hlen. simpl in Hlen. lia.
  - cbn [firstn reduce_from_first fold_left]. f_equal.
    rewrite (integer_identity_apply Op T lo hi x HT (Hhead x rest eq_refl)).
    reflexivity.
Qed.
End IntegerScans.

(** *** Instances *)

(** A PRODUCT scan of the example decimal column. *)
Lemma scan_precondition_failures_precede_device_work_witness :
  ~ ((is_numeric (cv_type example_decimal_input) = true /\
      (PRODUCT = SUM \/ PRODUCT = MIN \/ PRODUCT = MAX \/ PRODUCT = PRODUCT)) \/
     (is_fixed_point (cv_type example_decimal_input) = true /\
      (PRODUCT = SUM \/ PRODUCT = MIN \/ PRODUCT = MAX)) \/
     (cv_type example_decimal_input = STRING /\ INCLUSIVE = INCLUSIVE /\
      (PRODUCT = MIN \/ PRODUCT = MAX))) /\
  exists msg,
    example_scan example_decimal_input PRODUCT INCLUSIVE EXCLUDE =
      ([], inl (logic_error msg)) /\
    In msg ["Unexpected non-numeric or non-string type.";
            "Unsupported aggregation operator for scan";
            "decimal32/64 cannot support product scan";
            "Non-arithmetic types not supported for `cudf::scan`";
            "String types supports only inclusive min/max for `cudf::scan`"].
Proof.
  assert (Hnot :
    ~ ((is_numeric (cv_type example_decimal_input) = true /\
        (PRODUCT = SUM \/ PRODUCT = MIN \/ PRODUCT = MAX \/ PRODUCT = PRODUCT)) \/
       (is_fixed_point (cv_type example_decimal_input) = true /\
        (PRODUCT = SUM \/ PRODUCT = MIN \/ PRODUCT = MAX)) \/
       (cv_type example_decimal_input = STRING /\ INCLUSIVE = INCLUSIVE /\
        (PRODUCT = MIN \/ PRODUCT = MAX)))).
  { intros [[H _]|[[_ [H|[H|H]]]|[H _]]]; discriminate H. }
  split; [exact Hnot|].
  exact (scan_precondition_failures_precede_device_work Z integer_identity
           integer_apply zero_value unset_bit example_make_strings_column
           example_decimal_input PRODUCT INCLUSIVE EXCLUDE Hnot).
Defined.

(** The inclusive SUM scan of the example column, with the integer
    operators. *)
Lemma inclusive_scan_running_reduction_witness :
  column_view_wf example_input /\
  is_numeric (cv_type example_input) = true /\
  scan_operator SUM = Some DeviceSum /\
  exists out,
    outcome (example_scan example_input SUM INCLUSIVE EXCLUDE) = inr out /\
    c_size out = cv_size example_input /\
    forall i, (i < cv_size example_input)%nat ->
      nth_error (c_data out) i =
      reduce_from_first (integer_apply DeviceSum int32_t)
        (firstn (S i) (nulls_replaced example_input
                         (integer_identity DeviceSum int32_t))).
Proof.
  split; [reflexivity|]. split; [reflexivity|]. split; [reflexivity|].
  exact (inclusive_scan_running_reduction Z integer_identity integer_apply zero_value
           unset_bit example_make_strings_column example_input SUM DeviceSum EXCLUDE
           eq_refl eq_refl eq_refl).
Defined.

(** The inclusive and the exclusive MAX scans of the example column. *)
Lemma inclusive_scan_extends_exclusive_scan_witness :
  column_view_wf example_input /\
  is_numeric (cv_type example_input) = true /\
  scan_operator MAX = Some DeviceMax /\
  (forall x,
     nth_error (nulls_replaced example_input (integer_identity DeviceMax int32_t)) 0
       = Some x ->
     integer_apply DeviceMax int32_t (integer_identity DeviceMax int32_t) x = x) /\
  exists inclusive exclusive,
    outcome (example_scan example_input MAX INCLUSIVE INCLUDE) = inr inclusive /\
    outcome (example_scan example_input MAX EXCLUSIVE INCLUDE) = inr exclusive /\
    forall i, (i < cv_size example_input)%nat ->
      exists a b x,
        nth_error (c_data inclusive) i = Some a /\
        nth_error (c_data exclusive) i = Some b /\
        nth_error (nulls_replaced example_input (integer_identity DeviceMax int32_t)) i
          = Some x /\
        a = integer_apply DeviceMax int32_t b x.
Proof.
  assert (Hneutral : forall x,
     nth_error (nulls_replaced example_input (integer_identity DeviceMax int32_t)) 0
       = Some x ->
     integer_apply DeviceMax int32_t (integer_identity DeviceMax int32_t) x = x).
  { intros x Hx. vm_compute in Hx. inversion Hx. reflexivity. }
  split; [reflexivity|]. split; [reflexivity|]. split; [reflexivity|].
  split; [exact Hneutral|].
  exact (inclusive_scan_extends_exclusive_scan Z integer_identity integer_apply
           zero_value unset_bit example_make_strings_column example_input MAX
           DeviceMax INCLUDE eq_refl eq_refl eq_refl Hneutral).
Defined.

(** The exclusive MAX scan of the example column under EXCLUDE. *)
Lemma scan_preserves_type_and_size_witness :
  is_numeric (cv_type example_input) = true /\
  scan_operator MAX = Some DeviceMax /\
  exists out,
    outcome (example_scan example_input MAX EXCLUSIVE EXCLUDE) = inr out /\
    c_type out = cv_type example_input /\
    c_size out = cv_size example_input.
Proof.
  split; [reflexivity|]. split; [reflexivity|].
  exact (scan_preserves_type_and_size Z integer_identity integer_apply zero_value
           unset_bit example_make_strings_column example_input MAX DeviceMax
           EXCLUSIVE EXCLUDE eq_refl eq_refl).
Defined.

(** The exclusive SUM scan of the example column, which has a null. *)
Lemma exclusive_scan_include_has_no_nulls_witness :
  is_numeric (cv_type example_input) = true /\
  scan_operator SUM = Some DeviceSum /\
  exists out,
    outcome (example_scan example_input SUM EXCLUSIVE INCLUDE) = inr out /\
    c_null_mask out = None /\
    column_null_count out = 0%Z /\
    forall i, column_is_valid out i = true.
Proof.
  split; [reflexivity|]. split; [reflexivity|].
  exact (exclusive_scan_include_has_no_nulls Z integer_identity integer_apply
           zero_value unset_bit example_make_strings_column example_input SUM
           DeviceSum eq_refl eq_refl).
Defined.

(** The inclusive SUM scan of the example column on zeroed memory and on
    memory that holds other values. *)
Lemma scan_ignores_uninitialised_memory_witness :
  is_numeric (cv_type example_input) = true /\
  scan_operator SUM = Some DeviceSum /\
  outcome (Scan.scan integer_identity integer_apply zero_value unset_bit
                     example_make_strings_column example_input SUM INCLUSIVE INCLUDE) =
  outcome (Scan.scan integer_identity integer_apply other_value set_bit
                     example_make_strings_column example_input SUM INCLUSIVE INCLUDE).
Proof.
  split; [reflexivity|]. split; [reflexivity|].
  exact (scan_ignores_uninitialised_memory Z integer_identity integer_apply
           example_make_strings_column zero_value other_value unset_bit set_bit
           example_input SUM DeviceSum INCLUSIVE INCLUDE eq_refl eq_refl).
Defined.

(** The example column has five rows and its first null at row 2: the
    inclusive scan under INCLUDE has three nulls. *)
Lemma inclusive_scan_include_null_count_witness :
  is_numeric (cv_type example_input) = true /\
  scan_operator SUM = Some DeviceSum /\
  (2 <= cv_size example_input)%nat /\
  (forall j, (j < 2)%nat -> cv_is_valid example_input j = true) /\
  ((2 < cv_size example_input)%nat -> cv_is_valid example_input 2 = false) /\
  exists out,
    outcome (example_scan example_input SUM INCLUSIVE INCLUDE) = inr out /\
    c_null_count out =
      (if cv_nullable example_input then UNKNOWN_NULL_COUNT else 0%Z) /\
    column_null_count out = Z.of_nat (cv_size example_input - 2).
Proof.
  assert (Hk : (2 <= cv_size example_input)%nat) by (vm_compute; lia).
  assert (Hbefore : forall j, (j < 2)%nat -> cv_is_valid example_input j = true).
  { intros j Hj. destruct j as [|[|j]]; [reflexivity|reflexivity|lia]. }
  split; [reflexivity|]. split; [reflexivity|]. split; [exact Hk|].
  split; [exact Hbefore|]. split; [intros _; reflexivity|].
  exact (inclusive_scan_include_null_count Z integer_identity integer_apply
           zero_value unset_bit example_make_strings_column example_input SUM
           DeviceSum 2 eq_refl eq_refl Hk Hbefore (fun _ => eq_refl)).
Defined.

(** The inclusive MIN scan of the example strings column, whose first null
    is at row 1. *)
Lemma inclusive_scan_strings_null_mask_witness :
  cv_type example_strings_input = STRING /\
  scan_operator MIN = Some DeviceMin /\
  (DeviceMin = DeviceMin \/ DeviceMin = DeviceMax) /\
  cv_nullable example_strings_input = true /\
  (1 <= cv_size example_strings_input)%nat /\
  (forall j, (j < 1)%nat -> cv_is_valid example_strings_input j = true) /\
  ((1 < cv_size example_strings_input)%nat ->
   cv_is_valid example_strings_input 1 = false) /\
  (exists out,
     outcome (example_scan example_strings_input MIN INCLUSIVE EXCLUDE) = inr out /\
     c_data out =
       c_data (example_make_strings_column
                 (thrust_inclusive_scan (integer_apply DeviceMin string_view)
                    (make_null_replacement_iterator example_strings_input
                       (integer_identity DeviceMin string_view)
                       (cv_has_nulls example_strings_input)))
                 (integer_identity DeviceMin string_view)) /\
     c_null_mask out = cv_null_mask example_strings_input /\
     column_null_count out = cv_null_count example_strings_input) /\
  (exists out,
     outcome (example_scan example_strings_input MIN INCLUSIVE INCLUDE) = inr out /\
     c_data out =
       c_data (example_make_strings_column
                 (thrust_inclusive_scan (integer_apply DeviceMin string_view)
                    (make_null_replacement_iterator example_strings_input
                       (integer_identity DeviceMin string_view)
                       (cv_has_nulls example_strings_input)))
                 (integer_identity DeviceMin string_view)) /\
     forall i, (i < cv_size example_strings_input)%nat ->
               column_is_valid out i = (i <? 1)%nat).
Proof.
  assert (Hk : (1 <= cv_size example_strings_input)%nat) by (vm_compute; lia).
  assert (Hbefore : forall j, (j < 1)%nat -> cv_is_valid example_strings_input j = true).
  { intros j Hj. destruct j as [|j]; [reflexivity|lia]. }
  split; [reflexivity|]. split; [reflexivity|]. split; [left; reflexivity|].
  split; [reflexivity|]. split; [exact Hk|]. split; [exact Hbefore|].
  split; [intros _; reflexivity|].
  exact (inclusive_scan_strings_null_mask Z integer_identity integer_apply
           zero_value unset_bit example_make_strings_column example_strings_input MIN
           DeviceMin 1 eq_refl eq_refl (or_introl eq_refl) eq_refl Hk Hbefore
           (fun _ => eq_refl)).
Defined.

(** The inclusive SUM scan of the example column under EXCLUDE. *)
Lemma inclusive_scan_skips_nulls_witness :
  column_view_wf example_input /\
  is_numeric (cv_type example_input) = true /\
  scan_operator SUM = Some DeviceSum /\
  integer_limits (dispatch_storage_type (cv_type example_input)) =
    Some ((- 2 ^ 31)%Z, (2 ^ 31 - 1)%Z) /\
  (forall x, nth_error (cv_data example_input) 0 = Some x ->
             (- 2 ^ 31 <= x <= 2 ^ 31 - 1)%Z) /\
  exists out,
    outcome (example_scan example_input SUM INCLUSIVE EXCLUDE) = inr out /\
    forall i, (i < cv_size example_input)%nat ->
      nth_error (c_data out) i =
      Some (fold_left (integer_apply DeviceSum
                         (dispatch_storage_type (cv_type example_input)))
                      (valid_prefix example_input (S i))
                      (integer_identity DeviceSum
                         (dispatch_storage_type (cv_type example_input)))).
Proof.
  assert (Hfirst : forall x, nth_error (cv_data example_input) 0 = Some x ->
                             (- 2 ^ 31 <= x <= 2 ^ 31 - 1)%Z).
  { intros x Hx. vm_compute in Hx. inversion Hx. lia. }
  split; [reflexivity|]. split; [reflexivity|]. split; [reflexivity|].
  split; [reflexivity|]. split; [exact Hfirst|].
  exact (inclusive_scan_skips_nulls zero_value unset_bit example_make_strings_column
           example_input SUM DeviceSum EXCLUDE (- 2 ^ 31)%Z (2 ^ 31 - 1)%Z
           eq_refl eq_refl eq_refl eq_refl Hfirst).
Defined.

End ScanExtras.

(** ** Null-aware row filter *)

Module DropNullsProperties.
Import DropNulls.

Local Open Scope string_scope.

Section Compaction.
Variable A B : Type.

Lemma compact_map (f : A -> B) keep l : forall i,
  compact keep i (map f l) = map f (compact keep i l).
Proof.
  induction l as [|x r IH]; intros i; simpl; [reflexivity|].
  destruct (keep i); simpl; rewrite IH; reflexivity.
Qed.

Lemma compact_combine keep (l1 : list A) : forall (l2 : list B) i,
  compact keep i (combine l1 l2) = combine (compact keep i l1) (compact keep i l2).
Proof.
  induction l1 as [|x r IH]; intros [|y l2] i; simpl; try reflexivity.
  - rewrite combine_nil. reflexivity.
  - destruct (keep i); simpl; rewrite IH; reflexivity.
Qed.

Lemma compact_ext keep keep' (l : list A) : forall i,
  (forall j, (i <= j < i + length l)%nat -> keep j = keep' j) ->
  compact keep i l = compact keep' i l.
Proof.
  induction l as [|x r IH]; intros i Hext; simpl; [reflexivity|].
  rewrite <- (Hext i) by (simpl; lia).
  rewrite (IH (S i)) by (intros j Hj; apply Hext; simpl; lia).
  reflexivity.
Qed.

Lemma compact_all (l : list A) : forall i, compact (fun _ => true) i l = l.
Proof. induction l as [|x r IH]; intros i; simpl; [|rewrite IH]; reflexivity. Qed.

(** Compaction gathers the elements at the kept row indices. *)
Lemma compact_gather keep (l : list A) d : forall i,
  compact keep i l =
  map (fun j => nth (j - i) l d) (filter keep (seq i (length l))).
Proof.
  induction l as [|x r IH]; intros i; simpl; [reflexivity|].
  rewrite (IH (S i)).
  assert (Hshift : map (fun j => nth (j - S i) r d) (filter keep (seq (S i) (length r))) =
                   map (fun j => nth (j - i) (x :: r) d)
                       (filter keep (seq (S i) (length r)))).
  { apply map_ext_in. intros j Hj. apply filter_In in Hj. destruct Hj as [Hj _].
    apply in_seq in Hj. replace (j - i)%nat with (S (j - S i)) by lia. reflexivity. }
  destruct (keep i); simpl; rewrite Hshift; [rewrite Nat.sub_diag|]; reflexivity.
Qed.
End Compaction.

Section Properties.
Variable V : Type.

Lemma firstn_whole {A} (l : list A) n : length l = n -> firstn n l = l.
Proof. intros <-. apply firstn_all. Qed.

Lemma column_elements_length (c : gdf_column V) :
  column_wf c -> length (column_elements c) = size c.
Proof.
  unfold column_wf, column_elements. intros [Hd Hv].
  destruct (valid c) as [m|].
  - rewrite length_map, length_combine. lia.
  - rewrite length_map. exact Hd.
Qed.

Lemma column_elements_copy_if keep (c : gdf_column V) :
  column_wf c ->
  column_elements (copy_if_column keep (size c) c) =
  compact keep 0 (column_elements c).
Proof.
  unfold column_wf, column_elements, copy_if_column. intros [Hd Hv]. simpl.
  rewrite (firstn_whole _ _ Hd).
  destruct (valid c) as [m|]; simpl.
  - destruct Hv as [Hm _]. rewrite (firstn_whole _ _ Hm).
    rewrite compact_map, compact_combine. reflexivity.
  - rewrite compact_map. reflexivity.
Qed.

(** The rows of the compacted table are the compacted rows. *)
Lemma table_rows_copy_if (input : table V) keep :
  table_wf input ->
  table_rows (copy_if input keep) = compact keep 0 (table_rows input).
Proof.
  intros Hwf. unfold table_rows at 2.
  rewrite (compact_gather _ keep _ [] 0), length_map, length_seq.
  set (n := num_rows input). set (K := filter keep (seq 0 n)).
  assert (Hrows : num_rows (copy_if input keep) = length K \/ input = []).
  { destruct input as [|c t]; [right; reflexivity|left]. reflexivity. }
  destruct Hrows as [Hrows| ->]; [|reflexivity].
  unfold table_rows. rewrite Hrows.
  assert (HK : forall i, In i K -> (i < n)%nat).
  { intros i Hi. apply filter_In in Hi. destruct Hi as [Hi _].
    apply in_seq in Hi. lia. }
  rewrite <- (map_nth_seq K 0%nat) at 2. fold K.
  rewrite map_map. apply map_ext_in. intros j Hj. apply in_seq in Hj.
  assert (Hin : In (nth j K 0%nat) K) by (apply nth_In; lia).
  specialize (HK _ Hin).
  rewrite Nat.sub_0_r, nth_map_seq by lia. simpl.
  unfold table_row, copy_if. rewrite map_map.
  apply map_ext_in. intros c Hc.
  unfold table_wf in Hwf. rewrite Forall_forall in Hwf.
  destruct (Hwf c Hc) as [Hcwf Hsize]. fold n in Hsize.
  change (num_rows input) with n. rewrite <- Hsize.
  rewrite (column_elements_copy_if keep c Hcwf).
  rewrite (compact_gather _ keep _ None 0), (column_elements_length c Hcwf), Hsize.
  fold K.
  rewrite (nth_indep _ None (nth (0 - 0) (column_elements c) None))
    by (rewrite length_map; lia).
  rewrite (map_nth (fun j0 : nat => nth (j0 - 0) (column_elements c) None) K 0%nat j).
  rewrite Nat.sub_0_r. reflexivity.
Qed.

Lemma mask_valid_null_at i (c : gdf_column V) :
  mask_valid i (valid c) = negb (null_at i c).
Proof.
  unfold mask_valid, null_at, is_valid.
  destruct (valid c); [rewrite negb_involutive|]; reflexivity.
Qed.

Lemma existsb_negb_forallb {A} (p : A -> bool) l :
  existsb (fun x => negb (p x)) l = negb (forallb p l).
Proof.
  induction l as [|x r IH]; simpl; [reflexivity|].
  rewrite IH, negb_andb. reflexivity.
Qed.

Lemma forallb_negb_existsb {A} (p : A -> bool) l :
  forallb (fun x => negb (p x)) l = negb (existsb p l).
Proof.
  induction l as [|x r IH]; simpl; [reflexivity|].
  rewrite IH, negb_orb. reflexivity.
Qed.

Lemma existsb_map_ext {A B} (f : A -> B) (p : B -> bool) (q : A -> bool) l :
  (forall x, p (f x) = q x) -> existsb p (map f l) = existsb q l.
Proof.
  intros Hpq. induction l as [|x r IH]; simpl; [reflexivity|].
  rewrite Hpq, IH. reflexivity.
Qed.

Lemma forallb_map_ext {A B} (f : A -> B) (p : B -> bool) (q : A -> bool) l :
  (forall x, p (f x) = q x) -> forallb p (map f l) = forallb q l.
Proof.
  intros Hpq. induction l as [|x r IH]; simpl; [reflexivity|].
  rewrite Hpq, IH. reflexivity.
Qed.

(** What the filter built from the key table computes at row [i]. *)
Lemma filter_call_create (keys : table V) drop i :
  filter_call (create keys drop) i =
  match drop with
  | ALL => negb (forallb (null_at i) keys)
  | ANY => negb (existsb (null_at i) keys)
  end.
Proof.
  unfold filter_call, create, get_bitmasks, num_columns. simpl.
  rewrite <- (length_map (@valid V) keys), firstn_all.
  destruct drop.
  - rewrite <- forallb_negb_existsb.
    apply forallb_map_ext. intros c. apply mask_valid_null_at.
  - rewrite <- existsb_negb_forallb.
    apply existsb_map_ext. intros c. apply mask_valid_null_at.
Qed.

Lemma filter_call_dropped (keys : table V) drop i :
  keys <> [] ->
  filter_call (create keys drop) i = negb (dropped drop keys i).
Proof.
  intros Hne. rewrite filter_call_create. unfold dropped, num_columns.
  destruct drop; [reflexivity|].
  destruct keys as [|c t]; [contradiction|]. reflexivity.
Qed.

(** A column without nulls is null at none of its rows. *)
Lemma no_nulls_null_at (c : gdf_column V) i :
  column_wf c -> column_has_nulls c = false -> (i < size c)%nat ->
  null_at i c = false.
Proof.
  unfold column_wf, column_has_nulls, null_at. intros [_ Hv] Hnone Hi.
  destruct (valid c) as [m|]; [|reflexivity].
  destruct Hv as [Hlen Hcount].
  destruct (Nat.ltb_spec 0 (null_count c)); [discriminate|].
  rewrite (count_unset_bits_zero_valid (size c) m) by lia. reflexivity.
Qed.

Lemma no_nulls_nothing_dropped (keys : table V) drop i :
  table_wf keys -> has_nulls keys = false ->
  Forall (fun c => (i < size c)%nat) keys ->
  dropped drop keys i = false.
Proof.
  unfold has_nulls, table_wf. intros Hwf Hnone Hrows.
  rewrite Forall_forall in Hwf, Hrows.
  assert (Hall : forall c, In c keys -> null_at i c = false).
  { intros c Hc. apply no_nulls_null_at; auto.
    - apply Hwf; assumption.
    - destruct (column_has_nulls c) eqn:Hn; [|reflexivity].
      assert (existsb (@column_has_nulls V) keys = true) as Hex
          by (apply existsb_exists; eauto).
      congruence. }
  unfold dropped. destruct drop.
  - destruct (existsb (null_at i) keys) eqn:Hex; [|reflexivity].
    apply existsb_exists in Hex. destruct Hex as [c [Hc Hn]].
    rewrite (Hall c Hc) in Hn. discriminate.
  - destruct keys as [|c t]; [reflexivity|]. simpl.
    rewrite (Hall c) by (left; reflexivity). reflexivity.
Qed.

(** The rows [drop_nulls] returns, for key columns that have a row for
    every target row. *)
Lemma drop_nulls_rows (input keys out : table V) drop :
  table_wf input -> table_wf keys ->
  Forall (fun c => (num_rows input <= size c)%nat) keys ->
  drop_nulls input keys drop = inr out ->
  table_rows out =
  compact (fun i => negb (dropped drop keys i)) 0 (table_rows input).
Proof.
  intros Hwf Hkwf Hrows. unfold drop_nulls.
  assert (Hlen : length (table_rows input) = num_rows input)
    by (unfold table_rows; rewrite length_map, length_seq; reflexivity).
  assert (Hkeep_all :
            (forall i, (i < num_rows input)%nat -> dropped drop keys i = false) ->
            table_rows input =
            compact (fun i => negb (dropped drop keys i)) 0 (table_rows input)).
  { intros Hnone.
    rewrite (compact_ext _ _ (fun _ => true)), compact_all; [reflexivity|].
    intros j Hj. rewrite Hnone by lia. reflexivity. }
  destruct (Nat.eqb_spec (num_columns keys) 0) as [Hcols|Hcols]; simpl.
  { intros Hout. inversion Hout; subst out. apply Hkeep_all.
    intros i _. destruct keys; [|discriminate].
    destruct drop; reflexivity. }
  destruct (Nat.eqb_spec (num_rows keys) 0) as [Hzero|Hzero]; simpl.
  { intros Hout. inversion Hout; subst out. apply Hkeep_all.
    intros i Hi. exfalso.
    destruct keys as [|c t]; [contradiction Hcols; reflexivity|].
    inversion Hrows; subst. simpl in Hzero. lia. }
  destruct (has_nulls keys) eqn:Hnulls; simpl.
  - destruct (Nat.leb_spec (num_rows keys) (num_rows input)); [|discriminate].
    intros Hout. inversion Hout; subst out.
    rewrite (table_rows_copy_if input _ Hwf).
    apply compact_ext. intros j _. apply filter_call_dropped.
    intros ->. contradiction Hcols. reflexivity.
  - intros Hout. inversion Hout; subst out. apply Hkeep_all.
    intros i Hi. apply no_nulls_nothing_dropped; auto.
    eapply Forall_impl; [|exact Hrows]. simpl. intros c Hc. lia.
Qed.

(** C4, amended: for a target table and a key table that [drop_nulls]
    accepts, the key columns having a row for every target row, the result
    consists of exactly the rows that are not dropped, in their original
    order; under ALL a row is dropped if and only if the key table has a
    column and every key column is null at that row, and under ANY if and
    only if at least one key column is null at that row. *)
Theorem drop_nulls_keeps_rows_in_order (input keys out : table V) drop :
  table_wf input -> table_wf keys ->
  Forall (fun c => (num_rows input <= size c)%nat) keys ->
  drop_nulls input keys drop = inr out ->
  table_rows out =
    compact (fun i => negb (dropped drop keys i)) 0 (table_rows input) /\
  (forall i, dropped ALL keys i = true <->
             keys <> [] /\ forall c, In c keys -> null_at i c = true) /\
  (forall i, dropped ANY keys i = true <->
             exists c, In c keys /\ null_at i c = true).
Proof.
  intros Hwf Hkwf Hrows Hout. split; [|split].
  - apply drop_nulls_rows; assumption.
  - intros i. unfold dropped, num_columns. split.
    + intros H. apply andb_true_iff in H. destruct H as [Hne Hall].
      split.
      * intros ->. discriminate.
      * apply forallb_forall. exact Hall.
    + intros [Hne Hall]. apply andb_true_iff. split.
      * destruct keys; [contradiction|reflexivity].
      * apply forallb_forall. exact Hall.
  - intros i. unfold dropped. apply existsb_exists.
Qed.

(** C5, amended: a call to [drop_nulls] whose key table has nulls and more
    rows than the target table fails with the [logic_error] "Column size
    mismatch"; a key table without columns, without rows or without nulls
    returns a copy of the target whatever the row counts are, since the
    row counts are compared after that test. *)
Theorem drop_nulls_size_mismatch (input keys : table V) drop :
  (has_nulls keys = true ->
   (num_rows input < num_rows keys)%nat ->
   drop_nulls input keys drop = inl (logic_error "Column size mismatch")) /\
  (num_columns keys = 0%nat \/ num_rows keys = 0%nat \/ has_nulls keys = false ->
   drop_nulls input keys drop = inr (copy input)).
Proof.
  split.
  - intros Hnulls Hlt. unfold drop_nulls. rewrite Hnulls.
    destruct keys as [|c t]; [discriminate|].
    destruct (Nat.eqb_spec (num_rows (c :: t)) 0); [lia|].
    destruct (Nat.leb_spec (num_rows (c :: t)) (num_rows input)); [lia|].
    reflexivity.
  - intros Hguard. unfold drop_nulls.
    destruct Hguard as [Hc|[Hr|Hn]].
    + rewrite Hc. reflexivity.
    + rewrite Hr. rewrite orb_true_r. reflexivity.
    + rewrite Hn. rewrite orb_true_r. reflexivity.
Qed.

(** C9: the per-row predicate treats a key column without mask as valid
    at every row.  With such a column among the keys the ALL filter keeps
    every row and [drop_nulls] under ALL returns every row of the target;
    under ANY the filter decides as it does on the key columns that have
    a mask, and a row it drops has a key column whose mask bit is unset. *)
Theorem maskless_key_column_never_drops (input keys : table V) c :
  In c keys -> valid c = None -> table_wf input ->
  (forall i, mask_valid i (valid c) = true) /\
  (forall i, filter_call (create keys ALL) i = true) /\
  (forall out, drop_nulls input keys ALL = inr out ->
               table_rows out = table_rows input) /\
  (forall i, filter_call (create keys ANY) i =
             filter_call (create (filter (@has_mask V) keys) ANY) i) /\
  (forall i, filter_call (create keys ANY) i = false ->
             exists c' m, In c' keys /\ valid c' = Some m /\ nth i m false = false).
Proof.
  intros Hin Hnone Hwf.
  assert (Hall : forall i, filter_call (create keys ALL) i = true).
  { intros i. rewrite filter_call_create.
    destruct (forallb (null_at i) keys) eqn:Hf; [|reflexivity].
    rewrite forallb_forall in Hf. specialize (Hf c Hin).
    unfold null_at in Hf. rewrite Hnone in Hf. discriminate. }
  split; [|split; [|split; [|split]]].
  - intros i. rewrite Hnone. reflexivity.
  - exact Hall.
  - intros out. unfold drop_nulls.
    destruct ((num_columns keys =? 0)%nat || (num_rows keys =? 0)%nat
              || negb (has_nulls keys)).
    + intros Hout. inversion Hout; subst out. reflexivity.
    + destruct (num_rows keys <=? num_rows input)%nat; [|discriminate].
      intros Hout. inversion Hout; subst out.
      rewrite (table_rows_copy_if input _ Hwf).
      rewrite (compact_ext _ _ (fun _ => true)) by (intros j _; apply Hall).
      apply compact_all.
  - intros i. rewrite !filter_call_create. f_equal.
    clear. induction keys as [|k t IH]; simpl; [reflexivity|].
    unfold has_mask at 1. unfold null_at at 1.
    destruct (valid k) eqn:Hk; simpl.
    + unfold null_at at 2. rewrite Hk, IH. reflexivity.
    + exact IH.
  - intros i Hdrop. rewrite filter_call_create in Hdrop.
    apply negb_false_iff in Hdrop. apply existsb_exists in Hdrop.
    destruct Hdrop as [c' [Hc' Hn]]. unfold null_at in Hn.
    destruct (valid c') as [m|] eqn:Hm; [|discriminate].
    exists c', m. repeat split; auto. apply negb_true_iff. exact Hn.
Qed.
End Properties.

(** Counterexample to C4 as stated: under ALL, for a key table without
    columns, every key column is null at the only row of the target (there
    is none to be valid), so the sentence drops the row; [drop_nulls]
    returns it. *)
Lemma drop_nulls_all_without_key_columns_keeps_rows :
  drop_nulls example_single_row example_no_keys ALL = inr example_single_row /\
  table_rows example_single_row = [[Some 7%Z]] /\
  compact (fun i => negb (dropped_by_policy ALL example_no_keys i)) 0
          (table_rows example_single_row) = [] /\
  ~ (forall out,
       drop_nulls example_single_row example_no_keys ALL = inr out ->
       table_rows out =
       compact (fun i => negb (dropped_by_policy ALL example_no_keys i)) 0
               (table_rows example_single_row)).
Proof.
  repeat split; try reflexivity.
  intros H. specialize (H _ eq_refl). discriminate H.
Qed.

(** Counterexample to C5 as stated: a key table of two rows without nulls
    and a target of one row; the key table has more rows than the target
    and the call returns the copy of the target. *)
Lemma drop_nulls_more_key_rows_without_nulls_succeeds :
  (num_rows example_single_row < num_rows example_two_key_rows)%nat /\
  drop_nulls example_single_row example_two_key_rows ANY = inr example_single_row /\
  ~ ((num_rows example_single_row < num_rows example_two_key_rows)%nat ->
     exists e, drop_nulls example_single_row example_two_key_rows ANY = inl e).
Proof.
  split; [simpl; lia|]. split; [reflexivity|].
  intros H. destruct H as [e He]; [simpl; lia|]. discriminate He.
Qed.

(** *** Instances *)

Lemma example_target_wf : table_wf example_target.
Proof. repeat constructor. Qed.

Lemma example_keys_wf : table_wf example_keys.
Proof. repeat constructor. Qed.

(** C4, amended, at the example tables under ANY. *)
Lemma drop_nulls_keeps_rows_in_order_witness :
  table_wf example_target /\ table_wf example_keys /\
  Forall (fun c => (num_rows example_target <= size c)%nat) example_keys /\
  exists out,
    drop_nulls example_target example_keys ANY = inr out /\
    table_rows out =
      compact (fun i => negb (dropped ANY example_keys i)) 0 (table_rows example_target) /\
    (forall i, dropped ALL example_keys i = true <->
               example_keys <> [] /\ forall c, In c example_keys -> null_at i c = true) /\
    (forall i, dropped ANY example_keys i = true <->
               exists c, In c example_keys /\ null_at i c = true).
Proof.
  assert (Hrows : Forall (fun c => (num_rows example_target <= size c)%nat) example_keys)
    by (repeat constructor).
  split; [exact example_target_wf|]. split; [exact example_keys_wf|].
  split; [exact Hrows|].
  eexists. split; [reflexivity|].
  exact (drop_nulls_keeps_rows_in_order Z example_target example_keys _ ANY
           example_target_wf example_keys_wf Hrows eq_refl).
Defined.

(** C5, amended, at a target of one row: with the example keys of three
    rows, which have a null, and with the key table of two rows without
    nulls. *)
Lemma drop_nulls_size_mismatch_witness :
  has_nulls example_keys = true /\
  (num_rows example_single_row < num_rows example_keys)%nat /\
  drop_nulls example_single_row example_keys ANY =
    inl (logic_error "Column size mismatch") /\
  (num_columns example_two_key_rows = 0%nat \/ num_rows example_two_key_rows = 0%nat
   \/ has_nulls example_two_key_rows = false) /\
  drop_nulls example_single_row example_two_key_rows ANY =
    inr (copy example_single_row).
Proof.
  assert (Hlt : (num_rows example_single_row < num_rows example_keys)%nat)
    by (simpl; lia).
  assert (Hguard : num_columns example_two_key_rows = 0%nat
                   \/ num_rows example_two_key_rows = 0%nat
                   \/ has_nulls example_two_key_rows = false)
    by (right; right; reflexivity).
  split; [reflexivity|]. split; [exact Hlt|].
  split; [exact (proj1 (drop_nulls_size_mismatch Z example_single_row example_keys ANY)
                   eq_refl Hlt)|].
  split; [exact Hguard|].
  exact (proj2 (drop_nulls_size_mismatch Z example_single_row example_two_key_rows ANY)
           Hguard).
Defined.

(** C9 at the example tables, whose second key column has no mask. *)
Lemma maskless_key_column_never_drops_witness :
  In example_maskless_key example_keys /\
  valid example_maskless_key = None /\
  table_wf example_target /\
  (forall i, mask_valid i (valid example_maskless_key) = true) /\
  (forall i, filter_call (create example_keys ALL) i = true) /\
  (forall out, drop_nulls example_target example_keys ALL = inr out ->
               table_rows out = table_rows example_target) /\
  (forall i, filter_call (create example_keys ANY) i =
             filter_call (create (filter (@has_mask Z) example_keys) ANY) i) /\
  (forall i, filter_call (create example_keys ANY) i = false ->
             exists c' m, In c' example_keys /\ valid c' = Some m /\
                          nth i m false = false).
Proof.
  assert (Hin : In example_maskless_key example_keys)
    by (simpl; right; left; reflexivity).
  split; [exact Hin|]. split; [reflexivity|]. split; [exact example_target_wf|].
  exact (maskless_key_column_never_drops Z example_target example_keys
           example_maskless_key Hin eq_refl example_target_wf).
Defined.

End DropNullsProperties.

(** ** Null-aware row filter: policies, key order and repeated filtering *)

Module DropNullsExtras.
Import DropNulls DropNullsProperties.

Local Open Scope string_scope.

Section Compaction.
Variable A : Type.

(** An element of a compacted buffer is the element of a kept row. *)
Lemma compact_In keep (l : list A) d x : forall s,
  In x (compact keep s l) ->
  exists i, (s <= i < s + length l)%nat /\ keep i = true /\ x = nth (i - s) l d.
Proof.
  intros s. rewrite (compact_gather A keep l d s). intros Hin.
  apply in_map_iff in Hin. destruct Hin as [i [Hx Hi]].
  apply filter_In in Hi. destruct Hi as [Hi Hk]. apply in_seq in Hi.
  exists i. repeat split; auto; lia.
Qed.

Lemma compact_incl keep keep' (l : list A) : forall s,
  (forall i, (s <= i < s + length l)%nat -> keep i = true -> keep' i = true) ->
  incl (compact keep s l) (compact keep' s l).
Proof.
  induction l as [|x r IH]; intros s Himp; simpl; [apply incl_refl|].
  assert (Hrest : incl (compact keep (S s) r) (compact keep' (S s) r)).
  { apply IH. intros i Hi. apply Himp. simpl. lia. }
  destruct (keep s) eqn:Hk.
  - rewrite (Himp s) by (simpl; auto; lia).
    intros y [Hy|Hy]; [left; exact Hy|right; apply Hrest; exact Hy].
  - destruct (keep' s); [apply incl_tl|]; exact Hrest.
Qed.
End Compaction.

Section Properties.
Variable V : Type.

Lemma dropped_all_any (keys : table V) i :
  dropped ALL keys i = true -> dropped ANY keys i = true.
Proof.
  unfold dropped, num_columns. destruct keys as [|c t]; [discriminate|].
  simpl. intros H. apply andb_true_iff in H. destruct H as [H _].
  rewrite H. reflexivity.
Qed.

(** X13: ANY drops every row ALL drops: each row of the table returned
    under ANY is a row of the table returned under ALL. *)
Theorem drop_nulls_any_within_all (input keys out_any out_all : table V) :
  table_wf input -> table_wf keys ->
  Forall (fun c => (num_rows input <= size c)%nat) keys ->
  drop_nulls input keys ANY = inr out_any ->
  drop_nulls input keys ALL = inr out_all ->
  incl (table_rows out_any) (table_rows out_all).
Proof.
  intros Hwf Hkwf Hrows Hany Hall.
  rewrite (drop_nulls_rows V input keys out_any ANY Hwf Hkwf Hrows Hany).
  rewrite (drop_nulls_rows V input keys out_all ALL Hwf Hkwf Hrows Hall).
  apply compact_incl. intros i _ Hkeep.
  destruct (dropped ALL keys i) eqn:Hd; [|reflexivity].
  rewrite (dropped_all_any keys i Hd) in Hkeep. discriminate.
Qed.
Lemma element_not_null (c : gdf_column V) i :
  column_wf c -> (i < size c)%nat -> null_at i c = false ->
  nth i (column_elements c) None <> None.
Proof.
  unfold column_wf, null_at, column_elements. intros [Hd Hv] Hi Hnull.
  destruct (data c) as [|d rest] eqn:Hdata; [simpl in Hd; lia|].
  rewrite <- Hdata in *. clear Hdata rest.
  destruct (valid c) as [m|].
  - destruct Hv as [Hm _]. apply negb_false_iff in Hnull.
    pose proof (map_nth (fun '(x, b) => if b : bool then Some x else None)
                        (combine (data c) m) (d, false) i) as Hnth.
    cbv beta iota in Hnth. rewrite Hnth, combine_nth by lia.
    rewrite Hnull. discriminate.
  - rewrite (nth_indep _ None (Some d)) by (rewrite length_map; lia).
    rewrite map_nth. discriminate.
Qed.

Lemma kept_under_any_not_null (keys : table V) i c :
  negb (dropped ANY keys i) = true -> In c keys -> null_at i c = false.
Proof.
  unfold dropped. intros Hkeep Hc. apply negb_true_iff in Hkeep.
  destruct (null_at i c) eqn:Hn; [|reflexivity].
  assert (existsb (null_at i) keys = true) by (apply existsb_exists; eauto).
  congruence.
Qed.

(** X14: filtering a well-formed table by its own columns under ANY leaves
    no null: every element of every row of the result is present. *)
Theorem drop_nulls_any_by_itself_has_no_null (input out : table V) :
  table_wf input ->
  drop_nulls input input ANY = inr out ->
  Forall (Forall (fun element => element <> None)) (table_rows out).
Proof.
  intros Hwf Hout.
  assert (Hrows : Forall (fun c => (num_rows input <= size c)%nat) input).
  { unfold table_wf in Hwf. eapply Forall_impl; [|exact Hwf].
    simpl. intros c [_ Hs]. lia. }
  rewrite (drop_nulls_rows V input input out ANY Hwf Hwf Hrows Hout).
  apply Forall_forall. intros row Hrow.
  apply (compact_In _ _ _ []) in Hrow. destruct Hrow as [i [Hi [Hkeep Hrow]]].
  unfold table_rows in Hi, Hrow. rewrite length_map, length_seq in Hi.
  rewrite Nat.sub_0_r, nth_map_seq in Hrow by lia. simpl in Hrow. subst row.
  unfold table_row. apply Forall_forall. intros element Helement.
  apply in_map_iff in Helement. destruct Helement as [c [Helement Hc]].
  subst element. unfold table_wf in Hwf. rewrite Forall_forall in Hwf.
  destruct (Hwf c Hc) as [Hcwf Hsize].
  apply element_not_null; [exact Hcwf|lia|].
  apply (kept_under_any_not_null input i c Hkeep Hc).
Qed.

Lemma compact_all_valid keep (m : list bool) : forall s,
  (forall i, (s <= i < s + length m)%nat -> keep i = true ->
             nth (i - s) m false = true) ->
  forall j, (j < length (compact keep s m))%nat ->
            nth j (compact keep s m) false = true.
Proof.
  intros s Hvalid j Hj.
  pose proof (nth_In (compact keep s m) false Hj) as Hin.
  apply (compact_In _ _ _ false) in Hin.
  destruct Hin as [i [Hi [Hkeep Hx]]]. rewrite Hx. apply Hvalid; assumption.
Qed.

Lemma well_formed_empty_has_no_nulls (t : table V) :
  table_wf t -> num_rows t = 0%nat -> has_nulls t = false.
Proof.
  unfold table_wf, has_nulls. intros Hwf Hz. rewrite Forall_forall in Hwf.
  destruct (existsb (column_has_nulls (V:=V)) t) eqn:Hex; [|reflexivity].
  apply existsb_exists in Hex. destruct Hex as [c [Hc Hn]].
  destruct (Hwf c Hc) as [[_ Hv] Hs]. unfold column_has_nulls in Hn.
  destruct (valid c) as [m|]; [|discriminate].
  destruct Hv as [Hm Hcount]. rewrite Hs, Hz in Hcount.
  rewrite Hcount in Hn. discriminate.
Qed.

(** X15: filtering a well-formed table by its own columns under ANY gives
    a table without nulls by its null counts, on which [drop_nulls] by its
    own columns changes nothing any more, under either policy. *)
Theorem drop_nulls_any_by_itself_idempotent (input out : table V) drop :
  table_wf input ->
  drop_nulls input input ANY = inr out ->
  has_nulls out = false /\
  drop_nulls out out drop = inr out.
Proof.
  intros Hwf Hout.
  assert (Hnone : has_nulls out = false).
  { revert Hout. unfold drop_nulls.
    destruct (Nat.eqb_spec (num_columns input) 0) as [Hc|Hc]; simpl.
    { intros Hout. inversion Hout; subst out.
      destruct input; [reflexivity|discriminate]. }
    destruct (Nat.eqb_spec (num_rows input) 0) as [Hz|Hz]; simpl.
    { intros Hout. inversion Hout; subst out.
      apply well_formed_empty_has_no_nulls; assumption. }
    destruct (has_nulls input) eqn:Hn; simpl.
    2:{ intros Hout. inversion Hout; subst out. exact Hn. }
    rewrite Nat.leb_refl. intros Hout. inversion Hout; subst out.
    unfold has_nulls, copy_if.
    destruct (existsb (column_has_nulls (V:=V))
                (map (copy_if_column (filter_call (create input ANY))
                        (num_rows input)) input)) eqn:Hex; [|reflexivity].
    apply existsb_exists in Hex. destruct Hex as [c' [Hc' Hn']].
    apply in_map_iff in Hc'. destruct Hc' as [c [Hc' Hin]]. subst c'.
    unfold table_wf in Hwf. rewrite Forall_forall in Hwf.
    destruct (Hwf c Hin) as [[Hd Hv] Hs].
    unfold column_has_nulls, copy_if_column in Hn'. simpl in Hn'.
    destruct (valid c) as [m|] eqn:Hm; simpl in Hn'; [|discriminate].
    destruct Hv as [Hlen _].
    rewrite count_unset_bits_none in Hn'; [discriminate|].
    intros j _ Hj. apply compact_all_valid; [|exact Hj].
    intros i Hi Hkeep. rewrite Nat.sub_0_r.
    rewrite <- Hs, (firstn_whole m (size c) Hlen).
    rewrite filter_call_dropped in Hkeep
      by (intros ->; contradiction Hc; reflexivity).
    pose proof (kept_under_any_not_null input i c Hkeep Hin) as Hnull.
    unfold null_at in Hnull. rewrite Hm in Hnull.
    apply negb_false_iff in Hnull. exact Hnull. }
  split; [exact Hnone|].
  unfold drop_nulls. rewrite Hnone. simpl. rewrite !orb_true_r. reflexivity.
Qed.

Lemma copy_if_ext (input : table V) keep keep' :
  (forall i, keep i = keep' i) -> copy_if input keep = copy_if input keep'.
Proof.
  intros Hext. unfold copy_if. apply map_ext. intros c. unfold copy_if_column.
  rewrite (compact_ext V keep keep' (firstn (num_rows input) (data c)) 0)
    by (intros j _; apply Hext).
  rewrite (filter_ext keep keep' Hext).
  destruct (valid c) as [m|]; [|reflexivity]. simpl.
  rewrite (compact_ext bool keep keep' (firstn (num_rows input) m) 0)
    by (intros j _; apply Hext).
  reflexivity.
Qed.

Lemma existsb_Permutation {A} (p : A -> bool) l l' :
  Permutation l l' -> existsb p l = existsb p l'.
Proof.
  induction 1 as [|x l l' _ IH|x y l|l l' l'' _ IH1 _ IH2]; simpl.
  - reflexivity.
  - rewrite IH. reflexivity.
  - destruct (p x), (p y); reflexivity.
  - rewrite IH1. exact IH2.
Qed.

Lemma forallb_Permutation {A} (p : A -> bool) l l' :
  Permutation l l' -> forallb p l = forallb p l'.
Proof.
  induction 1 as [|x l l' _ IH|x y l|l l' l'' _ IH1 _ IH2]; simpl.
  - reflexivity.
  - rewrite IH. reflexivity.
  - destruct (p x), (p y); reflexivity.
  - rewrite IH1. exact IH2.
Qed.

Lemma num_rows_Permutation (keys keys' : table V) :
  table_wf keys -> Permutation keys keys' -> num_rows keys = num_rows keys'.
Proof.
  intros Hwf Hperm. destruct keys' as [|c' t'].
  - apply Permutation_sym, Permutation_nil in Hperm. subst keys. reflexivity.
  - unfold table_wf in Hwf. rewrite Forall_forall in Hwf.
    assert (Hin : In c' keys)
      by (apply (Permutation_in c' (Permutation_sym Hperm)); left; reflexivity).
    destruct (Hwf c' Hin) as [_ Hsize]. simpl. symmetry. exact Hsize.
Qed.

(** X16: the result of [drop_nulls] does not depend on the order of the
    columns of a well-formed key table, under either policy: the same
    table, or the same error, for every permutation of the key columns. *)
Theorem drop_nulls_key_order_irrelevant (input keys keys' : table V) drop :
  table_wf keys ->
  Permutation keys keys' ->
  drop_nulls input keys drop = drop_nulls input keys' drop.
Proof.
  intros Hwf Hperm. unfold drop_nulls, num_columns, has_nulls.
  rewrite <- (Permutation_length Hperm).
  rewrite <- (num_rows_Permutation keys keys' Hwf Hperm).
  rewrite <- (existsb_Permutation (column_has_nulls (V:=V)) keys keys' Hperm).
  rewrite (copy_if_ext input (filter_call (create keys drop))
             (filter_call (create keys' drop))); [reflexivity|].
  intros i. rewrite !filter_call_create. destruct drop.
  - rewrite (existsb_Permutation (null_at i) keys keys' Hperm). reflexivity.
  - rewrite (forallb_Permutation (null_at i) keys keys' Hperm). reflexivity.
Qed.

(** X17: with a single key column the two policies agree: ANY and ALL
    return the same table, or fail alike. *)
Theorem drop_nulls_single_key_policies_agree (input : table V) (c : gdf_column V) :
  drop_nulls input [c] ANY = drop_nulls input [c] ALL.
Proof.
  unfold drop_nulls.
  rewrite (copy_if_ext input (filter_call (create [c] ANY))
             (filter_call (create [c] ALL))); [reflexivity|].
  intros i. rewrite !filter_call_create. simpl.
  rewrite andb_true_r, orb_false_r. reflexivity.
Qed.
End Properties.

(** *** Instances *)

(** The rows kept under ANY are among those kept under ALL, at the example
    tables. *)
Lemma drop_nulls_any_within_all_witness :
  table_wf example_target /\ table_wf example_keys /\
  Forall (fun c => (num_rows example_target <= size c)%nat) example_keys /\
  exists out_any out_all,
    drop_nulls example_target example_keys ANY = inr out_any /\
    drop_nulls example_target example_keys ALL = inr out_all /\
    incl (table_rows out_any) (table_rows out_all).
Proof.
  assert (Hrows : Forall (fun c => (num_rows example_target <= size c)%nat) example_keys)
    by (repeat constructor).
  split; [exact example_target_wf|]. split; [exact example_keys_wf|].
  split; [exact Hrows|].
  eexists. eexists. split; [reflexivity|]. split; [reflexivity|].
  exact (drop_nulls_any_within_all Z example_target example_keys _ _
           example_target_wf example_keys_wf Hrows eq_refl eq_refl).
Defined.

(** The example target filtered by its own columns has no null left. *)
Lemma drop_nulls_any_by_itself_has_no_null_witness :
  table_wf example_target /\
  exists out,
    drop_nulls example_target example_target ANY = inr out /\
    Forall (Forall (fun element => element <> None)) (table_rows out).
Proof.
  split; [exact example_target_wf|].
  eexists. split; [reflexivity|].
  exact (drop_nulls_any_by_itself_has_no_null Z example_target _
           example_target_wf eq_refl).
Defined.

(** Filtering the filtered example target again changes nothing. *)
Lemma drop_nulls_any_by_itself_idempotent_witness :
  table_wf example_target /\
  exists out,
    drop_nulls example_target example_target ANY = inr out /\
    has_nulls out = false /\
    drop_nulls out out ALL = inr out.
Proof.
  split; [exact example_target_wf|].
  eexists. split; [reflexivity|].
  exact (drop_nulls_any_by_itself_idempotent Z example_target _ ALL
           example_target_wf eq_refl).
Defined.

(** The example keys in reverse column order. *)
Lemma drop_nulls_key_order_irrelevant_witness :
  table_wf example_keys /\
  Permutation example_keys (rev example_keys) /\
  drop_nulls example_target example_keys ANY =
  drop_nulls example_target (rev example_keys) ANY.
Proof.
  split; [exact example_keys_wf|]. split; [apply Permutation_rev|].
  exact (drop_nulls_key_order_irrelevant Z example_target example_keys
           (rev example_keys) ANY example_keys_wf (Permutation_rev example_keys)).
Defined.

End DropNullsExtras.

(** ** String to integer and integer to string *)

Module ConvertProperties.
Import Convert.

Local Open Scope string_scope.
Local Open Scope Z_scope.
Local Open Scope list_scope.

Local Arguments digit_char : simpl never.

(** *** Two's complement reduction *)

Lemma wrap_mod bits z : 0 < bits -> (wrap bits z) mod 2 ^ bits = z mod 2 ^ bits.
Proof.
  intros Hb. unfold wrap. rewrite Zminus_mod_idemp_l. f_equal. lia.
Qed.

Lemma wrap_congruent bits x y :
  x mod 2 ^ bits = y mod 2 ^ bits -> wrap bits x = wrap bits y.
Proof.
  intros H. unfold wrap.
  rewrite <- (Zplus_mod_idemp_l x), <- (Zplus_mod_idemp_l y), H. reflexivity.
Qed.

Lemma wrap_small bits z :
  0 < bits -> int_min bits <= z <= int_max bits -> wrap bits z = z.
Proof.
  unfold int_min, int_max, wrap. intros Hb Hz.
  assert (H2 : 2 ^ bits = 2 * 2 ^ (bits - 1)).
  { replace bits with (Z.succ (bits - 1)) at 1 by lia. apply Z.pow_succ_r. lia. }
  rewrite Z.mod_small by lia. lia.
Qed.

Lemma wrap_range bits z :
  0 < bits -> int_min bits <= wrap bits z <= int_max bits.
Proof.
  unfold int_min, int_max, wrap. intros Hb.
  assert (H2 : 2 ^ bits = 2 * 2 ^ (bits - 1)).
  { replace bits with (Z.succ (bits - 1)) at 1 by lia. apply Z.pow_succ_r. lia. }
  assert (0 < 2 ^ (bits - 1)) by (apply Z.pow_pos_nonneg; lia).
  pose proof (Z.mod_pos_bound (z + 2 ^ (bits - 1)) (2 ^ bits) ltac:(lia)). lia.
Qed.

Lemma wrap_step a d : wrap 64 (wrap 64 a * 10 + d) = wrap 64 (a * 10 + d).
Proof.
  apply wrap_congruent.
  rewrite <- Zplus_mod_idemp_l, <- Zmult_mod_idemp_l, wrap_mod by lia.
  rewrite Zmult_mod_idemp_l, Zplus_mod_idemp_l. reflexivity.
Qed.

Lemma wrap_scale a s : wrap 64 (wrap 64 a * s) = wrap 64 (a * s).
Proof.
  apply wrap_congruent.
  rewrite <- Zmult_mod_idemp_l, wrap_mod by lia.
  rewrite Zmult_mod_idemp_l. reflexivity.
Qed.

(** Narrowing to 32 bits forgets what the 64-bit reduction removed. *)
Lemma wrap_32_64 z : wrap 32 (wrap 64 z) = wrap 32 z.
Proof.
  apply wrap_congruent.
  pose proof (wrap_mod 64 z ltac:(lia)) as H.
  assert (Hdiv : forall x, (x mod 2 ^ 64) mod 2 ^ 32 = x mod 2 ^ 32).
  { intros x. rewrite (Z.div_mod x (2 ^ 64)) at 2 by lia.
    replace (2 ^ 64) with (2 ^ 32 * 2 ^ 32) at 2 by reflexivity.
    rewrite <- Z.mul_assoc, Z.add_comm, Z.mul_comm, Z_mod_plus_full. reflexivity. }
  rewrite <- (Hdiv (wrap 64 z)), H. apply Hdiv.
Qed.

(** *** Parsing *)

Lemma char_code_bound chr : 0 <= Z.of_nat (nat_of_ascii chr) < 256.
Proof. pose proof (nat_ascii_bounded chr). lia. Qed.

Lemma digit_test chr :
  (char_value chr <? char_value "0") || (char_value chr >? char_value "9") =
  negb (is_digit chr).
Proof.
  change (char_value "0") with 48. change (char_value "9") with 57.
  unfold char_value, is_digit. pose proof (char_code_bound chr).
  destruct (Z.leb_spec 128 (Z.of_nat (nat_of_ascii chr)));
    destruct (Z.leb_spec 48 (Z.of_nat (nat_of_ascii chr)));
    destruct (Z.leb_spec (Z.of_nat (nat_of_ascii chr)) 57);
    simpl; try lia;
    repeat match goal with
           | |- context [?a <? ?b] => destruct (Z.ltb_spec a b)
           | |- context [?a >? ?b] => rewrite (Z.gtb_ltb a b)
           end; simpl; try reflexivity; lia.
Qed.

Lemma digit_value chr :
  is_digit chr = true ->
  char_value chr - char_value "0" = Z.of_nat (nat_of_ascii chr) - 48.
Proof.
  change (char_value "0") with 48. unfold is_digit, char_value. intros H.
  apply andb_true_iff in H. destruct H as [H1 H2].
  apply Z.leb_le in H1. apply Z.leb_le in H2.
  destruct (Z.leb_spec 128 (Z.of_nat (nat_of_ascii chr))); lia.
Qed.

Section Parsing.
Variable mem : nat -> ascii.

(** The loop computes the value of the leading digits, reduced to 64
    bits. *)
Lemma parse_digits_value s : forall ptr v,
  (forall j, (j < length s)%nat -> mem (ptr + j) = nth j s zero) ->
  fst (parse_digits mem (length s) ptr (wrap 64 v)) = wrap 64 (digits_value s v).
Proof.
  induction s as [|chr rest IH]; intros ptr v Hmem; simpl; [reflexivity|].
  assert (Hchr : mem ptr = chr).
  { rewrite <- (Nat.add_0_r ptr). apply (Hmem 0%nat). simpl. lia. }
  rewrite Hchr, digit_test.
  destruct (is_digit chr) eqn:Hd; simpl; [|reflexivity].
  rewrite (digit_value _ Hd), wrap_step.
  specialize (IH (S ptr) (v * 10 + (Z.of_nat (nat_of_ascii chr) - 48))).
  destruct (parse_digits mem (length rest) (S ptr)
              (wrap 64 (v * 10 + (Z.of_nat (nat_of_ascii chr) - 48)))) as [result reads].
  simpl fst in *. apply IH. intros j Hj.
  replace (S ptr + j)%nat with (ptr + S j)%nat by lia.
  apply (Hmem (S j)). simpl length. lia.
Qed.

(** [string_to_integer] returns the integer the specification reads in
    the bytes of the string, reduced to 64 bits. *)
Lemma string_to_integer_parse_decimal d_str s :
  length s = sv_size_bytes d_str ->
  (forall j, (j < length s)%nat -> mem (sv_data d_str + j) = nth j s zero) ->
  string_to_integer mem d_str = wrap 64 (parse_decimal s).
Proof.
  intros Hlen Hmem. unfold string_to_integer, string_to_integer_reads.
  rewrite <- Hlen.
  destruct s as [|chr rest].
  - simpl.
    destruct (char_eqb (mem (sv_data d_str)) "-" || char_eqb (mem (sv_data d_str)) "+");
      [destruct (char_eqb (mem (sv_data d_str)) "-")|]; reflexivity.
  - assert (Hchr : mem (sv_data d_str) = chr).
    { rewrite <- (Nat.add_0_r (sv_data d_str)). apply (Hmem 0%nat). simpl. lia. }
    assert (Hrest : forall j, (j < length rest)%nat ->
                      mem (S (sv_data d_str) + j) = nth j rest zero).
    { intros j Hj. replace (S (sv_data d_str) + j)%nat
        with (sv_data d_str + S j)%nat by lia.
      apply (Hmem (S j)). simpl. lia. }
    rewrite Hchr. unfold parse_decimal.
    replace (Z.to_nat (Z.of_nat (length (chr :: rest)) - 1)) with (length rest)
      by (simpl length; lia).
    rewrite Nat2Z.id.
    pose proof (parse_digits_value rest (S (sv_data d_str)) 0 Hrest) as Hsigned.
    pose proof (parse_digits_value (chr :: rest) (sv_data d_str) 0 Hmem) as Hplain.
    change (wrap 64 0) with 0 in Hsigned, Hplain.
    destruct (char_eqb chr "-") eqn:Hminus; simpl orb.
    + destruct (parse_digits mem (length rest) (S (sv_data d_str)) 0) as [value reads].
      simpl fst in *. rewrite Hsigned, wrap_scale. f_equal. lia.
    + destruct (char_eqb chr "+") eqn:Hplus.
      * destruct (parse_digits mem (length rest) (S (sv_data d_str)) 0) as [value reads].
        simpl fst in *. rewrite Hsigned, wrap_scale. f_equal. lia.
      * destruct (parse_digits mem (length (chr :: rest)) (sv_data d_str) 0)
          as [value reads].
        simpl fst in *. rewrite Hplain, wrap_scale. f_equal. lia.
Qed.
End Parsing.

Lemma element_bytes_length strings idx :
  strings_wf strings -> (idx < strings_count strings)%nat ->
  length (element_bytes strings idx) =
  (nth (S idx) (offsets strings) O - nth idx (offsets strings) O)%nat.
Proof.
  intros Hwf Hidx. destruct (Hwf idx Hidx) as [Hle Hin].
  unfold element_bytes. rewrite length_firstn, length_skipn. lia.
Qed.

(** The integer [to_integers] writes at a valid row. *)
Lemma to_integers_element beyond strings idx :
  strings_wf strings -> (idx < strings_count strings)%nat ->
  is_null (strings_null_mask strings) idx = false ->
  nth idx (data (to_integers beyond strings)) 0 =
  wrap 32 (parse_decimal (element_bytes strings idx)).
Proof.
  intros Hwf Hidx Hvalid. unfold to_integers.
  destruct (Nat.eqb_spec (strings_count strings) 0); [lia|]. simpl data.
  rewrite nth_map_seq by lia. simpl. rewrite Hvalid.
  rewrite (string_to_integer_parse_decimal _ _ (element_bytes strings idx)).
  - apply wrap_32_64.
  - rewrite element_bytes_length by assumption. reflexivity.
  - intros j Hj. rewrite element_bytes_length in Hj by assumption.
    destruct (Hwf idx Hidx) as [Hle Hin].
    unfold string_element, element_bytes, chars_memory. simpl sv_data.
    rewrite nth_firstn.
    destruct (Nat.ltb_spec j (nth (S idx) (offsets strings) 0%nat
                              - nth idx (offsets strings) 0%nat)); [|lia].
    rewrite nth_skipn.
    destruct (nth_error (chars strings) (nth idx (offsets strings) 0%nat + j)) eqn:Hn.
    + symmetry. apply nth_error_nth. exact Hn.
    + apply nth_error_None in Hn. lia.
Qed.

Lemma digits_value_stops digits : forall chr rest acc,
  forallb is_digit digits = true -> is_digit chr = false ->
  digits_value (digits ++ chr :: rest) acc = digits_value digits acc.
Proof.
  induction digits as [|d ds IH]; intros chr rest acc Hds Hchr; simpl.
  - rewrite Hchr. reflexivity.
  - simpl in Hds. apply andb_true_iff in Hds. destruct Hds as [Hd Hds].
    rewrite Hd. apply IH; assumption.
Qed.

(** C6: [to_integers] writes, at every valid row, the integer read in the
    bytes of the element as an optional leading sign followed by decimal
    digits up to the first byte that is not a digit or the end of the
    string, stored as [int32_t]; it has no error result.  Bytes after the
    digits are ignored, a string that starts with neither a sign nor a digit
    gives 0, and the strings "42", "-42", "+42", "42abc", "abc" give
    42, -42, 42, 42, 0. *)
Theorem to_integers_parses_sign_and_digits beyond strings :
  strings_wf strings ->
  size (to_integers beyond strings) = strings_count strings /\
  (forall idx, (idx < strings_count strings)%nat ->
     is_null (strings_null_mask strings) idx = false ->
     nth idx (data (to_integers beyond strings)) 0 =
     wrap 32 (parse_decimal (element_bytes strings idx))) /\
  (forall digits chr rest acc,
     forallb is_digit digits = true -> is_digit chr = false ->
     digits_value (digits ++ chr :: rest) acc = digits_value digits acc) /\
  (forall chr rest,
     is_digit chr = false -> char_eqb chr "-" = false -> char_eqb chr "+" = false ->
     parse_decimal (chr :: rest) = 0) /\
  strings_elements example_strings =
    map (fun s => Some (list_ascii_of_string s)) ["42"; "-42"; "+42"; "42abc"; "abc"] /\
  data (to_integers beyond example_strings) = [42; -42; 42; 42; 0].
Proof.
  intros Hwf. repeat split.
  - unfold to_integers, size.
    destruct (Nat.eqb_spec (strings_count strings) 0) as [Hz|Hz]; simpl.
    + symmetry. exact Hz.
    + rewrite length_map, length_seq. reflexivity.
  - intros idx Hidx Hvalid. apply to_integers_element; assumption.
  - apply digits_value_stops.
  - intros chr rest Hd Hm Hp. unfold parse_decimal. rewrite Hm, Hp.
    simpl. rewrite Hd. reflexivity.
Qed.

(** C10: [string_to_integer] reads the byte at [data()] first, whatever
    the byte length of the string; for a string of zero bytes this is its
    only read, and the address is outside the byte range of the element. *)
Theorem string_to_integer_reads_first_byte_unguarded mem ptr :
  (forall d_str,
     hd_error (snd (string_to_integer_reads mem d_str)) = Some (sv_data d_str)) /\
  snd (string_to_integer_reads mem {| sv_data := ptr; sv_size_bytes := 0 |}) = [ptr] /\
  in_byte_range {| sv_data := ptr; sv_size_bytes := 0 |} ptr = false.
Proof.
  split; [|split].
  - intros d_str. unfold string_to_integer_reads.
    destruct (char_eqb (mem (sv_data d_str)) "-" || char_eqb (mem (sv_data d_str)) "+").
    + destruct (parse_digits mem _ _ _). reflexivity.
    + destruct (parse_digits mem _ _ _). reflexivity.
  - unfold string_to_integer_reads. simpl.
    destruct (char_eqb (mem ptr) "-" || char_eqb (mem ptr) "+"); reflexivity.
  - unfold in_byte_range. simpl. rewrite Nat.add_0_r, Nat.leb_refl. simpl.
    apply Nat.ltb_irrefl.
Qed.

(** *** Reading back the digits *)

Lemma digit_char_code d :
  0 <= d <= 9 -> Z.of_nat (nat_of_ascii (digit_char d)) = 48 + d.
Proof.
  intros Hd. unfold digit_char. rewrite nat_ascii_embedding by lia. lia.
Qed.

Lemma digit_char_is_digit d : 0 <= d <= 9 -> is_digit (digit_char d) = true.
Proof.
  intros Hd. unfold is_digit. rewrite (digit_char_code d Hd).
  apply andb_true_iff. split; apply Z.leb_le; lia.
Qed.

Lemma digit_not_sign chr :
  is_digit chr = true -> char_eqb chr "-" = false /\ char_eqb chr "+" = false.
Proof.
  intros Hd. unfold char_eqb.
  split; destruct (Ascii.eqb_spec chr "-"), (Ascii.eqb_spec chr "+");
    subst; try reflexivity; discriminate Hd.
Qed.

Lemma digits_value_app digits : forall rest acc,
  forallb is_digit digits = true ->
  digits_value (digits ++ rest) acc = digits_value rest (digits_value digits acc).
Proof.
  induction digits as [|d ds IH]; intros rest acc Hds; simpl; [reflexivity|].
  simpl in Hds. apply andb_true_iff in Hds. destruct Hds as [Hd Hds].
  rewrite Hd. apply IH. exact Hds.
Qed.

Lemma forallb_rev {A} (p : A -> bool) l : forallb p (rev l) = forallb p l.
Proof.
  induction l as [|x r IH]; [reflexivity|].
  cbn [rev forallb]. rewrite forallb_app, IH. cbn [forallb].
  rewrite andb_true_r. apply andb_comm.
Qed.

Lemma rem_digit value : 0 < value -> 0 <= Z.rem value base <= 9.
Proof.
  intros Hv. unfold base. pose proof (Z.rem_bound_pos value 10 ltac:(lia) ltac:(lia)). lia.
Qed.

Lemma digits_lsd_are_digits bits fuel : forall value,
  forallb is_digit (digits_lsd bits fuel value) = true.
Proof.
  induction fuel as [|fuel IH]; intros value; [reflexivity|].
  cbn [digits_lsd]. destruct (Z.gtb_spec value 0); [|reflexivity].
  cbn [forallb].
  rewrite digit_char_is_digit by (apply rem_digit; lia). apply IH.
Qed.

(** Read most significant digit first, the digits the loops produce give
    back the value. *)
Lemma digits_lsd_value bits fuel : forall value,
  0 < bits -> 0 <= value < 10 ^ Z.of_nat fuel -> value <= int_max bits ->
  digits_value (rev (digits_lsd bits fuel value)) 0 = value.
Proof.
  induction fuel as [|fuel IH]; intros value Hbits Hv Hmax.
  - simpl in *. lia.
  - simpl digits_lsd. destruct (Z.gtb_spec value 0); [|simpl; lia].
    assert (Hq : 0 <= Z.quot value base < 10 ^ Z.of_nat fuel).
    { unfold base. rewrite Z.quot_div_nonneg by lia.
      rewrite Nat2Z.inj_succ, Z.pow_succ_r in Hv by lia.
      split; [apply Z.div_pos; lia|].
      apply Z.div_lt_upper_bound; lia. }
    assert (Hqmax : Z.quot value base <= int_max bits).
    { unfold base. rewrite Z.quot_div_nonneg by lia.
      pose proof (Z.div_le_upper_bound value 10 value ltac:(lia) ltac:(lia)). lia. }
    assert (Hmin : int_min bits <= 0).
    { unfold int_min. pose proof (Z.pow_pos_nonneg 2 (bits - 1) ltac:(lia) ltac:(lia)). lia. }
    rewrite (wrap_small bits) by lia.
    simpl rev. rewrite digits_value_app
      by (rewrite forallb_rev; apply digits_lsd_are_digits).
    rewrite (IH _ Hbits Hq Hqmax). cbn [digits_value].
    rewrite digit_char_is_digit by (apply rem_digit; lia).
    rewrite digit_char_code by (apply rem_digit; lia).
    pose proof (Z.quot_rem' value base). unfold base in *. lia.
Qed.

(** Parsing the rendering of a value gives the value back, the minimum of
    the type apart. *)
Lemma parse_decimal_bytes bits value :
  0 < bits <= 64 -> int_min bits < value <= int_max bits ->
  parse_decimal (decimal_bytes bits value) = value.
Proof.
  intros Hbits Hv. unfold decimal_bytes.
  destruct (Z.eqb_spec value 0) as [->|Hnz]; [reflexivity|].
  assert (Hfuel : int_max bits < 10 ^ Z.of_nat digit_fuel).
  { unfold int_max. assert (2 ^ (bits - 1) <= 2 ^ 63)
      by (apply Z.pow_le_mono_r; lia).
    change (10 ^ Z.of_nat digit_fuel) with 100000000000000000000.
    change (2 ^ 63) with 9223372036854775808 in *. lia. }
  destruct (Z.ltb_spec value 0) as [Hneg|Hpos].
  - assert (Hm : int_min bits <= - value <= int_max bits)
      by (unfold int_min, int_max in *; lia).
    rewrite (wrap_small bits) by lia.
    rewrite rev_app_distr. cbn [rev app].
    change (parse_decimal ("-"%char :: rev (digits_lsd bits digit_fuel (- value))))
      with (- digits_value (rev (digits_lsd bits digit_fuel (- value))) 0).
    rewrite digits_lsd_value by lia. lia.
  - rewrite app_nil_r.
    pose proof (digits_lsd_value bits digit_fuel value ltac:(lia) ltac:(lia) ltac:(lia))
      as Hval.
    pose proof (digits_lsd_are_digits bits digit_fuel value) as Hdig.
    rewrite <- forallb_rev in Hdig.
    destruct (rev (digits_lsd bits digit_fuel value)) as [|chr rest].
    + cbn [digits_value] in Hval. lia.
    + unfold parse_decimal. cbn [forallb] in Hdig. apply andb_true_iff in Hdig.
      destruct Hdig as [Hchr _]. destruct (digit_not_sign chr Hchr) as [Hm Hp].
      rewrite Hm, Hp. exact Hval.
Qed.

(** *** Offsets and the shared byte buffer *)

Lemma firstn_succ {A} (l : list A) d : forall i,
  (i < length l)%nat -> firstn (S i) l = firstn i l ++ [nth i l d].
Proof.
  induction l as [|x r IH]; intros i Hi; simpl in Hi; [lia|].
  destruct i as [|i]; [reflexivity|].
  change (firstn (S (S i)) (x :: r)) with (x :: firstn (S i) r).
  rewrite IH by lia. reflexivity.
Qed.

Lemma offsets_from_nth sizes : forall start i,
  (i <= length sizes)%nat ->
  nth i (offsets_from start sizes) O = (start + list_sum (firstn i sizes))%nat.
Proof.
  induction sizes as [|s rest IH]; intros start i Hi; simpl in Hi.
  - replace i with O by lia. simpl. lia.
  - destruct i as [|i]; simpl; [lia|]. rewrite IH by lia. lia.
Qed.

Section Segments.
Variable A : Type.
Variable ls : list (list A).

(** Offset [i] is the number of bytes of the rows before row [i]. *)
Lemma offsets_concat i :
  (i <= length ls)%nat ->
  nth i (make_offsets_child_column (map (@length A) ls)) O =
  length (concat (firstn i ls)).
Proof.
  intros Hi. unfold make_offsets_child_column.
  rewrite offsets_from_nth by (rewrite length_map; exact Hi).
  rewrite length_concat, firstn_map. reflexivity.
Qed.

Lemma concat_split i :
  (i < length ls)%nat ->
  concat ls = concat (firstn i ls) ++ nth i ls [] ++ concat (skipn (S i) ls).
Proof.
  intros Hi. rewrite <- (firstn_skipn (S i) ls) at 1.
  rewrite (firstn_succ ls [] i Hi), !concat_app. simpl.
  rewrite app_nil_r, <- app_assoc. reflexivity.
Qed.

Lemma offsets_step i :
  (i < length ls)%nat ->
  length (concat (firstn (S i) ls)) =
  (length (concat (firstn i ls)) + length (nth i ls []))%nat.
Proof.
  intros Hi. rewrite (firstn_succ ls [] i Hi), concat_app, length_app.
  simpl. rewrite app_nil_r. reflexivity.
Qed.

Lemma offsets_bounded i :
  (length (concat (firstn i ls)) <= length (concat ls))%nat.
Proof.
  rewrite <- (firstn_skipn i ls) at 2. rewrite concat_app, length_app. lia.
Qed.

(** Row [i] of the buffer, cut out by its two offsets. *)
Lemma segment_of_concat i :
  (i < length ls)%nat ->
  firstn (length (concat (firstn (S i) ls)) - length (concat (firstn i ls)))
         (skipn (length (concat (firstn i ls))) (concat ls)) =
  nth i ls [].
Proof.
  intros Hi. rewrite (offsets_step i Hi).
  replace (length (concat (firstn i ls)) + length (nth i ls [])
           - length (concat (firstn i ls)))%nat
    with (length (nth i ls [])) by lia.
  rewrite (concat_split i Hi) at 1.
  rewrite skipn_app, skipn_all, Nat.sub_diag. simpl.
  rewrite firstn_app, firstn_all, Nat.sub_diag. simpl. apply app_nil_r.
Qed.
End Segments.

(** *** Writing the digits *)

Lemma store_middle (pre : list ascii) x post c :
  store (pre ++ x :: post) (length pre) c = pre ++ c :: post.
Proof. induction pre as [|y pre IH]; simpl; [|rewrite IH]; reflexivity. Qed.

(** Equal lists up to the bracketing of their concatenations. *)
Ltac reassociate :=
  repeat (rewrite <- ?app_assoc; simpl); reflexivity.

(** Two-ended induction on lists. *)
Lemma two_ended_induction {A} (P : list A -> Prop) :
  P [] -> (forall x, P [x]) ->
  (forall a mid b, P mid -> P (a :: mid ++ [b])) ->
  forall l, P l.
Proof.
  intros Hnil Hone Hstep l.
  assert (H : forall n l, (length l <= n)%nat -> P l).
  { clear l. induction n as [|n IH]; intros l Hl.
    - destruct l; [exact Hnil|simpl in Hl; lia].
    - destruct l as [|a l]; [exact Hnil|].
      destruct (exists_last (l := a :: l) ltac:(discriminate)) as [front [b Hfront]].
      destruct front as [|a' mid].
      + simpl in Hfront. rewrite Hfront. apply Hone.
      + simpl in Hfront. inversion Hfront; subst a'. apply Hstep.
        apply IH. apply (f_equal (@length A)) in Hfront.
        simpl in Hfront, Hl. rewrite length_app in Hfront. simpl in Hfront. lia. }
  apply (H (length l)). lia.
Qed.

Section Rendering.
Variable bits : Z.

Lemma count_digits_lsd fuel : forall value digits,
  count_digits bits fuel value digits =
  (digits + length (digits_lsd bits fuel value))%nat.
Proof.
  induction fuel as [|fuel IH]; intros value digits; simpl; [lia|].
  destruct (value >? 0); simpl; [rewrite IH|]; lia.
Qed.

Lemma write_digits_lsd fuel : forall pre seg post value,
  (length (digits_lsd bits fuel value) <= length seg)%nat ->
  write_digits bits fuel (pre ++ seg ++ post) (length pre) value =
  (pre ++ digits_lsd bits fuel value
       ++ skipn (length (digits_lsd bits fuel value)) seg ++ post,
   (length pre + length (digits_lsd bits fuel value))%nat).
Proof.
  induction fuel as [|fuel IH]; intros pre seg post value Hlen; simpl.
  - rewrite Nat.add_0_r. reflexivity.
  - simpl in Hlen. destruct (value >? 0); simpl in *.
    + destruct seg as [|x seg]; [simpl in Hlen; lia|].
      simpl app at 1. rewrite store_middle.
      replace (pre ++ digit_char (Z.rem value base) :: seg ++ post)
        with ((pre ++ [digit_char (Z.rem value base)]) ++ seg ++ post)
        by (rewrite <- app_assoc; reflexivity).
      replace (S (length pre)) with (length (pre ++ [digit_char (Z.rem value base)]))
        by (rewrite length_app; simpl; lia).
      rewrite IH by (simpl in Hlen; lia).
      rewrite <- app_assoc, length_app. simpl. f_equal. lia.
    + rewrite Nat.add_0_r. reflexivity.
Qed.

(** The reversal loop reverses the bytes it ranges over, in place. *)
Lemma reversal_loop mid : forall pre left right post,
  length left = length right ->
  fold_left (fun d_chars j =>
               swap d_chars (length pre + j)
                    (length pre + (length (left ++ mid ++ right) - j - 1)))%nat
            (seq (length left) (length mid / 2))
            (pre ++ left ++ mid ++ right ++ post) =
  pre ++ left ++ rev mid ++ right ++ post.
Proof.
  induction mid as [| x | a mid b IH] using two_ended_induction;
    intros pre left right post Hlr; try reflexivity.
  replace (length (a :: mid ++ [b]) / 2)%nat with (S (length mid / 2)).
  2:{ assert (Hl : length (a :: mid ++ [b]) = (length mid + 1 * 2)%nat)
        by (simpl; rewrite length_app; simpl; lia).
      rewrite Hl, Nat.div_add by lia. lia. }
  cbn [seq fold_left].
  assert (Hfirst :
            swap (pre ++ left ++ (a :: mid ++ [b]) ++ right ++ post)
                 (length pre + length left)
                 (length pre +
                  (length (left ++ (a :: mid ++ [b]) ++ right) - length left - 1)) =
            pre ++ (left ++ [b]) ++ mid ++ ([a] ++ right) ++ post).
  { replace (length pre + (length (left ++ (a :: mid ++ [b]) ++ right)
                           - length left - 1))%nat
      with (length (pre ++ left ++ a :: mid))
      by (rewrite !length_app; simpl; rewrite !length_app; simpl; lia).
    replace (length pre + length left)%nat with (length (pre ++ left))
      by (rewrite length_app; reflexivity).
    unfold swap.
    assert (Hform1 : pre ++ left ++ (a :: mid ++ [b]) ++ right ++ post =
                     (pre ++ left) ++ a :: (mid ++ b :: right ++ post)).
    { reassociate. }
    assert (Hform2 : pre ++ left ++ (a :: mid ++ [b]) ++ right ++ post =
                     (pre ++ left ++ a :: mid) ++ b :: (right ++ post)).
    { reassociate. }
    assert (Hch1 : nth (length (pre ++ left))
                       (pre ++ left ++ (a :: mid ++ [b]) ++ right ++ post) zero = a)
      by (rewrite Hform1; apply nth_middle).
    assert (Hch2 : nth (length (pre ++ left ++ a :: mid))
                       (pre ++ left ++ (a :: mid ++ [b]) ++ right ++ post) zero = b)
      by (rewrite Hform2; apply nth_middle).
    rewrite Hch1, Hch2, Hform1, store_middle.
    replace ((pre ++ left) ++ b :: mid ++ b :: right ++ post)
      with ((pre ++ left ++ b :: mid) ++ b :: (right ++ post))
      by (reassociate).
    replace (length (pre ++ left ++ a :: mid)) with (length (pre ++ left ++ b :: mid))
      by (rewrite !length_app; simpl; reflexivity).
    rewrite store_middle.
    reassociate. }
  rewrite Hfirst.
  specialize (IH pre (left ++ [b]) ([a] ++ right) post).
  replace (length (left ++ [b])) with (S (length left)) in IH
    by (rewrite length_app; simpl; lia).
  assert (Hsame : length ((left ++ [b]) ++ mid ++ [a] ++ right) =
                  length (left ++ (a :: mid ++ [b]) ++ right)).
  { rewrite !length_app. simpl. rewrite !length_app. simpl. lia. }
  rewrite Hsame in IH. rewrite IH by (simpl; lia).
  change (rev (a :: mid ++ [b])) with (rev (mid ++ [b]) ++ [a]).
  rewrite rev_app_distr. reassociate.
Qed.

Lemma reverse_in_place pre seg post d_buffer len :
  d_buffer = length pre -> len = length seg ->
  fold_left (fun d_chars j =>
               swap d_chars (d_buffer + j) (d_buffer + (len - j - 1)))%nat
            (seq 0 (len / 2)) (pre ++ seg ++ post) =
  pre ++ rev seg ++ post.
Proof.
  intros -> ->.
  pose proof (reversal_loop seg pre [] [] post eq_refl) as H.
  simpl in H. rewrite app_nil_r in H. exact H.
Qed.

(** The size pass measures what the fill pass writes. *)
Lemma size_fn_rendered integers idx :
  integer_to_string_size_fn bits integers idx = length (rendered bits integers idx).
Proof.
  unfold integer_to_string_size_fn, rendered, decimal_bytes.
  destruct (is_null (null_mask integers) idx); [reflexivity|].
  destruct (element integers idx =? 0); [reflexivity|].
  rewrite count_digits_lsd, length_rev, length_app.
  destruct (element integers idx <? 0); cbn [length]; lia.
Qed.

(** The fill pass at row [idx] overwrites the bytes of that row, and no
    other byte, with the rendering of its element. *)
Lemma integer_to_string_fn_writes integers d_offsets pre seg post idx :
  nth idx d_offsets O = length pre ->
  length seg = length (rendered bits integers idx) ->
  integer_to_string_fn bits integers d_offsets (pre ++ seg ++ post) idx =
  pre ++ rendered bits integers idx ++ post.
Proof.
  intros Hoff Hseg. unfold integer_to_string_fn, rendered, decimal_bytes in *.
  destruct (is_null (null_mask integers) idx).
  { destruct seg; [reflexivity|discriminate]. }
  rewrite Hoff.
  destruct (element integers idx =? 0).
  { destruct seg as [|x [|y seg]]; try discriminate. simpl. apply store_middle. }
  rewrite length_rev, length_app in Hseg.
  set (sign := element integers idx <? 0) in *.
  set (magnitude := if sign then wrap bits (- element integers idx)
                    else element integers idx) in *.
  set (digits := digits_lsd bits digit_fuel magnitude) in *.
  rewrite write_digits_lsd by (fold digits; lia). fold digits.
  destruct sign; simpl length in Hseg.
  - assert (Hlast : exists y, skipn (length digits) seg = [y]).
    { assert (Hl : length (skipn (length digits) seg) = 1%nat)
        by (rewrite length_skipn; lia).
      destruct (skipn (length digits) seg) as [|y [|z r]]; try discriminate.
      exists y. reflexivity. }
    destruct Hlast as [y Hy]. rewrite Hy.
    replace (pre ++ digits ++ [y] ++ post) with ((pre ++ digits) ++ y :: post)
      by reassociate.
    replace (length pre + length digits)%nat with (length (pre ++ digits))
      by (rewrite length_app; reflexivity).
    rewrite store_middle.
    replace ((pre ++ digits) ++ "-"%char :: post)
      with (pre ++ (digits ++ ["-"%char]) ++ post) by reassociate.
    apply reverse_in_place; [reflexivity|].
    rewrite !length_app. cbn [length]. lia.
  - assert (Hnone : skipn (length digits) seg = []).
    { apply length_zero_iff_nil. rewrite length_skipn. lia. }
    rewrite Hnone. simpl app at 2. rewrite app_nil_r.
    apply reverse_in_place; [reflexivity|]. lia.
Qed.

Variable fresh_char : nat -> ascii.
Variable integers : column.

Abbreviation rows := (rendered_rows bits integers).

Lemma rows_length : length rows = size integers.
Proof. unfold rendered_rows. rewrite length_map, length_seq. reflexivity. Qed.

Lemma rows_nth idx :
  (idx < size integers)%nat -> nth idx rows [] = rendered bits integers idx.
Proof. intros Hidx. unfold rendered_rows. rewrite nth_map_seq by lia. reflexivity. Qed.

Lemma sizes_rows :
  map (integer_to_string_size_fn bits integers) (seq 0 (size integers)) =
  map (@length ascii) rows.
Proof.
  unfold rendered_rows. rewrite map_map. apply map_ext. intros idx.
  apply size_fn_rendered.
Qed.

(** The fill pass after rows [0] to [k-1]: their renderings, followed by
    the rest of the buffer as it was. *)
Lemma fill_prefix d_chars k :
  length d_chars = length (concat rows) ->
  (k <= size integers)%nat ->
  fold_left (integer_to_string_fn bits integers
               (make_offsets_child_column (map (@length ascii) rows)))
            (seq 0 k) d_chars =
  concat (firstn k rows) ++ skipn (length (concat (firstn k rows))) d_chars.
Proof.
  intros Hlen. induction k as [|k IH]; intros Hk; [reflexivity|].
  rewrite seq_S, fold_left_app, IH by lia. simpl fold_left.
  assert (Hkr : (k < length rows)%nat) by (rewrite rows_length; lia).
  pose proof (offsets_bounded _ rows (S k)) as Hbound.
  rewrite (offsets_step _ rows k Hkr) in Hbound.
  set (pre := concat (firstn k rows)) in *.
  set (tail := skipn (length pre) d_chars).
  assert (Htail : (length (nth k rows []) <= length tail)%nat).
  { unfold tail. rewrite length_skipn. lia. }
  rewrite <- (firstn_skipn (length (nth k rows [])) tail).
  rewrite integer_to_string_fn_writes.
  - rewrite (firstn_succ rows [] k Hkr), concat_app. fold pre. simpl concat.
    rewrite app_nil_r, length_app, <- app_assoc.
    rewrite <- (rows_nth k) by lia.
    unfold tail. rewrite skipn_skipn.
    replace (length (nth k rows []) + length pre)%nat
      with (length pre + length (nth k rows []))%nat by lia.
    reflexivity.
  - rewrite (offsets_concat _ rows k) by lia. reflexivity.
  - rewrite length_firstn, <- (rows_nth k) by lia. lia.
Qed.

(** The chars child is the concatenation of the renderings. *)
Lemma dispatch_from_integers_fn_chars :
  chars (dispatch_from_integers_fn bits fresh_char integers) = concat rows.
Proof.
  unfold dispatch_from_integers_fn. simpl chars. rewrite sizes_rows.
  assert (Hall : firstn (size integers) rows = rows)
    by (rewrite <- rows_length; apply firstn_all).
  rewrite fill_prefix.
  - rewrite Hall, skipn_all2; [apply app_nil_r|].
    rewrite length_map, length_seq.
    rewrite (offsets_concat _ rows) by (rewrite rows_length; lia).
    rewrite Hall. lia.
  - rewrite length_map, length_seq.
    rewrite (offsets_concat _ rows) by (rewrite rows_length; lia).
    rewrite Hall. reflexivity.
  - lia.
Qed.

Lemma dispatch_from_integers_fn_offsets idx :
  (idx <= size integers)%nat ->
  nth idx (offsets (dispatch_from_integers_fn bits fresh_char integers)) O =
  length (concat (firstn idx rows)).
Proof.
  intros Hidx. unfold dispatch_from_integers_fn. simpl offsets.
  rewrite sizes_rows. apply offsets_concat. rewrite rows_length. exact Hidx.
Qed.

(** The strings column made from [integers] is well formed and holds, at
    each row, the rendering of the element. *)
Lemma dispatch_from_integers_fn_wf :
  strings_wf (dispatch_from_integers_fn bits fresh_char integers).
Proof.
  intros idx Hidx. change (idx < size integers)%nat in Hidx.
  rewrite !dispatch_from_integers_fn_offsets by lia.
  rewrite dispatch_from_integers_fn_chars.
  split.
  - rewrite (offsets_step _ rows idx) by (rewrite rows_length; lia). lia.
  - apply offsets_bounded.
Qed.

Lemma dispatch_from_integers_fn_element idx :
  (idx < size integers)%nat ->
  element_bytes (dispatch_from_integers_fn bits fresh_char integers) idx =
  rendered bits integers idx.
Proof.
  intros Hidx. unfold element_bytes.
  rewrite !dispatch_from_integers_fn_offsets by lia.
  rewrite dispatch_from_integers_fn_chars.
  rewrite segment_of_concat by (rewrite rows_length; lia).
  apply rows_nth. exact Hidx.
Qed.
End Rendering.

Lemma integral_bits_range t bits :
  integral_bits t = Some bits -> 0 < bits <= 64.
Proof. destruct t; simpl; intros H; inversion H; lia. Qed.

(** C1, amended: for every column of a signed integer type whose valid
    elements fit the signed 32-bit range and are not the minimum of the
    column's own type, [to_integers (from_integers x)] has the elements of
    [x]: the same value at every valid row and a null at every null row. *)
Theorem to_integers_from_integers_round_trip fresh_char beyond integers bits :
  integral_bits (type integers) = Some bits ->
  (forall idx, (idx < size integers)%nat ->
     is_null (null_mask integers) idx = false ->
     int_min bits < element integers idx <= int_max bits /\
     int_min 32 <= element integers idx <= int_max 32) ->
  exists strings,
    from_integers fresh_char integers = inr strings /\
    size (to_integers beyond strings) = size integers /\
    column_elements (to_integers beyond strings) = column_elements integers /\
    (forall idx, (idx < size integers)%nat ->
       is_null (null_mask (to_integers beyond strings)) idx =
       is_null (null_mask integers) idx).
Proof.
  intros Hbits Hrange. unfold from_integers.
  destruct (Nat.eqb_spec (size integers) 0) as [Hz|Hnz].
  { exists make_empty_strings_column. split; [reflexivity|].
    unfold column_elements. rewrite Hz. simpl. repeat split; auto.
    intros idx Hidx. lia. }
  rewrite Hbits. eexists. split; [reflexivity|].
  set (strings := dispatch_from_integers_fn bits fresh_char integers).
  assert (Hcount : strings_count strings = size integers) by reflexivity.
  assert (Hmask : null_mask (to_integers beyond strings) = null_mask integers).
  { unfold to_integers. rewrite Hcount.
    destruct (Nat.eqb_spec (size integers) 0); [contradiction|]. reflexivity. }
  assert (Hsize : size (to_integers beyond strings) = size integers).
  { unfold to_integers, size at 1. rewrite Hcount.
    destruct (Nat.eqb_spec (size integers) 0); [contradiction|].
    cbn [data]. rewrite length_map, length_seq. reflexivity. }
  split; [exact Hsize|]. split.
  - unfold column_elements. rewrite Hsize, Hmask.
    apply map_ext_in. intros idx Hidx. apply in_seq in Hidx.
    destruct (is_null (null_mask integers) idx) eqn:Hnull; [reflexivity|].
    f_equal. unfold element at 1.
    rewrite to_integers_element.
    + unfold strings. rewrite dispatch_from_integers_fn_element by lia.
      unfold rendered. rewrite Hnull.
      destruct (Hrange idx ltac:(lia) Hnull) as [Htype H32].
      rewrite parse_decimal_bytes
        by (try exact Htype; apply (integral_bits_range _ _ Hbits)).
      apply wrap_small; [lia|exact H32].
    + apply dispatch_from_integers_fn_wf.
    + rewrite Hcount. lia.
    + exact Hnull.
  - intros idx Hidx. rewrite Hmask. reflexivity.
Qed.

(** Counterexample to C1 as stated: [2^31] fits the signed 64-bit range;
    in a 64-bit column it is rendered as "2147483648", which [to_integers]
    reads back into its 32-bit output as [-2^31]. *)
Lemma round_trip_loses_values_beyond_int32 :
  exists strings,
    from_integers zero_memory example_wide = inr strings /\
    Forall (fun v => int_min 64 <= v <= int_max 64) (data example_wide) /\
    column_elements (to_integers zero_memory strings) = [Some (- 2 ^ 31)] /\
    column_elements example_wide = [Some (2 ^ 31)] /\
    column_elements (to_integers zero_memory strings) <> column_elements example_wide.
Proof.
  eexists. split; [reflexivity|]. split.
  - repeat constructor; vm_compute; discriminate.
  - split; [vm_compute; reflexivity|]. split; [reflexivity|].
    vm_compute. discriminate.
Qed.

(** *** Instances *)

Lemma example_strings_wf : strings_wf example_strings.
Proof.
  intros idx Hidx. change (idx < 5)%nat in Hidx.
  do 5 (destruct idx as [|idx]; [vm_compute; lia|]). lia.
Qed.

(** C6 at the example strings. *)
Lemma to_integers_parses_sign_and_digits_witness :
  strings_wf example_strings /\
  size (to_integers zero_memory example_strings) = strings_count example_strings /\
  (forall idx, (idx < strings_count example_strings)%nat ->
     is_null (strings_null_mask example_strings) idx = false ->
     nth idx (data (to_integers zero_memory example_strings)) 0 =
     wrap 32 (parse_decimal (element_bytes example_strings idx))) /\
  (forall digits chr rest acc,
     forallb is_digit digits = true -> is_digit chr = false ->
     digits_value (digits ++ chr :: rest) acc = digits_value digits acc) /\
  (forall chr rest,
     is_digit chr = false -> char_eqb chr "-" = false -> char_eqb chr "+" = false ->
     parse_decimal (chr :: rest) = 0) /\
  strings_elements example_strings =
    map (fun s => Some (list_ascii_of_string s)) ["42"; "-42"; "+42"; "42abc"; "abc"] /\
  data (to_integers zero_memory example_strings) = [42; -42; 42; 42; 0].
Proof.
  split; [exact example_strings_wf|].
  exact (to_integers_parses_sign_and_digits zero_memory example_strings
           example_strings_wf).
Defined.

Lemma example_integers_in_range :
  forall idx, (idx < size example_integers)%nat ->
    is_null (null_mask example_integers) idx = false ->
    int_min 32 < element example_integers idx <= int_max 32 /\
    int_min 32 <= element example_integers idx <= int_max 32.
Proof.
  intros idx Hidx _. change (idx < 5)%nat in Hidx.
  do 5 (destruct idx as [|idx]; [vm_compute; repeat split; discriminate|]). lia.
Qed.

(** C1, amended, at the example column, null at row 3. *)
Lemma to_integers_from_integers_round_trip_witness :
  integral_bits (type example_integers) = Some 32 /\
  exists strings,
    from_integers zero_memory example_integers = inr strings /\
    size (to_integers zero_memory strings) = size example_integers /\
    column_elements (to_integers zero_memory strings) =
      column_elements example_integers /\
    (forall idx, (idx < size example_integers)%nat ->
       is_null (null_mask (to_integers zero_memory strings)) idx =
       is_null (null_mask example_integers) idx).
Proof.
  split; [reflexivity|].
  exact (to_integers_from_integers_round_trip zero_memory zero_memory
           example_integers 32 eq_refl example_integers_in_range).
Defined.

End ConvertProperties.

(** ** Conversions: shape of the strings column, bounds and order of the
    fill pass *)

Module ConvertExtras.
Import Convert ConvertProperties.

Local Open Scope string_scope.
Local Open Scope Z_scope.
Local Open Scope list_scope.

Local Arguments digit_char : simpl never.

Lemma offsets_from_length sizes : forall start,
  length (offsets_from start sizes) = S (length sizes).
Proof. induction sizes as [|s r IH]; intros start; simpl; [|rewrite IH]; reflexivity. Qed.

Lemma from_integers_inr fresh_char integers strings :
  from_integers fresh_char integers = inr strings ->
  (size integers = 0%nat /\ strings = make_empty_strings_column) \/
  (size integers <> 0%nat /\
   exists bits, integral_bits (type integers) = Some bits /\
                strings = dispatch_from_integers_fn bits fresh_char integers).
Proof.
  unfold from_integers.
  destruct (Nat.eqb_spec (size integers) 0) as [Hz|Hnz].
  - intros H. inversion H. left. auto.
  - destruct (integral_bits (type integers)) as [bits|]; [|discriminate].
    intros H. inversion H. right. split; [exact Hnz|]. exists bits. auto.
Qed.

(** X18: the strings column [from_integers] returns keeps the invariants of
    the representation: one row per input row, [offsets[0] = 0],
    non-decreasing offsets that end at the size of the chars buffer; for a
    column with rows there are [N + 1] offsets and the null mask and null
    count are the input's. *)
Theorem from_integers_strings_invariants fresh_char integers strings :
  from_integers fresh_char integers = inr strings ->
  strings_count strings = size integers /\
  nth 0 (offsets strings) O = O /\
  (forall idx, (idx < size integers)%nat ->
     (nth idx (offsets strings) O <= nth (S idx) (offsets strings) O)%nat) /\
  nth (size integers) (offsets strings) O = length (chars strings) /\
  (size integers <> 0%nat ->
   length (offsets strings) = S (size integers) /\
   strings_null_mask strings = null_mask integers /\
   strings_null_count strings = null_count integers).
Proof.
  intros Hfrom.
  destruct (from_integers_inr _ _ _ Hfrom) as [[Hz ->]|[Hnz [bits [Hbits ->]]]].
  - rewrite Hz. simpl. repeat split; try reflexivity; intros; lia.
  - split; [reflexivity|]. split.
    { rewrite dispatch_from_integers_fn_offsets by lia. reflexivity. }
    split.
    { intros idx Hidx.
      destruct (dispatch_from_integers_fn_wf bits fresh_char integers idx Hidx)
        as [Hle _]. exact Hle. }
    split.
    { rewrite dispatch_from_integers_fn_offsets, dispatch_from_integers_fn_chars by lia.
      rewrite <- (rows_length bits integers) at 1. rewrite firstn_all. reflexivity. }
    intros _. split; [|split; reflexivity].
    unfold dispatch_from_integers_fn. cbn [offsets].
    unfold make_offsets_child_column.
    rewrite offsets_from_length, length_map, length_seq. reflexivity.
Qed.

Lemma digits_lsd_length_bound bits fuel : forall value (k : nat),
  0 < bits -> value < 10 ^ Z.of_nat k -> value <= int_max bits ->
  (length (digits_lsd bits fuel value) <= k)%nat.
Proof.
  induction fuel as [|fuel IH]; intros value k Hbits Hv Hmax; [simpl; lia|].
  cbn [digits_lsd]. destruct (Z.gtb_spec value 0); [|simpl; lia].
  destruct k as [|k]; [simpl in Hv; lia|].
  cbn [length]. apply le_n_S.
  assert (Hq : 0 <= Z.quot value base <= value).
  { unfold base. rewrite Z.quot_div_nonneg by lia.
    split; [apply Z.div_pos; lia|].
    apply Z.div_le_upper_bound; lia. }
  assert (Hmin : int_min bits <= 0).
  { unfold int_min. pose proof (Z.pow_pos_nonneg 2 (bits - 1) ltac:(lia) ltac:(lia)). lia. }
  rewrite (wrap_small bits) by lia.
  apply IH; try lia.
  unfold base. rewrite Z.quot_div_nonneg by lia.
  rewrite Nat2Z.inj_succ, Z.pow_succ_r in Hv by lia.
  apply Z.div_lt_upper_bound; lia.
Qed.

Lemma int_max_below_19_digits bits : 0 < bits <= 64 -> int_max bits < 10 ^ Z.of_nat 19.
Proof.
  intros Hb. unfold int_max.
  assert (2 ^ (bits - 1) <= 2 ^ 63) by (apply Z.pow_le_mono_r; lia).
  change (10 ^ Z.of_nat 19) with 10000000000000000000.
  change (2 ^ 63) with 9223372036854775808 in *. lia.
Qed.

(** The rendering of a valid element has at least one byte, and at most 20
    when the element is in the range of its type. *)
Lemma decimal_bytes_length bits value :
  0 < bits <= 64 ->
  (1 <= length (decimal_bytes bits value))%nat /\
  (int_min bits <= value <= int_max bits ->
   (length (decimal_bytes bits value) <= 20)%nat).
Proof.
  intros Hb. unfold decimal_bytes.
  destruct (Z.eqb_spec value 0) as [->|Hnz]; [simpl; split; intros; lia|].
  rewrite length_rev, length_app.
  pose proof (int_max_below_19_digits bits Hb) as H19.
  destruct (Z.ltb_spec value 0) as [Hneg|Hpos]; cbn [length].
  - split; [lia|]. intros Hr.
    pose proof (wrap_range bits (- value) ltac:(lia)) as Hw.
    pose proof (digits_lsd_length_bound bits digit_fuel (wrap bits (- value)) 19
                  ltac:(lia) ltac:(lia) ltac:(lia)). lia.
  - split.
    + unfold digit_fuel. cbn [digits_lsd].
      destruct (Z.gtb_spec value 0); [cbn [length]; lia|lia].
    + intros Hr.
      pose proof (digits_lsd_length_bound bits digit_fuel value 19
                    ltac:(lia) ltac:(lia) ltac:(lia)). lia.
Qed.

(** X19: in the strings column made from an integer column a null row
    takes no byte, a valid row at least one, and a valid row whose element
    is in the range of its type at most 20 (19 digits and a sign). *)
Theorem from_integers_row_sizes fresh_char integers bits strings idx :
  integral_bits (type integers) = Some bits ->
  from_integers fresh_char integers = inr strings ->
  (idx < size integers)%nat ->
  let bytes := (nth (S idx) (offsets strings) O - nth idx (offsets strings) O)%nat in
  (is_null (null_mask integers) idx = true -> bytes = O) /\
  (is_null (null_mask integers) idx = false -> (1 <= bytes)%nat) /\
  (is_null (null_mask integers) idx = false ->
   int_min bits <= element integers idx <= int_max bits -> (bytes <= 20)%nat).
Proof.
  intros Hbits Hfrom Hidx bytes.
  destruct (from_integers_inr _ _ _ Hfrom) as [[Hz _]|[_ [bits' [Hbits' ->]]]]; [lia|].
  assert (bits' = bits) by congruence. subst bits'.
  assert (Hbytes : bytes = length (rendered bits integers idx)).
  { unfold bytes. rewrite !dispatch_from_integers_fn_offsets by lia.
    rewrite (offsets_step _ (rendered_rows bits integers) idx)
      by (rewrite rows_length; lia).
    rewrite rows_nth by lia. lia. }
  rewrite Hbytes. unfold rendered.
  pose proof (decimal_bytes_length bits (element integers idx)
                (integral_bits_range _ _ Hbits)) as [Hlow Hhigh].
  repeat split; intros Hnull; rewrite Hnull; auto.
Qed.

(** X20: [from_integers] fails in one case only: a column that has rows
    and whose element type is not an integer type, with "Values for
    from_integers function must be integral type."; a column without rows
    gives the empty strings column whatever its type, since the row count
    is looked at before the type. *)
Theorem from_integers_fails_iff fresh_char integers e :
  (from_integers fresh_char integers = inl e <->
   size integers <> 0%nat /\ integral_bits (type integers) = None /\
   e = logic_error "Values for from_integers function must be integral type.") /\
  (size integers = 0%nat ->
   from_integers fresh_char integers = inr make_empty_strings_column).
Proof.
  unfold from_integers.
  destruct (Nat.eqb_spec (size integers) 0) as [Hz|Hnz].
  - split; [|reflexivity]. split; [discriminate|]. intros [Hnz _]. contradiction.
  - split; [|intros Hz; contradiction].
    destruct (integral_bits (type integers)) as [bits|].
    + split; [discriminate|]. intros [_ [Hnone _]]. discriminate.
    + split.
      * intros He. inversion He. auto.
      * intros [_ [_ ->]]. reflexivity.
Qed.

Lemma digit_char_not_zero d : 1 <= d <= 9 -> digit_char d <> "0"%char.
Proof.
  intros Hd Heq. apply (f_equal nat_of_ascii) in Heq.
  apply (f_equal Z.of_nat) in Heq. rewrite digit_char_code in Heq by lia.
  change (Z.of_nat (nat_of_ascii "0")) with 48 in Heq. lia.
Qed.

(** The most significant digit the loops produce is not 0. *)
Lemma digits_lsd_leading bits fuel : forall value,
  0 < bits -> 0 < value < 10 ^ Z.of_nat fuel -> value <= int_max bits ->
  exists chr rest,
    rev (digits_lsd bits fuel value) = chr :: rest /\ chr <> "0"%char.
Proof.
  induction fuel as [|fuel IH]; intros value Hbits Hv Hmax; [simpl in Hv; lia|].
  cbn [digits_lsd]. destruct (Z.gtb_spec value 0); [|lia].
  assert (Hq : 0 <= Z.quot value base <= value).
  { unfold base. rewrite Z.quot_div_nonneg by lia.
    split; [apply Z.div_pos; lia|].
    apply Z.div_le_upper_bound; lia. }
  assert (Hmin : int_min bits <= 0).
  { unfold int_min. pose proof (Z.pow_pos_nonneg 2 (bits - 1) ltac:(lia) ltac:(lia)). lia. }
  rewrite (wrap_small bits) by lia.
  cbn [rev].
  destruct (Z.eq_dec (Z.quot value base) 0) as [Hzero|Hpos].
  - rewrite Hzero.
    assert (Hnone : digits_lsd bits fuel 0 = []) by (destruct fuel; reflexivity).
    rewrite Hnone. cbn [rev app].
    exists (digit_char (Z.rem value base)), []. split; [reflexivity|].
    apply digit_char_not_zero.
    pose proof (Z.quot_rem' value base) as Hqr. rewrite Hzero in Hqr.
    pose proof (Z.rem_bound_pos value base ltac:(lia) ltac:(unfold base; lia)).
    unfold base in *. lia.
  - assert (Hqlt : Z.quot value base < 10 ^ Z.of_nat fuel).
    { unfold base. rewrite Z.quot_div_nonneg by lia.
      rewrite Nat2Z.inj_succ, Z.pow_succ_r in Hv by lia.
      apply Z.div_lt_upper_bound; lia. }
    destruct (IH (Z.quot value base) Hbits ltac:(lia) ltac:(lia))
      as [chr [rest [Hrev Hchr]]].
    rewrite Hrev. exists chr, (rest ++ [digit_char (Z.rem value base)]).
    split; [reflexivity|exact Hchr].
Qed.

(** X21: the bytes of a valid row are the canonical decimal numeral of its
    element: "0" for 0; for a positive element only digits, the first of
    them not 0, whose value is the element; for a negative element other
    than the minimum of the type, '-' followed by the bytes of its
    magnitude. *)
Theorem from_integers_canonical_numeral fresh_char integers bits strings idx :
  integral_bits (type integers) = Some bits ->
  from_integers fresh_char integers = inr strings ->
  (idx < size integers)%nat ->
  is_null (null_mask integers) idx = false ->
  let value := element integers idx in
  let bytes := element_bytes strings idx in
  (value = 0 -> bytes = ["0"%char]) /\
  (0 < value <= int_max bits ->
   forallb is_digit bytes = true /\
   (exists chr rest, bytes = chr :: rest /\ chr <> "0"%char) /\
   digits_value bytes 0 = value) /\
  (int_min bits < value < 0 ->
   bytes = "-"%char :: decimal_bytes bits (- value)).
Proof.
  intros Hbits Hfrom Hidx Hvalid value bytes.
  destruct (from_integers_inr _ _ _ Hfrom) as [[Hz _]|[_ [bits' [Hbits' ->]]]]; [lia|].
  assert (bits' = bits) by congruence. subst bits'.
  pose proof (integral_bits_range _ _ Hbits) as Hb.
  assert (Hbytes : bytes = decimal_bytes bits value).
  { unfold bytes. rewrite dispatch_from_integers_fn_element by lia.
    unfold rendered. rewrite Hvalid. reflexivity. }
  rewrite Hbytes. clear Hbytes bytes.
  assert (Hfuel : int_max bits < 10 ^ Z.of_nat digit_fuel).
  { pose proof (int_max_below_19_digits bits Hb).
    change (10 ^ Z.of_nat digit_fuel) with 100000000000000000000.
    change (10 ^ Z.of_nat 19) with 10000000000000000000 in *. lia. }
  split; [|split].
  - intros ->. reflexivity.
  - intros Hpos. unfold decimal_bytes.
    destruct (Z.eqb_spec value 0); [lia|].
    destruct (Z.ltb_spec value 0); [lia|]. rewrite app_nil_r.
    split; [|split].
    + rewrite forallb_rev. apply digits_lsd_are_digits.
    + apply digits_lsd_leading; lia.
    + apply digits_lsd_value; lia.
  - intros Hneg. unfold decimal_bytes.
    destruct (Z.eqb_spec value 0); [lia|].
    destruct (Z.eqb_spec (- value) 0); [lia|].
    destruct (Z.ltb_spec value 0); [|lia].
    destruct (Z.ltb_spec (- value) 0); [lia|].
    rewrite (wrap_small bits) by (unfold int_min, int_max in *; lia).
    rewrite rev_app_distr, app_nil_r. reflexivity.
Qed.

Section Reads.
Variable mem : nat -> ascii.

Lemma parse_digits_reads fuel : forall ptr value a,
  In a (snd (parse_digits mem fuel ptr value)) -> (ptr <= a < ptr + fuel)%nat.
Proof.
  induction fuel as [|fuel IH]; intros ptr value a Hin; [contradiction|].
  cbn [parse_digits] in Hin.
  destruct ((char_value (mem ptr) <? char_value "0")
            || (char_value (mem ptr) >? char_value "9")).
  - destruct Hin as [<-|[]]. lia.
  - destruct (parse_digits mem fuel (S ptr)
                (wrap 64 (value * 10 + (char_value (mem ptr) - char_value "0"))))
      as [result reads] eqn:Hrec.
    destruct Hin as [<-|Hin]; [lia|].
    pose proof (IH (S ptr)
                  (wrap 64 (value * 10 + (char_value (mem ptr) - char_value "0"))) a)
      as Hr.
    rewrite Hrec in Hr. specialize (Hr Hin). lia.
Qed.

(** X23: for a string of at least one byte every address
    [string_to_integer] dereferences lies in the byte range of the
    string. *)
Theorem string_to_integer_reads_in_range d_str a :
  sv_size_bytes d_str <> 0%nat ->
  In a (snd (string_to_integer_reads mem d_str)) ->
  in_byte_range d_str a = true.
Proof.
  intros Hsize Hin. unfold in_byte_range.
  assert (Hrange : (sv_data d_str <= a < sv_data d_str + sv_size_bytes d_str)%nat).
  { unfold string_to_integer_reads in Hin.
    destruct (char_eqb (mem (sv_data d_str)) "-" || char_eqb (mem (sv_data d_str)) "+").
    - destruct (parse_digits mem (Z.to_nat (Z.of_nat (sv_size_bytes d_str) - 1))
                  (S (sv_data d_str)) 0) as [value reads] eqn:Hrec.
      destruct Hin as [<-|Hin]; [lia|].
      pose proof (parse_digits_reads (Z.to_nat (Z.of_nat (sv_size_bytes d_str) - 1))
                    (S (sv_data d_str)) 0 a) as Hr.
      rewrite Hrec in Hr. specialize (Hr Hin). lia.
    - destruct (parse_digits mem (Z.to_nat (Z.of_nat (sv_size_bytes d_str)))
                  (sv_data d_str) 0) as [value reads] eqn:Hrec.
      destruct Hin as [<-|Hin]; [lia|].
      pose proof (parse_digits_reads (Z.to_nat (Z.of_nat (sv_size_bytes d_str)))
                    (sv_data d_str) 0 a) as Hr.
      rewrite Hrec in Hr. specialize (Hr Hin). lia. }
  apply andb_true_iff. split; [apply Nat.leb_le|apply Nat.ltb_lt]; lia.
Qed.

(** X24: [string_to_integer] returns the integer read in the bytes of the
    string (sign, then leading digits), reduced to 64 bits in two's
    complement: an overflow wraps and is not reported, and a value in the
    64-bit range is returned as it is. *)
Theorem string_to_integer_wraps d_str :
  let bytes := map (fun j => mem (sv_data d_str + j)%nat) (seq 0 (sv_size_bytes d_str)) in
  string_to_integer mem d_str = wrap 64 (parse_decimal bytes) /\
  (int_min 64 <= parse_decimal bytes <= int_max 64 ->
   string_to_integer mem d_str = parse_decimal bytes).
Proof.
  intros bytes.
  assert (H : string_to_integer mem d_str = wrap 64 (parse_decimal bytes)).
  { apply string_to_integer_parse_decimal.
    - unfold bytes. rewrite length_map, length_seq. reflexivity.
    - intros j Hj. unfold bytes in *. rewrite length_map, length_seq in Hj.
      rewrite nth_map_seq by exact Hj. reflexivity. }
  split; [exact H|]. intros Hr. rewrite H. apply wrap_small; [lia|exact Hr].
Qed.
End Reads.

(** X25: the column [to_integers] returns is an INT32 column with one row
    per string; a null row holds 0, every row holds a value of the signed
    32-bit range, and for a column with rows the null mask and null count
    are the input's. *)
Theorem to_integers_output beyond strings :
  let out := to_integers beyond strings in
  type out = INT32 /\
  size out = strings_count strings /\
  (forall idx, (idx < strings_count strings)%nat ->
     int_min 32 <= nth idx (data out) 0 <= int_max 32 /\
     (is_null (strings_null_mask strings) idx = true -> nth idx (data out) 0 = 0)) /\
  (strings_count strings <> 0%nat ->
   null_mask out = strings_null_mask strings /\
   null_count out = strings_null_count strings).
Proof.
  unfold to_integers, size.
  destruct (Nat.eqb_spec (strings_count strings) 0) as [Hz|Hnz]; cbn [type data].
  - rewrite Hz. repeat split; try reflexivity; intros; lia.
  - split; [reflexivity|]. split; [rewrite length_map, length_seq; reflexivity|].
    split; [|intros _; split; reflexivity].
    intros idx Hidx. rewrite nth_map_seq by exact Hidx. cbn [Nat.add].
    destruct (is_null (strings_null_mask strings) idx).
    + split; [vm_compute; split; discriminate|reflexivity].
    + split; [apply wrap_range; lia|discriminate].
Qed.

(** X26: on a well-formed strings column the result of [to_integers] does
    not depend on the bytes of device memory that follow the chars buffer:
    the byte [string_to_integer] reads past an empty string never reaches
    the value. *)
Theorem to_integers_ignores_memory_beyond_chars beyond beyond' strings :
  strings_wf strings ->
  to_integers beyond strings = to_integers beyond' strings.
Proof.
  intros Hwf.
  assert (Hrow : forall mem idx,
             (idx < strings_count strings)%nat ->
             is_null (strings_null_mask strings) idx = false ->
             wrap 32 (string_to_integer (chars_memory mem (chars strings))
                                        (string_element strings idx)) =
             wrap 32 (parse_decimal (element_bytes strings idx))).
  { intros mem idx Hidx Hvalid.
    pose proof (to_integers_element mem strings idx Hwf Hidx Hvalid) as Hel.
    unfold to_integers in Hel.
    destruct (Nat.eqb_spec (strings_count strings) 0); [lia|].
    cbn [data] in Hel. rewrite nth_map_seq in Hel by lia.
    cbn [Nat.add] in Hel. rewrite Hvalid in Hel. exact Hel. }
  unfold to_integers.
  destruct (strings_count strings =? 0)%nat; [reflexivity|].
  f_equal. apply map_ext_in. intros idx Hin. apply in_seq in Hin.
  destruct (is_null (strings_null_mask strings) idx) eqn:Hvalid; [reflexivity|].
  rewrite !Hrow by (lia || exact Hvalid). reflexivity.
Qed.

Lemma nth_splice {A} (buffer row : list A) offset p d :
  (offset + length row <= length buffer)%nat ->
  nth p (firstn offset buffer ++ row ++ skipn (offset + length row) buffer) d =
  if (offset <=? p)%nat && (p <? offset + length row)%nat
  then nth (p - offset) row d else nth p buffer d.
Proof.
  intros Hlen.
  assert (Hfirst : length (firstn offset buffer) = offset)
    by (rewrite length_firstn; lia).
  destruct (Nat.leb_spec offset p) as [Hge|Hlt]; simpl.
  - rewrite app_nth2 by lia. rewrite Hfirst.
    destruct (Nat.ltb_spec p (offset + length row)) as [Hin|Hout].
    + rewrite app_nth1 by lia. reflexivity.
    + rewrite app_nth2 by lia. rewrite nth_skipn. f_equal. lia.
  - rewrite app_nth1 by lia. rewrite nth_firstn.
    destruct (Nat.ltb_spec p offset); [reflexivity|lia].
Qed.

Section Fill.
Variable bits : Z.
Variable fresh_char : nat -> ascii.
Variable integers : column.

Abbreviation made := (dispatch_from_integers_fn bits fresh_char integers).
Abbreviation fill := (integer_to_string_fn bits integers (offsets made)).

Lemma made_offsets :
  offsets made =
  make_offsets_child_column (map (@length ascii) (rendered_rows bits integers)).
Proof.
  unfold dispatch_from_integers_fn. cbn [offsets]. rewrite sizes_rows. reflexivity.
Qed.

Lemma row_range idx :
  (idx < size integers)%nat ->
  nth (S idx) (offsets made) O =
  (nth idx (offsets made) O + length (rendered bits integers idx))%nat /\
  (nth (S idx) (offsets made) O <= length (chars made))%nat.
Proof.
  intros Hidx. rewrite !dispatch_from_integers_fn_offsets by lia.
  rewrite dispatch_from_integers_fn_chars.
  rewrite (offsets_step _ (rendered_rows bits integers) idx)
    by (rewrite rows_length; lia).
  rewrite rows_nth by lia. split; [reflexivity|].
  rewrite <- (rows_nth bits integers idx Hidx).
  rewrite <- (offsets_step _ (rendered_rows bits integers) idx)
    by (rewrite rows_length; lia).
  apply offsets_bounded.
Qed.

(** One call of the fill pass replaces the bytes of its row. *)
Lemma fill_splice buffer idx :
  (idx < size integers)%nat ->
  length buffer = length (chars made) ->
  fill buffer idx =
  firstn (nth idx (offsets made) O) buffer
  ++ rendered bits integers idx
  ++ skipn (nth idx (offsets made) O + length (rendered bits integers idx)) buffer.
Proof.
  intros Hidx Hlen. destruct (row_range idx Hidx) as [Hnext Hbound].
  set (offset := nth idx (offsets made) O) in *.
  set (row := rendered bits integers idx) in *.
  rewrite <- (firstn_skipn offset buffer) at 1.
  rewrite <- (firstn_skipn (length row) (skipn offset buffer)) at 1.
  rewrite skipn_skipn.
  replace (length row + offset)%nat with (offset + length row)%nat by lia.
  apply integer_to_string_fn_writes.
  - fold offset. rewrite length_firstn. lia.
  - rewrite length_firstn, length_skipn. fold row. lia.
Qed.

Lemma chars_in_row idx p :
  (idx < size integers)%nat ->
  in_row made idx p = true ->
  nth p (chars made) zero =
  nth (p - nth idx (offsets made) O) (rendered bits integers idx) zero.
Proof.
  intros Hidx Hin. unfold in_row in Hin. apply andb_true_iff in Hin.
  destruct Hin as [Hlo Hhi]. apply Nat.leb_le in Hlo. apply Nat.ltb_lt in Hhi.
  destruct (row_range idx Hidx) as [Hnext _]. rewrite Hnext in Hhi.
  rewrite dispatch_from_integers_fn_offsets in * by lia.
  rewrite dispatch_from_integers_fn_chars.
  rewrite (concat_split _ (rendered_rows bits integers) idx)
    by (rewrite rows_length; lia).
  rewrite rows_nth by lia.
  rewrite app_nth2 by lia. rewrite app_nth1 by lia. reflexivity.
Qed.

(** X27: a call of the fill pass at a row keeps the size of the chars
    buffer, leaves every byte outside the byte range of that row as it was,
    and leaves in the range the bytes the finished column has there. *)
Theorem integer_to_string_fn_writes_its_row_only buffer idx :
  (idx < size integers)%nat ->
  length buffer = length (chars made) ->
  length (fill buffer idx) = length buffer /\
  (forall p, in_row made idx p = false ->
             nth p (fill buffer idx) zero = nth p buffer zero) /\
  (forall p, in_row made idx p = true ->
             nth p (fill buffer idx) zero = nth p (chars made) zero).
Proof.
  intros Hidx Hlen. destruct (row_range idx Hidx) as [Hnext Hbound].
  rewrite (fill_splice buffer idx Hidx Hlen).
  split; [|split].
  - rewrite !length_app, length_firstn, length_skipn. lia.
  - intros p Hout. rewrite nth_splice by lia.
    unfold in_row in Hout. rewrite Hnext in Hout. rewrite Hout. reflexivity.
  - intros p Hin. rewrite nth_splice by lia.
    rewrite (chars_in_row idx p Hidx Hin).
    unfold in_row in Hin. rewrite Hnext in Hin. rewrite Hin. reflexivity.
Qed.

(** The buffer after the fill pass ran over the rows [order], in that
    order. *)
Lemma fill_any_order order : forall buffer,
  length buffer = length (chars made) ->
  (forall idx, In idx order -> (idx < size integers)%nat) ->
  length (fold_left fill order buffer) = length buffer /\
  forall p,
    nth p (fold_left fill order buffer) zero =
    if existsb (fun idx => in_row made idx p) order
    then nth p (chars made) zero else nth p buffer zero.
Proof.
  induction order as [|idx rest IH]; intros buffer Hlen Hrows.
  - split; reflexivity.
  - cbn [fold_left existsb].
    assert (Hidx : (idx < size integers)%nat) by (apply Hrows; left; reflexivity).
    destruct (integer_to_string_fn_writes_its_row_only buffer idx Hidx Hlen)
      as [Hl [Hout Hin]].
    destruct (IH (fill buffer idx) ltac:(lia)
                 (fun i Hi => Hrows i (or_intror Hi))) as [Hl' Hnth].
    split; [lia|]. intros p. rewrite Hnth.
    destruct (existsb (fun idx0 => in_row made idx0 p) rest).
    + rewrite orb_true_r. reflexivity.
    + rewrite orb_false_r.
      destruct (in_row made idx p) eqn:Hrow; [apply Hin|apply Hout]; exact Hrow.
Qed.

(** Every byte of the chars buffer belongs to a row. *)
Lemma byte_has_row p : forall n,
  (n <= size integers)%nat ->
  (p < nth n (offsets made) O)%nat ->
  exists idx, (idx < n)%nat /\ in_row made idx p = true.
Proof.
  induction n as [|n IH]; intros Hn Hp.
  - rewrite dispatch_from_integers_fn_offsets in Hp by lia. simpl in Hp. lia.
  - destruct (Nat.lt_ge_cases p (nth n (offsets made) O)) as [Hlt|Hge].
    + destruct (IH ltac:(lia) Hlt) as [idx [Hidx Hin]]. exists idx. split; [lia|exact Hin].
    + exists n. split; [lia|]. unfold in_row. apply andb_true_iff.
      split; [apply Nat.leb_le|apply Nat.ltb_lt]; lia.
Qed.

(** X28: the chars buffer does not depend on the order in which the fill
    pass visits the rows: run over any permutation of the rows, from the
    buffer as allocated, it gives the chars of the column. *)
Theorem fill_pass_order_independent order :
  Permutation order (seq 0 (size integers)) ->
  fold_left fill order
            (map fresh_char (seq 0 (nth (size integers) (offsets made) O))) =
  chars made.
Proof.
  intros Hperm.
  assert (Hbytes : nth (size integers) (offsets made) O = length (chars made)).
  { rewrite dispatch_from_integers_fn_offsets, dispatch_from_integers_fn_chars by lia.
    rewrite <- (rows_length bits integers) at 1. rewrite firstn_all. reflexivity. }
  set (buffer := map fresh_char (seq 0 (nth (size integers) (offsets made) O))).
  assert (Hlen : length buffer = length (chars made))
    by (unfold buffer; rewrite length_map, length_seq; exact Hbytes).
  assert (Hrows : forall idx, In idx order -> (idx < size integers)%nat).
  { intros idx Hin. apply (Permutation_in _ Hperm) in Hin.
    apply in_seq in Hin. lia. }
  destruct (fill_any_order order buffer Hlen Hrows) as [Hl Hnth].
  apply (nth_ext _ _ zero zero); [lia|].
  intros p Hp. rewrite Hnth.
  destruct (byte_has_row p (size integers) ltac:(lia) ltac:(lia)) as [idx [Hidx Hin]].
  assert (Hex : existsb (fun idx0 => in_row made idx0 p) order = true).
  { apply existsb_exists. exists idx. split; [|exact Hin].
    apply (Permutation_in _ (Permutation_sym Hperm)). apply in_seq. lia. }
  rewrite Hex. reflexivity.
Qed.
End Fill.

(** *** Instances *)

(** The strings column made from the example column. *)
Lemma from_integers_strings_invariants_witness :
  exists strings,
    from_integers zero_memory example_integers = inr strings /\
    strings_count strings = size example_integers /\
    nth 0 (offsets strings) O = O /\
    (forall idx, (idx < size example_integers)%nat ->
       (nth idx (offsets strings) O <= nth (S idx) (offsets strings) O)%nat) /\
    nth (size example_integers) (offsets strings) O = length (chars strings) /\
    (size example_integers <> 0%nat ->
     length (offsets strings) = S (size example_integers) /\
     strings_null_mask strings = null_mask example_integers /\
     strings_null_count strings = null_count example_integers).
Proof.
  eexists. split; [reflexivity|].
  exact (from_integers_strings_invariants zero_memory example_integers _ eq_refl).
Defined.

(** Row 1 of the example column, which holds -7. *)
Lemma from_integers_row_sizes_witness :
  integral_bits (type example_integers) = Some 32 /\
  (1 < size example_integers)%nat /\
  exists strings,
    from_integers zero_memory example_integers = inr strings /\
    (is_null (null_mask example_integers) 1 = true ->
     (nth 2 (offsets strings) O - nth 1 (offsets strings) O)%nat = O) /\
    (is_null (null_mask example_integers) 1 = false ->
     (1 <= nth 2 (offsets strings) O - nth 1 (offsets strings) O)%nat) /\
    (is_null (null_mask example_integers) 1 = false ->
     int_min 32 <= element example_integers 1 <= int_max 32 ->
     (nth 2 (offsets strings) O - nth 1 (offsets strings) O <= 20)%nat).
Proof.
  assert (Hidx : (1 < size example_integers)%nat) by (vm_compute; lia).
  split; [reflexivity|]. split; [exact Hidx|].
  eexists. split; [reflexivity|].
  exact (from_integers_row_sizes zero_memory example_integers 32 _ 1
           eq_refl eq_refl Hidx).
Defined.

(** Row 2 of the example column, which holds 123. *)
Lemma from_integers_canonical_numeral_witness :
  integral_bits (type example_integers) = Some 32 /\
  (2 < size example_integers)%nat /\
  is_null (null_mask example_integers) 2 = false /\
  exists strings,
    from_integers zero_memory example_integers = inr strings /\
    (element example_integers 2 = 0 -> element_bytes strings 2 = ["0"%char]) /\
    (0 < element example_integers 2 <= int_max 32 ->
     forallb is_digit (element_bytes strings 2) = true /\
     (exists chr rest, element_bytes strings 2 = chr :: rest /\ chr <> "0"%char) /\
     digits_value (element_bytes strings 2) 0 = element example_integers 2) /\
    (int_min 32 < element example_integers 2 < 0 ->
     element_bytes strings 2 =
     "-"%char :: decimal_bytes 32 (- element example_integers 2)).
Proof.
  assert (Hidx : (2 < size example_integers)%nat) by (vm_compute; lia).
  split; [reflexivity|]. split; [exact Hidx|]. split; [reflexivity|].
  eexists. split; [reflexivity|].
  exact (from_integers_canonical_numeral zero_memory example_integers 32 _ 2
           eq_refl eq_refl Hidx eq_refl).
Defined.

(** The string "-17" at address 4: the first read is at address 4. *)
Lemma string_to_integer_reads_in_range_witness :
  sv_size_bytes example_view <> 0%nat /\
  In 4%nat (snd (string_to_integer_reads example_memory example_view)) /\
  in_byte_range example_view 4 = true.
Proof.
  assert (Hsize : sv_size_bytes example_view <> 0%nat) by (vm_compute; lia).
  assert (Hread : In 4%nat (snd (string_to_integer_reads example_memory example_view)))
    by (vm_compute; left; reflexivity).
  split; [exact Hsize|]. split; [exact Hread|].
  exact (string_to_integer_reads_in_range example_memory example_view 4 Hsize Hread).
Defined.

(** The fill of row 2 of the example column into a buffer of 13 zero
    bytes. *)
Lemma integer_to_string_fn_writes_its_row_only_witness :
  (2 < size example_integers)%nat /\
  length (repeat zero 13) =
    length (chars (dispatch_from_integers_fn 32 zero_memory example_integers)) /\
  length (integer_to_string_fn 32 example_integers
            (offsets (dispatch_from_integers_fn 32 zero_memory example_integers))
            (repeat zero 13) 2) = length (repeat zero 13) /\
  (forall p,
     in_row (dispatch_from_integers_fn 32 zero_memory example_integers) 2 p = false ->
     nth p (integer_to_string_fn 32 example_integers
              (offsets (dispatch_from_integers_fn 32 zero_memory example_integers))
              (repeat zero 13) 2) zero =
     nth p (repeat zero 13) zero) /\
  (forall p,
     in_row (dispatch_from_integers_fn 32 zero_memory example_integers) 2 p = true ->
     nth p (integer_to_string_fn 32 example_integers
              (offsets (dispatch_from_integers_fn 32 zero_memory example_integers))
              (repeat zero 13) 2) zero =
     nth p (chars (dispatch_from_integers_fn 32 zero_memory example_integers)) zero).
Proof.
  assert (Hidx : (2 < size example_integers)%nat) by (vm_compute; lia).
  assert (Hlen : length (repeat zero 13) =
                 length (chars (dispatch_from_integers_fn 32 zero_memory
                                                          example_integers)))
    by (vm_compute; reflexivity).
  split; [exact Hidx|]. split; [exact Hlen|].
  exact (integer_to_string_fn_writes_its_row_only 32 zero_memory example_integers
           (repeat zero 13) 2 Hidx Hlen).
Defined.

(** The fill pass over the rows of the example column from the last to the
    first. *)
Lemma fill_pass_order_independent_witness :
  Permutation (rev (seq 0 (size example_integers))) (seq 0 (size example_integers)) /\
  fold_left (integer_to_string_fn 32 example_integers
               (offsets (dispatch_from_integers_fn 32 zero_memory example_integers)))
            (rev (seq 0 (size example_integers)))
            (map zero_memory
                 (seq 0 (nth (size example_integers)
                             (offsets (dispatch_from_integers_fn 32 zero_memory
                                                                 example_integers)) O))) =
  chars (dispatch_from_integers_fn 32 zero_memory example_integers).
Proof.
  assert (Hperm : Permutation (rev (seq 0 (size example_integers)))
                              (seq 0 (size example_integers)))
    by (apply Permutation_sym, Permutation_rev).
  split; [exact Hperm|].
  exact (fill_pass_order_independent 32 zero_memory example_integers _ Hperm).
Defined.

(** The strings of the example read with two contents of the memory
    after the chars buffer. *)
Lemma to_integers_ignores_memory_beyond_chars_witness :
  strings_wf example_strings /\
  to_integers zero_memory example_strings = to_integers example_memory example_strings.
Proof.
  split; [exact example_strings_wf|].
  exact (to_integers_ignores_memory_beyond_chars zero_memory example_memory
           example_strings example_strings_wf).
Defined.

End ConvertExtras.

(** ** Parquet writer options *)

Module ParquetWriterOptionsProperties.
Import ParquetWriterOptions.

Section Chains.
Variable Inherited : Type.

Lemma fold_call_statistics (calls : list (builder_call Inherited)) : forall b,
  existsb (@sets_statistics Inherited) calls = false ->
  b_statsGranularity (fold_left (@call Inherited) calls b) = b_statsGranularity b.
Proof.
  induction calls as [|c rest IH]; intros b Hnone; [reflexivity|].
  simpl in Hnone. apply orb_false_iff in Hnone. destruct Hnone as [Hc Hrest].
  simpl. rewrite (IH _ Hrest). destruct c; try reflexivity; discriminate.
Qed.

Lemma fold_call_int96 (calls : list (builder_call Inherited)) : forall b,
  existsb (@sets_int96 Inherited) calls = false ->
  b_isTimestampTypeInt96 (fold_left (@call Inherited) calls b) = b_isTimestampTypeInt96 b.
Proof.
  induction calls as [|c rest IH]; intros b Hnone; [reflexivity|].
  simpl in Hnone. apply orb_false_iff in Hnone. destruct Hnone as [Hc Hrest].
  simpl. rewrite (IH _ Hrest). destruct c; try reflexivity; discriminate.
Qed.

Lemma fold_call_precisions (calls : list (builder_call Inherited)) : forall b,
  existsb (@sets_precisions Inherited) calls = false ->
  b_precisionValues (fold_left (@call Inherited) calls b) = b_precisionValues b.
Proof.
  induction calls as [|c rest IH]; intros b Hnone; [reflexivity|].
  simpl in Hnone. apply orb_false_iff in Hnone. destruct Hnone as [Hc Hrest].
  simpl. rewrite (IH _ Hrest). destruct c; try reflexivity; discriminate.
Qed.

(** X29: in a chain of builder calls each setting of the options built is
    the argument of the last call that set it, whatever was called before
    and whichever other methods were called after; a setting no call set
    has its default: statistics per row group, timestamps not INT96, and a
    [null] array of precisions. *)
Theorem builder_last_call_wins inherited (before after : list (builder_call Inherited)) :
  (forall s,
     existsb (@sets_statistics Inherited) after = false ->
     getStatisticsFrequency
       (chain inherited (before ++ call_withStatisticsFrequency Inherited s :: after)) = s) /\
  (forall int96,
     existsb (@sets_int96 Inherited) after = false ->
     isTimestampTypeInt96
       (chain inherited (before ++ call_withTimestampInt96 Inherited int96 :: after))
     = int96) /\
  (forall p,
     existsb (@sets_precisions Inherited) after = false ->
     getPrecisions
       (chain inherited (before ++ call_withDecimalPrecisions Inherited p :: after)) = p) /\
  (existsb (@sets_statistics Inherited) after = false ->
   getStatisticsFrequency (chain inherited after) = ROWGROUP) /\
  (existsb (@sets_int96 Inherited) after = false ->
   isTimestampTypeInt96 (chain inherited after) = false) /\
  (existsb (@sets_precisions Inherited) after = false ->
   getPrecisions (chain inherited after) = None).
Proof.
  unfold chain, getStatisticsFrequency, getPrecisions, build. simpl.
  repeat split.
  - intros s Hnone. rewrite fold_left_app. simpl.
    rewrite (fold_call_statistics after _ Hnone). reflexivity.
  - intros int96 Hnone. rewrite fold_left_app. simpl.
    rewrite (fold_call_int96 after _ Hnone). reflexivity.
  - intros p Hnone. rewrite fold_left_app. simpl.
    rewrite (fold_call_precisions after _ Hnone). reflexivity.
  - intros Hnone. rewrite (fold_call_statistics after _ Hnone). reflexivity.
  - intros Hnone. rewrite (fold_call_int96 after _ Hnone). reflexivity.
  - intros Hnone. rewrite (fold_call_precisions after _ Hnone). reflexivity.
Qed.
End Chains.

(** A chain that sets the statistics twice and the precisions never. *)
Lemma builder_last_call_wins_witness :
  existsb (@sets_statistics unit) [call_withTimestampInt96 unit true] = false /\
  getStatisticsFrequency
    (chain tt ([call_withStatisticsFrequency unit PAGE]
               ++ call_withStatisticsFrequency unit NONE
               :: [call_withTimestampInt96 unit true])) = NONE.
Proof.
  split; [reflexivity|].
  exact (proj1 (builder_last_call_wins unit tt
                  [call_withStatisticsFrequency unit PAGE]
                  [call_withTimestampInt96 unit true]) NONE eq_refl).
Defined.

End ParquetWriterOptionsProperties.
